(** * Verification of the coin/month re-bucketing engine and the RTH filter

    Shallow embedding of
    - [src/quant_research/data_portal/hl_ctxs_to_parquet.py]
      ([convert_parquets], [_parse_timestamp_ns_from_str],
       [_parse_date32_from_str], [_cast_to_schema], [_month_str],
       [_writer_for], [split_asset_ctxs_by_coin_month]);
    - [src/quant_research/processing/clean_intraday.py] ([clean_to_rth]);
    - [src/quant_research/data_portal/io.py] ([_processed_path],
      [_raw_path], [read_processed]).

    Python exceptions are values of [exn] carried by the [result] type,
    Arrow arrays are typed lists of optional scalars (None is a null),
    the OrderedDict of open writers is an association list kept in
    least-recently-used-first order, and the [counts] dict is a [gmap]. *)

From stdpp Require Import gmap strings list fin_maps pretty.
From Stdlib Require Import ZArith Ascii String List Lia Bool Sorted.
Import ListNotations.
Local Open Scope Z_scope.

(** ** Exceptions and fallible computations *)

Inductive exn : Type :=
| ArrowInvalid          (* a value cannot be converted *)
| ArrowNotImplemented   (* no kernel for these input types *)
| KeyError              (* missing / ambiguous key, popitem on an empty dict *)
| TypeError             (* a path joined with something that is not a str *)
| ValueError.           (* range() with a zero step, duplicate labels *)

Inductive result (A : Type) : Type :=
| Ok (a : A)
| Err (e : exn).
Arguments Ok {A} a.
Arguments Err {A} e.

Definition rbind {A B} (r : result A) (k : A -> result B) : result B :=
  match r with
  | Ok a => k a
  | Err e => Err e
  end.

Notation "'let*' x ':=' r 'in' k" := (rbind r (fun x => k))
  (at level 10, x name, r at level 100, k at level 200).

Fixpoint mapM {A B} (f : A -> result B) (l : list A) : result (list B) :=
  match l with
  | [] => Ok []
  | a :: l' => let* b := f a in let* bs := mapM f l' in Ok (b :: bs)
  end.

(** ** Timestamp strings: [_parse_timestamp_ns_from_str] *)

Module Strptime.

Definition is_digit (c : ascii) : bool :=
  let n := nat_of_ascii c in (48 <=? n)%nat && (n <=? 57)%nat.

Definition digit_val (c : ascii) : Z := Z.of_nat (nat_of_ascii c) - 48.

(** C [isspace]: space, and the control characters 9..13. *)
Definition is_space (c : ascii) : bool :=
  let n := nat_of_ascii c in (n =? 32)%nat || ((9 <=? n)%nat && (n <=? 13)%nat).

Definition ascii_eqb (a b : ascii) : bool := Ascii.eqb a b.

(** [pc.replace_substring_regex(s, pattern=r"Z$", replacement="")]:
    the anchored pattern can only match the last character. *)
Definition strip_Z (s : list ascii) : list ascii :=
  match rev s with
  | c :: r => if ascii_eqb c "Z" then rev r else s
  | [] => s
  end.

(** [pc.replace_substring_regex(s, pattern=r"[+-]\d{2}:\d{2}$", replacement="")]:
    the anchored pattern can only match the last six characters. *)
Definition strip_offset (s : list ascii) : list ascii :=
  match rev s with
  | d4 :: d3 :: col :: d2 :: d1 :: sg :: r =>
      if (ascii_eqb sg "+" || ascii_eqb sg "-")
         && is_digit d1 && is_digit d2 && ascii_eqb col ":"
         && is_digit d3 && is_digit d4
      then rev r else s
  | _ => s
  end.

(** The fields of [struct tm] that the four layouts can set.  Arrow clears
    the structure before calling [strptime]: a cleared structure reads as
    January 1900 with day-of-month 0, which [tm_to_ns] raises to 1. *)
Record tm : Type := mkTm {
  tm_year : Z;   (* full year: the C field plus 1900 *)
  tm_mon  : Z;   (* 1..12: the C field plus 1 *)
  tm_mday : Z;   (* 1..31, 0 when not parsed *)
  tm_hour : Z;
  tm_min  : Z;
  tm_sec  : Z
}.

Definition tm0 : tm := mkTm 1900 1 0 0 0 0.

Fixpoint skip_spaces (s : list ascii) : list ascii :=
  match s with
  | c :: s' => if is_space c then skip_spaces s' else s
  | [] => []
  end.

(** The digit loop of glibc's [get_number(from, to, n)], entered after the
    first digit has been read: it goes on while fewer than [n] digits were
    taken, [val * 10 <= to] and the next character is a digit. *)
Fixpoint more_digits (n : nat) (to val : Z) (s : list ascii) : Z * list ascii :=
  match n with
  | O => (val, s)
  | S n' =>
      match s with
      | c :: s' =>
          if is_digit c && (val * 10 <=? to)
          then more_digits n' to (val * 10 + digit_val c) s'
          else (val, s)
      | [] => (val, s)
      end
  end.

Definition get_number (from to : Z) (n : nat) (s : list ascii)
  : option (Z * list ascii) :=
  match skip_spaces s with
  | c :: s' =>
      if is_digit c then
        let '(v, rest) := more_digits (Nat.pred n) to (digit_val c) s' in
        if (from <=? v) && (v <=? to) then Some (v, rest) else None
      else None
  | [] => None
  end.

(** One conversion specification.  Only the six used by the source's
    layouts are interpreted; any other one makes the parse fail. *)
Definition directive (d : ascii) (t : tm) (s : list ascii)
  : option (tm * list ascii) :=
  if ascii_eqb d "Y" then
    match get_number 0 9999 4 s with
    | Some (v, r) => Some (mkTm v (tm_mon t) (tm_mday t) (tm_hour t) (tm_min t) (tm_sec t), r)
    | None => None
    end
  else if ascii_eqb d "m" then
    match get_number 1 12 2 s with
    | Some (v, r) => Some (mkTm (tm_year t) v (tm_mday t) (tm_hour t) (tm_min t) (tm_sec t), r)
    | None => None
    end
  else if ascii_eqb d "d" then
    match get_number 1 31 2 s with
    | Some (v, r) => Some (mkTm (tm_year t) (tm_mon t) v (tm_hour t) (tm_min t) (tm_sec t), r)
    | None => None
    end
  else if ascii_eqb d "H" then
    match get_number 0 23 2 s with
    | Some (v, r) => Some (mkTm (tm_year t) (tm_mon t) (tm_mday t) v (tm_min t) (tm_sec t), r)
    | None => None
    end
  else if ascii_eqb d "M" then
    match get_number 0 59 2 s with
    | Some (v, r) => Some (mkTm (tm_year t) (tm_mon t) (tm_mday t) (tm_hour t) v (tm_sec t), r)
    | None => None
    end
  else if ascii_eqb d "S" then
    match get_number 0 61 2 s with
    | Some (v, r) => Some (mkTm (tm_year t) (tm_mon t) (tm_mday t) (tm_hour t) (tm_min t) v, r)
    | None => None
    end
  else None.

(** The format interpreter.  White space in the format matches any run of
    white space in the input, [%] introduces a directive, every other
    character must match itself.  The result is the text left over. *)
Fixpoint strptime_c (fmt : list ascii) (t : tm) (s : list ascii)
  : option (tm * list ascii) :=
  match fmt with
  | [] => Some (t, s)
  | f :: fmt' =>
      if is_space f then strptime_c fmt' t (skip_spaces s)
      else if ascii_eqb f "%" then
        match fmt' with
        | d :: fmt'' =>
            match directive d t s with
            | Some (t', s') => strptime_c fmt'' t' s'
            | None => None
            end
        | [] => None
        end
      else
        match s with
        | c :: s' => if ascii_eqb c f then strptime_c fmt' t s' else None
        | [] => None
        end
  end.

(** Days since 1970-01-01 of a proleptic Gregorian date (the algorithm of
    the date library Arrow vendors). *)
Definition days_from_civil (y m d : Z) : Z :=
  let y' := if m <=? 2 then y - 1 else y in
  let era := y' / 400 in
  let yoe := y' - era * 400 in
  let mp := (m + 9) mod 12 in
  let doy := (153 * mp + 2) / 5 + d - 1 in
  let doe := yoe * 365 + yoe / 4 - yoe / 100 + doy in
  era * 146097 + doe - 719468.

(** The instant of the fields, in nanoseconds since the epoch. *)
Definition tm_to_ns (t : tm) : Z :=
  let days := days_from_civil (tm_year t) (tm_mon t) (Z.max (tm_mday t) 1) in
  let secs := days * 86400 + tm_hour t * 3600 + tm_min t * 60 + tm_sec t in
  secs * 1000000000.

(** What a 64-bit signed integer can hold. *)
Definition in_int64 (z : Z) : bool := (- 2 ^ 63 <=? z) && (z <? 2 ^ 63).

(** [pc.strptime(s, format=fmt, unit="ns", error_is_null=True)] on one
    element: the whole string has to be consumed, and the instant has to
    fit the 64 bits of a timestamp; a failure is a null. *)
Definition strptime_ns (fmt : string) (s : list ascii) : option Z :=
  match strptime_c (list_ascii_of_string fmt) tm0 s with
  | Some (t, []) => if in_int64 (tm_to_ns t) then Some (tm_to_ns t) else None
  | _ => None
  end.

(** [pc.coalesce]: the first non-null of the candidates, per row. *)
Fixpoint coalesce (cands : list (option Z)) : option Z :=
  match cands with
  | [] => None
  | Some v :: _ => Some v
  | None :: cands' => coalesce cands'
  end.

Definition layouts : list string :=
  [ "%Y-%m-%dT%H:%M:%S"; "%Y-%m-%d %H:%M:%S"; "%Y-%m-%dT%H:%M"; "%Y-%m-%d %H:%M" ]%string.

(** One row of [_parse_timestamp_ns_from_str]. *)
Definition parse_row (s : string) : option Z :=
  let s1 := strip_offset (strip_Z (list_ascii_of_string s)) in
  coalesce (map (fun fmt => strptime_ns fmt s1) layouts).

End Strptime.

(** ** The fragment of Arrow the normalizer uses *)

Module Arrow.

Inductive time_unit : Type := u_s | u_ms | u_us | u_ns.

Inductive dtype : Type :=
| t_null
| t_bool
| t_int64
| t_float32
| t_float64
| t_string
| t_large_string
| t_timestamp (u : time_unit) (tz : option string)
| t_date32
| t_date64.

#[global] Instance time_unit_eq_dec : EqDecision time_unit.
Proof. solve_decision. Defined.

#[global] Instance dtype_eq_dec : EqDecision dtype.
Proof. solve_decision. Defined.

(** A non-null element.  A float is the dyadic number [m * 2 ^ e]; the
    normalizer never computes with floats, it only asks Arrow to convert. *)
Inductive scalar : Type :=
| s_int (z : Z)
| s_str (s : string)
| s_float (m e : Z)
| s_bool (b : bool).

(** An array: its type and its elements, [None] being a null. *)
Record column : Type := mkColumn {
  ctype : dtype;
  cvals : list (option scalar)
}.

Definition field : Type := string * dtype.

(** A table: named columns and a row count ([tbl.num_rows]). *)
Record table : Type := mkTable {
  columns : list (string * column);
  num_rows : nat
}.

Definition table_wf (tbl : table) : Prop :=
  Forall (fun nc => length (cvals (snd nc)) = num_rows tbl) (columns tbl).

Definition schema_of (tbl : table) : list field :=
  map (fun nc => (fst nc, ctype (snd nc))) (columns tbl).

Definition names (tbl : table) : list string := map fst (columns tbl).

Definition is_timestamp (t : dtype) : bool :=
  match t with t_timestamp _ _ => true | _ => false end.

Definition is_date (t : dtype) : bool :=
  match t with t_date32 | t_date64 => true | _ => false end.

Definition is_date32 (t : dtype) : bool :=
  match t with t_date32 => true | _ => false end.

Definition is_string (t : dtype) : bool :=
  match t with t_string => true | _ => false end.

(** [isinstance(t, pa.TimestampType) and t.tz is not None] *)
Definition is_tz_aware (t : dtype) : bool :=
  match t with t_timestamp _ (Some _) => true | _ => false end.

(** [pa.nulls(n, type=t)] *)
Definition nulls (n : nat) (t : dtype) : column := mkColumn t (repeat None n).

Definition valid_elem (o : option scalar) : bool :=
  match o with Some _ => true | None => false end.

(** [pc.is_valid(col)] *)
Definition is_valid (col : column) : list bool := map valid_elem (cvals col).

(** [tbl[name]]: the column of that name; a name that is absent or occurs
    more than once is a [KeyError]. *)
Definition getitem (tbl : table) (name : string) : result column :=
  match List.filter (fun nc => String.eqb (fst nc) name) (columns tbl) with
  | [nc] => Ok (snd nc)
  | _ => Err KeyError
  end.

Section Kernels.

(** Arrow's conversion kernels are taken as given:
    [castable src dst] tells whether a cast kernel exists at all,
    [conv src dst v] converts one valid element ([None]: the value is not
    representable, the cast raises), and [common a b] is the type to
    which [if_else] promotes two branches of different types ([None]: no
    kernel matches). *)
Variable castable : dtype -> dtype -> bool.
Variable conv : dtype -> dtype -> scalar -> option scalar.
Variable common : dtype -> dtype -> option dtype.

Definition cast_elem (src dst : dtype) (o : option scalar)
  : result (option scalar) :=
  match o with
  | None => Ok None
  | Some v =>
      match conv src dst v with
      | Some v' => Ok (Some v')
      | None => Err ArrowInvalid
      end
  end.

(** [pc.cast(col, t)]: a cast to the column's own type returns it as it
    is; otherwise every valid element is converted and one failure fails
    the whole call.  Nulls stay null. *)
Definition cast (col : column) (t : dtype) : result column :=
  if decide (ctype col = t) then Ok col
  else if castable (ctype col) t then
    let* vs := mapM (cast_elem (ctype col) t) (cvals col) in
    Ok (mkColumn t vs)
  else Err ArrowNotImplemented.

Fixpoint select (cond : list bool) (l r : list (option scalar))
  : list (option scalar) :=
  match cond, l, r with
  | c :: cond', x :: l', y :: r' => (if c then x else y) :: select cond' l' r'
  | _, _, _ => []
  end.

(** [pc.if_else(cond, left, right)] for a null-free boolean [cond]: both
    branches are first brought to one type. *)
Definition if_else (cond : list bool) (l r : column) : result column :=
  let* ct :=
    (if decide (ctype l = ctype r) then Ok (ctype l)
     else match common (ctype l) (ctype r) with
          | Some c => Ok c
          | None => Err ArrowNotImplemented
          end) in
  let* l' := cast l ct in
  let* r' := cast r ct in
  Ok (mkColumn ct (select cond (cvals l') (cvals r'))).

(** [pa.Table.from_arrays(cols, schema=target_schema)]: the arrays are
    paired with the schema's fields, each one converted to its field's
    type when it differs; the row count is that of the first array. *)
Fixpoint sanitize_arrays (cols : list column) (schema : list field)
  : result (list (string * column)) :=
  match cols, schema with
  | [], [] => Ok []
  | c :: cols', f :: schema' =>
      let* c' := cast c (snd f) in
      let* rest := sanitize_arrays cols' schema' in
      Ok ((fst f, c') :: rest)
  | _, _ => Err ValueError
  end.

Definition from_arrays (cols : list column) (schema : list field)
  : result table :=
  let* ncs := sanitize_arrays cols schema in
  Ok (mkTable ncs (match cols with c :: _ => length (cvals c) | [] => O end)).

End Kernels.

End Arrow.

(** ** The schema normalizer: [_cast_to_schema] and its two string parsers *)

Module Normalizer.
Import Arrow.

Definition ts_ns : dtype := t_timestamp u_ns None.

(** [_parse_timestamp_ns_from_str]: a non-string array is handed back as
    it is; a string array is parsed row by row, nulls staying null. *)
Definition _parse_timestamp_ns_from_str (arr : column) : column :=
  if is_string (ctype arr) then
    mkColumn ts_ns
      (map (fun o =>
              match o with
              | Some (s_str s) => option_map s_int (Strptime.parse_row s)
              | _ => None
              end) (cvals arr))
  else arr.

Fixpoint has_newline (s : list ascii) : bool :=
  match s with
  | [] => false
  | c :: s' => Strptime.ascii_eqb c "010" || has_newline s'
  end.

(** [pc.replace_substring_regex(s, pattern=r"[T ].*$", replacement="")]:
    the leftmost [T] or space after which no newline follows (the dot does
    not match one) starts the match, which runs to the end. *)
Fixpoint strip_time (s : list ascii) : list ascii :=
  match s with
  | [] => []
  | c :: s' =>
      if (Strptime.ascii_eqb c "T" || Strptime.ascii_eqb c " ")
         && negb (has_newline s')
      then []
      else c :: strip_time s'
  end.

Definition parse_date_row (s : string) : option Z :=
  Strptime.strptime_ns "%Y-%m-%d" (strip_time (list_ascii_of_string s)).

Section WithKernels.

Variable castable : dtype -> dtype -> bool.
Variable conv : dtype -> dtype -> scalar -> option scalar.
Variable common : dtype -> dtype -> option dtype.

Local Abbreviation cast := (Arrow.cast castable conv).
Local Abbreviation if_else := (Arrow.if_else castable conv common).
Local Abbreviation from_arrays := (Arrow.from_arrays castable conv).

(** [_parse_date32_from_str] *)
Definition _parse_date32_from_str (arr : column) : result column :=
  if is_string (ctype arr) then
    let d1 :=
      mkColumn ts_ns
        (map (fun o =>
                match o with
                | Some (s_str s) => option_map s_int (parse_date_row s)
                | _ => None
                end) (cvals arr)) in
    cast d1 t_date32
  else Ok arr.

(** The body of the loop of [_cast_to_schema] for one target field: the
    array appended to [cols]. *)
Definition cast_field (tbl : table) (f : field) : result column :=
  let name := fst f in
  let ftype := snd f in
  if existsb (String.eqb name) (names tbl) then
    let* col := getitem tbl name in
    if is_timestamp ftype then
      let* col1 :=
        (if is_string (ctype col) then Ok (_parse_timestamp_ns_from_str col)
         else if is_tz_aware (ctype col) then cast col ts_ns
         else Ok col) in
      if decide (ctype col1 = ftype) then Ok col1 else cast col1 ftype
    else if is_date ftype then
      let* col1 :=
        (if is_string (ctype col) then _parse_date32_from_str col
         else Ok col) in
      if decide (ctype col1 = ftype) then Ok col1 else cast col1 ftype
    else
      if decide (ctype col = ftype) then Ok col
      else
        match cast col ftype with
        | Ok c => Ok c
        | Err _ =>
            let valid := is_valid col in
            let* x := if_else valid col (nulls (length (cvals col)) ftype) in
            cast x ftype
        end
  else Ok (nulls (num_rows tbl) ftype).

Definition _cast_to_schema (tbl : table) (target_schema : list field)
  : result table :=
  let* cols := mapM (cast_field tbl) target_schema in
  from_arrays cols target_schema.

End WithKernels.

End Normalizer.

(** ** Calendar formatting: [_month_str] *)

Module Calendar.
Import Arrow.

(** Year and month of a day count since 1970-01-01. *)
Definition civil_from_days (days : Z) : Z * Z :=
  let z := days + 719468 in
  let era := z / 146097 in
  let doe := z - era * 146097 in
  let yoe := (doe - doe / 1460 + doe / 36524 - doe / 146096) / 365 in
  let y := yoe + era * 400 in
  let doy := doe - (365 * yoe + yoe / 4 - yoe / 100) in
  let mp := (5 * doy + 2) / 153 in
  let m := if mp <? 10 then mp + 3 else mp - 9 in
  (if m <=? 2 then y + 1 else y, m).

Definition ticks_per_second (u : time_unit) : Z :=
  match u with
  | u_s => 1
  | u_ms => 1000
  | u_us => 1000000
  | u_ns => 1000000000
  end.

Definition pad (width : nat) (n : Z) : string :=
  let d := pretty (Z.abs n) in
  let zeros := string_of_list_ascii (repeat "0"%char (width - String.length d)) in
  let sign := if n <? 0 then "-"%string else ""%string in
  String.append sign (String.append zeros d).

Section WithZones.

(** The offset from UTC, in seconds, that a named zone has at an instant
    given in seconds since the epoch (the time-zone database). *)
Variable tz_offset : string -> Z -> Z.

(** [pc.strftime(ts, format="%Y-%m")] on one element of a timestamp
    array of type [t]. *)
Definition strftime_Ym (t : dtype) (o : option scalar) : option scalar :=
  match t, o with
  | t_timestamp u tz, Some (s_int v) =>
      let secs := v / ticks_per_second u in
      let local :=
        match tz with
        | Some zone => secs + tz_offset zone secs
        | None => secs
        end in
      let '(y, m) := civil_from_days (local / 86400) in
      Some (s_str (String.append (pad 4 y) (String.append "-" (pad 2 m))))
  | _, _ => None
  end.

End WithZones.

End Calendar.

(** ** The streaming re-bucketer: [split_asset_ctxs_by_coin_month] *)

Module Rebucket.
Import Arrow Normalizer Calendar.

(** A partition key [(coin, 'YYYY-MM')]. *)
Definition key : Type := string * string.

(** A [pq.ParquetWriter]: the object's identity and the path it writes. *)
Record handle : Type := mkHandle {
  h_id : nat;
  h_path : string
}.

#[global] Instance handle_eq_dec : EqDecision handle.
Proof. solve_decision. Defined.

(** What the run does to the outside world, in the order it does it. *)
Inductive event : Type :=
| EvMkdir (dir : string)
| EvUnlink (path : string)
| EvOpen (w : handle)
| EvClose (w : handle) (failed : bool)
| EvWrite (w : handle) (rows : nat).

(** The variables of the function body that its loops mutate, the files
    under [out_dir] (each one the list of tables written to it), and the
    log of events, most recent first. *)
Record state : Type := mkState {
  writers : list (key * handle);   (* the OrderedDict, least recent first *)
  counts : gmap key nat;
  files : gmap string (list table);
  next_id : nat;
  log : list event
}.

Definition init (fs : gmap string (list table)) : state :=
  mkState [] ∅ fs O [].

(** State passing with exceptions: the state survives a raise, which is
    what the [finally] clause then works on. *)
Definition M (A : Type) : Type := state -> state * result A.

Definition ret {A} (a : A) : M A := fun st => (st, Ok a).
Definition raise {A} (e : exn) : M A := fun st => (st, Err e).
Definition mbind {A B} (m : M A) (k : A -> M B) : M B :=
  fun st =>
    match m st with
    | (st', Ok a) => k a st'
    | (st', Err e) => (st', Err e)
    end.
Definition lift {A} (r : result A) : M A := fun st => (st, r).

Notation "'do' x '<-' m ';' k" := (mbind m (fun x => k))
  (at level 10, x name, m at level 100, k at level 200).

Fixpoint forM_ {A} (f : A -> M unit) (l : list A) : M unit :=
  match l with
  | [] => ret tt
  | a :: l' => do _ <- f a; forM_ f l'
  end.

Definition emit (e : event) : M unit :=
  fun st => (mkState (writers st) (counts st) (files st) (next_id st) (e :: log st), Ok tt).

Definition set_writers (ws : list (key * handle)) : M unit :=
  fun st => (mkState ws (counts st) (files st) (next_id st) (log st), Ok tt).

Definition set_files (fs : gmap string (list table)) : M unit :=
  fun st => (mkState (writers st) (counts st) fs (next_id st) (log st), Ok tt).

Definition set_counts (cs : gmap key nat) : M unit :=
  fun st => (mkState (writers st) cs (files st) (next_id st) (log st), Ok tt).

Definition fresh_id : M nat :=
  fun st => (mkState (writers st) (counts st) (files st) (S (next_id st)) (log st), Ok (next_id st)).

Definition get {A} (proj : state -> A) : M A := fun st => (st, Ok (proj st)).

(** *** The OrderedDict operations the pool uses *)

Definition key_eqb (a b : key) : bool := bool_decide (a = b).

Fixpoint od_get (k : key) (ws : list (key * handle)) : option handle :=
  match ws with
  | [] => None
  | (k', w) :: ws' => if key_eqb k' k then Some w else od_get k ws'
  end.

Definition od_remove (k : key) (ws : list (key * handle)) : list (key * handle) :=
  List.filter (fun kw => negb (key_eqb (fst kw) k)) ws.

(** [writers.move_to_end(key)] for a key that is present. *)
Definition move_to_end (k : key) (ws : list (key * handle)) : list (key * handle) :=
  match od_get k ws with
  | Some w => od_remove k ws ++ [(k, w)]
  | None => ws
  end.

(** [writers[key] = w]: a present key keeps its place, a new one goes to
    the end. *)
Fixpoint od_set (k : key) (w : handle) (ws : list (key * handle)) : list (key * handle) :=
  match ws with
  | [] => [(k, w)]
  | (k', w') :: ws' =>
      if key_eqb k' k then (k, w) :: ws' else (k', w') :: od_set k w ws'
  end.

(** [range(0, stop, step)] *)
Definition py_range0 (stop step : Z) : result (list Z) :=
  if step =? 0 then Err ValueError
  else
    let len :=
      if 0 <? step then (stop + step - 1) / step
      else (- stop - 1) / (- step) + 1 in
    Ok (map (fun i => Z.of_nat i * step) (seq 0 (Z.to_nat len))).

(** [tbl.slice(offset, length)]: the rows from [offset] on, at most
    [length] of them. *)
Definition slice (tbl : table) (offset length : Z) : table :=
  let cut (vs : list (option scalar)) :=
    firstn (Z.to_nat length) (skipn (Z.to_nat offset) vs) in
  mkTable
    (map (fun nc => (fst nc, mkColumn (ctype (snd nc)) (cut (cvals (snd nc))))) (columns tbl))
    (Nat.min (Z.to_nat length) (num_rows tbl - Z.to_nat offset)).

(** [pc.unique(col).to_pylist()]: the distinct elements, a null included,
    in the order of their first occurrence. *)
#[global] Instance scalar_eq_dec : EqDecision scalar.
Proof. solve_decision. Defined.

Fixpoint unique (l : list (option scalar)) : list (option scalar) :=
  match l with
  | [] => []
  | x :: l' => x :: List.filter (fun y => negb (bool_decide (y = x))) (unique l')
  end.

(** [pc.equal(col, pa.scalar(v))]: null wherever an operand is null. *)
Definition equal_scalar (col : column) (v : option scalar) : list (option bool) :=
  map (fun o =>
         match o, v with
         | Some a, Some b => Some (bool_decide (a = b))
         | _, _ => None
         end) (cvals col).

Fixpoint keep {A} (mask : list (option bool)) (l : list A) : list A :=
  match mask, l with
  | Some true :: mask', x :: l' => x :: keep mask' l'
  | _ :: mask', _ :: l' => keep mask' l'
  | _, _ => []
  end.

(** [tbl.filter(mask)]: the rows whose mask is true; a null mask drops
    the row, like a false one. *)
Definition filter_table (tbl : table) (mask : list (option bool)) : table :=
  mkTable
    (map (fun nc => (fst nc, mkColumn (ctype (snd nc)) (keep mask (cvals (snd nc))))) (columns tbl))
    (length (keep mask (seq 0 (num_rows tbl)))).

(** The scan: [dataset.scanner(columns=target_schema.names, filter=filt)]
    with [filt] asking for a valid [coin] and a valid [time].  A batch in
    which a projected column cannot be found fails the scan. *)
Definition and_valid (a b : column) : list (option bool) :=
  map (fun p => Some (valid_elem (fst p) && valid_elem (snd p)))
      (combine (cvals a) (cvals b)).

Definition scan_batch (target_schema : list field) (raw : table) : result table :=
  let* coin := getitem raw "coin" in
  let* time := getitem raw "time" in
  let* cols := mapM (fun f => let* c := getitem raw (fst f) in Ok (fst f, c)) target_schema in
  Ok (filter_table (mkTable cols (num_rows raw)) (and_valid coin time)).

Section Run.

(** Arrow's kernels and the time-zone database, as in [Arrow.Kernels]. *)
Variable castable : dtype -> dtype -> bool.
Variable conv : dtype -> dtype -> scalar -> option scalar.
Variable common : dtype -> dtype -> option dtype.
Variable tz_offset : string -> Z -> Z.

(** The parameters of [split_asset_ctxs_by_coin_month]. *)
Variable out_dir : string.
Variable row_group_size : Z.
Variable target_schema : list field.
Variable overwrite : bool.
Variable max_open_writers : Z.

(** Whether [close()] raises on a given writer. *)
Variable close_fails : handle -> bool.

Definition out_path (coin yyyymm : string) : string :=
  String.append out_dir
    (String.append "/" (String.append coin
       (String.append "/" (String.append yyyymm ".parquet")))).

(** [w.close()] inside [try: ... except Exception: pass]: the attempt is
    made, its failure is swallowed. *)
Definition try_close (w : handle) : M unit := emit (EvClose w (close_fails w)).

(** [pq.ParquetWriter(where=str(out_path), ...)]: a new writer object;
    the file is created, or emptied when it is there already. *)
Definition open_writer (path : string) : M handle :=
  do i <- fresh_id;
  let w := mkHandle i path in
  do fs <- get files;
  do _ <- set_files (<[path := []]> fs);
  do _ <- emit (EvOpen w);
  ret w.

Definition _writer_for (coin yyyymm : string) : M handle :=
  let key := (coin, yyyymm) in
  do ws <- get writers;
  match od_get key ws with
  | Some w =>
      (* touch if present *)
      do _ <- set_writers (move_to_end key ws);
      ret w
  | None =>
      let coin_dir := String.append out_dir (String.append "/" coin) in
      do _ <- emit (EvMkdir coin_dir);
      let path := out_path coin yyyymm in
      do fs <- get files;
      do _ <- (if overwrite && bool_decide (is_Some (fs !! path))
               then do _ <- set_files (delete path fs); emit (EvUnlink path)
               else ret tt);
      (* If at capacity, close least-recently-used writer *)
      do _ <- (if Z.of_nat (length ws) >=? max_open_writers
               then match ws with
                    | [] => raise KeyError
                    | (old_key, old_writer) :: ws' =>
                        do _ <- set_writers ws';
                        try_close old_writer
                    end
               else ret tt);
      do w <- open_writer path;
      do ws1 <- get writers;
      do _ <- set_writers (od_set key w ws1);
      ret w
  end.

(** [writer.write_table(t)]: the table is appended to the writer's file. *)
Definition write_table (w : handle) (t : table) : M unit :=
  do fs <- get files;
  do _ <- set_files (<[h_path w := default [] (fs !! h_path w) ++ [t]]> fs);
  emit (EvWrite w (num_rows t)).

(** Lines 250-254: the sub-batch is written whole, or in slices of
    [row_group_size] rows when it has more rows than that. *)
Definition write_row_groups (writer : handle) (cm_tbl : table) : M unit :=
  if Z.of_nat (num_rows cm_tbl) >? row_group_size
  then do starts <- lift (py_range0 (Z.of_nat (num_rows cm_tbl)) row_group_size);
       forM_ (fun start => write_table writer (slice cm_tbl start row_group_size)) starts
  else write_table writer cm_tbl.

(** Lines 249-256: one coin-month sub-batch goes to its writer and is
    counted. *)
Definition write_sub_batch (coin m : string) (cm_tbl : table) : M unit :=
  do writer <- _writer_for coin m;
  do _ <- write_row_groups writer cm_tbl;
  do cs <- get counts;
  set_counts (<[(coin, m) := (default O (cs !! (coin, m)) + num_rows cm_tbl)%nat]> cs).

(** [_month_str] *)
Definition _month_str (arr : column) : result column :=
  let* ts := (if is_timestamp (ctype arr) then Ok arr
              else Arrow.cast castable conv arr ts_ns) in
  Ok (mkColumn t_string (map (strftime_Ym tz_offset (ctype ts)) (cvals ts))).

(** The body of [for m in uniq_months]. *)
Definition per_month (coin : option scalar) (c_tbl : table) (months : column)
    (m : option scalar) : M unit :=
  let m_mask := equal_scalar months m in
  let cm_tbl := filter_table c_tbl m_mask in
  if (num_rows cm_tbl =? 0)%nat then ret tt
  else
    match coin, m with
    | Some (s_str c), Some (s_str ym) => write_sub_batch c ym cm_tbl
    | _, _ => raise TypeError
    end.

(** The body of [for coin in coins]. *)
Definition per_coin (tbl : table) (coin_col : column) (coin : option scalar) : M unit :=
  let c_tbl := filter_table tbl (equal_scalar coin_col coin) in
  if (num_rows c_tbl =? 0)%nat then ret tt
  else
    do date <- lift (getitem c_tbl "date");
    do base_date <-
      (if negb (is_date32 (ctype date)) && negb (existsb id (is_valid date))
       then lift (getitem c_tbl "time")
       else ret date);
    do months <- lift (_month_str base_date);
    forM_ (per_month coin c_tbl months) (unique (cvals months)).

(** The body of [for rec_batch in scanner.to_batches()]. *)
Definition per_batch (raw : table) : M unit :=
  do rec_batch <- lift (scan_batch target_schema raw);
  do tbl <- lift (_cast_to_schema castable conv common rec_batch target_schema);
  if (num_rows tbl =? 0)%nat then ret tt
  else
    do coin_col <- lift (getitem tbl "coin");
    forM_ (per_coin tbl coin_col) (unique (cvals coin_col)).

(** The [finally] clause: every writer still in the pool gets its
    [close()], whatever the earlier ones did. *)
Definition close_all : M unit :=
  do ws <- get writers;
  forM_ (fun kw => try_close (snd kw)) ws.

(** The function, from the scan on: the [try] block, then the [finally]
    clause, then either the counts or the exception of the [try] block. *)
Definition split_asset_ctxs_by_coin_month (fs : gmap string (list table))
    (dataset : list table) : state * result (gmap key nat) :=
  let '(st1, r) := forM_ per_batch dataset (init fs) in
  let '(st2, _) := close_all st1 in
  (st2, match r with Ok _ => Ok (counts st2) | Err e => Err e end).

(** A sequence of accesses to the pool, and a sequence of routed
    sub-batches: what the three nested loops boil down to. *)
Definition accesses (ks : list key) : M unit :=
  forM_ (fun k => do _ <- _writer_for (fst k) (snd k); ret tt) ks.

Definition sub_batches (subs : list (key * table)) : M unit :=
  forM_ (fun kt => write_sub_batch (fst (fst kt)) (snd (fst kt)) (snd kt)) subs.

End Run.

(** *** Vocabulary of the properties *)

(** The writers that are open after a log (most recent event first). *)
Fixpoint open_handles (l : list event) : list handle :=
  match l with
  | [] => []
  | EvOpen w :: l' => w :: open_handles l'
  | EvClose w _ :: l' => List.filter (fun h => negb (bool_decide (h = w))) (open_handles l')
  | _ :: l' => open_handles l'
  end.

(** [P] holds after every event of the log, and before the first one. *)
Fixpoint always (P : list event -> Prop) (l : list event) : Prop :=
  P l /\ match l with
         | [] => True
         | _ :: l' => always P l'
         end.

(** The position of the last access to [k] in a chronological sequence
    of accesses, counted from [i]. *)
Fixpoint last_use_from (i : nat) (ks : list key) (k : key) : option nat :=
  match ks with
  | [] => None
  | k' :: ks' =>
      match last_use_from (S i) ks' k with
      | Some j => Some j
      | None => if key_eqb k' k then Some i else None
      end
  end.

Definition last_use (ks : list key) (k : key) : option nat := last_use_from 0 ks k.

(** [a] was accessed, and [b] was accessed again after the last access
    to [a]. *)
Definition used_before (ks : list key) (a b : key) : Prop :=
  exists i j, last_use ks a = Some i /\ last_use ks b = Some j /\ (i < j)%nat.

(** The sum of the per-key counts of a summary. *)
Definition total (cs : gmap key nat) : nat :=
  map_fold (fun _ n acc => (n + acc)%nat) O cs.

(** The sizes of the writes of a log, in the order they were made. *)
Definition write_sizes (l : list event) : list nat :=
  rev (omap (fun e => match e with EvWrite _ n => Some n | _ => None end) l).

End Rebucket.

(** ** The regular-trading-hours filter: [clean_to_rth] *)

Module CleanIntraday.

Section Frames.

(** The type of the non-missing cell values; [None] is a NaN. *)
Variable V : Type.

(** A DataFrame on a DatetimeIndex: the column labels, the zone of the
    index ([None]: naive), and the rows, each an instant in nanoseconds
    since the epoch with the cells of that row. *)
Record frame : Type := mkFrame {
  f_columns : list string;
  f_tz : option string;
  f_rows : list (Z * list (option V))
}.

Definition index (df : frame) : list Z := map fst (f_rows df).

(** The offset from UTC, in nanoseconds, of a zone at an instant. *)
Variable tz_offset_ns : string -> Z -> Z.

Definition day_ns : Z := 86400 * 1000000000.

Definition local_ns (tz : string) (t : Z) : Z := t + tz_offset_ns tz t.

(** [index.dayofweek]: Monday is 0; 1970-01-01 was a Thursday. *)
Definition dayofweek (tz : string) (t : Z) : Z :=
  (local_ns tz t / day_ns + 3) mod 7.

(** The time of day as pandas compares it: microseconds since local
    midnight. *)
Definition time_micros (tz : string) (t : Z) : Z :=
  (local_ns tz t mod day_ns) / 1000.

Definition hm_micros (h m : Z) : Z := (h * 3600 + m * 60) * 1000000.

(** [_ensure_tz]: a naive index is taken as UTC; the instants do not
    change, only the zone they are displayed in. *)
Definition _ensure_tz (tz : string) (df : frame) : frame :=
  mkFrame (f_columns df) (Some tz) (f_rows df).

Fixpoint insert_row (r : Z * list (option V)) (rs : list (Z * list (option V)))
  : list (Z * list (option V)) :=
  match rs with
  | [] => [r]
  | r' :: rs' => if fst r <=? fst r' then r :: rs else r' :: insert_row r rs'
  end.

(** [df.sort_index()]: rows of one timestamp stay in the order they
    came in. *)
Definition sort_index (df : frame) : frame :=
  mkFrame (f_columns df) (f_tz df) (fold_right insert_row [] (f_rows df)).

Definition select_rows (p : Z -> bool) (df : frame) : frame :=
  mkFrame (f_columns df) (f_tz df) (List.filter (fun r => p (fst r)) (f_rows df)).

Inductive inclusive : Type := incl_both | incl_left.

(** [df.between_time(start, end, inclusive=...)] with [start <= end]. *)
Definition between_time (tz : string) (start_s end_s : Z) (inc : inclusive)
    (df : frame) : frame :=
  select_rows
    (fun t =>
       let tm := time_micros tz t in
       (start_s <=? tm) &&
       match inc with
       | incl_both => tm <=? end_s
       | incl_left => tm <? end_s
       end) df.

Fixpoint insert_label (x : Z) (l : list Z) : list Z :=
  match l with
  | [] => [x]
  | y :: l' => if x <? y then x :: l else y :: insert_label x l'
  end.

Fixpoint remove_one (x : Z) (l : list Z) : list Z :=
  match l with
  | [] => []
  | y :: l' => if x =? y then l' else y :: remove_one x l'
  end.

(** [a.union(b)]: every label with the larger of its two multiplicities,
    in increasing order. *)
Definition union (a b : list Z) : list Z :=
  fold_right insert_label [] (a ++ fold_right remove_one b a).

Fixpoint find_row (x : Z) (rs : list (Z * list (option V))) : option (list (option V)) :=
  match rs with
  | [] => None
  | r :: rs' => if fst r =? x then Some (snd r) else find_row x rs'
  end.

Fixpoint has_dup (l : list Z) : bool :=
  match l with
  | [] => false
  | x :: l' => existsb (Z.eqb x) l' || has_dup l'
  end.

(** [df.reindex(idx)]: an index equal to [idx] needs no work; otherwise
    the labels of [idx] are looked up, a label that is not found giving a
    row of NaN, and a frame with duplicate labels cannot be reindexed. *)
Definition reindex (df : frame) (idx : list Z) : result frame :=
  if bool_decide (index df = idx) then Ok df
  else if has_dup (index df) then Err ValueError
  else
    Ok (mkFrame (f_columns df) (f_tz df)
          (map (fun x =>
                  (x, match find_row x (f_rows df) with
                      | Some cells => cells
                      | None => repeat None (length (f_columns df))
                      end)) idx)).

(** [df.isna().all(axis=1)] for one row *)
Definition all_nan (cells : list (option V)) : bool :=
  forallb (fun c => match c with None => true | Some _ => false end) cells.

Fixpoint loc_mask (mask : list bool) (rs : list (Z * list (option V)))
  : list (Z * list (option V)) :=
  match mask, rs with
  | true :: mask', r :: rs' => r :: loc_mask mask' rs'
  | false :: mask', _ :: rs' => loc_mask mask' rs'
  | _, _ => []
  end.

Definition clean_to_rth (prices volumes : frame) (tz : string)
    (include_close_bar : bool) : result (frame * frame) :=
  let prices := sort_index (_ensure_tz tz prices) in
  let volumes := sort_index (_ensure_tz tz volumes) in
  (* Weekdays only *)
  let prices := select_rows (fun t => dayofweek tz t <? 5) prices in
  let volumes := select_rows (fun t => dayofweek tz t <? 5) volumes in
  (* Filter by time of day *)
  let start_s := hm_micros 9 30 in
  let end_s := hm_micros 16 0 in
  let inc := if include_close_bar then incl_both else incl_left in
  let prices_rth := between_time tz start_s end_s inc prices in
  let volumes_rth := between_time tz start_s end_s inc volumes in
  (* Align and drop rows where both price & volume are NaN *)
  let idx := union (index prices_rth) (index volumes_rth) in
  let* prices_rth := reindex prices_rth idx in
  let* volumes_rth := reindex volumes_rth idx in
  let mask :=
    map (fun pv => negb (all_nan (snd (fst pv)) && all_nan (snd (snd pv))))
        (combine (f_rows prices_rth) (f_rows volumes_rth)) in
  Ok (mkFrame (f_columns prices_rth) (f_tz prices_rth) (loc_mask mask (f_rows prices_rth)),
      mkFrame (f_columns volumes_rth) (f_tz volumes_rth) (loc_mask mask (f_rows volumes_rth))).

End Frames.

End CleanIntraday.

(** ** The conversion of the raw daily files: [convert_parquets] *)

Module ConvertParquets.

(** What a step of the conversion gives: a value, or the exception that
    ends the run. *)
Inductive outcome (E A : Type) : Type :=
| Done (a : A)
| Raised (e : E).
Arguments Done {E A} a.
Arguments Raised {E A} e.

(** A file name is a Python [str]: a sequence of Unicode code points. *)
Abbreviation text := (list N).

Definition of_ascii (s : string) : text := map N_of_ascii (list_ascii_of_string s).

(** The lines that are printed. *)
Inductive line : Type :=
| skip_unexpected (name : text)
| skip_existing (path : text)
| wrote (path : text).

Section Convert.

(** What [\d] matches in a pattern on a [str]: the code points that the
    Unicode tables of the interpreter class as decimal digits (category
    Nd), the ten ASCII digits and those of the other scripts. *)
Variable is_decimal : N -> bool.

(** [re.match(r"^(\d{8})\.csv\.lz4$", f.name)], and its group 1: eight
    decimal digits, the extension, and then the end of the name or one
    last line feed. *)
Definition match_name (name : text) : option text :=
  let digits := firstn 8 name in
  let rest := skipn 8 name in
  let ext := of_ascii ".csv.lz4" in
  if (length digits =? 8)%nat && forallb is_decimal digits
     && (bool_decide (rest = ext) || bool_decide (rest = ext ++ [10%N]))
  then Some digits
  else None.

(** The exceptions, the frames that [pd.read_csv] gives, the timestamps,
    and what a parquet file holds. *)
Variables E frame timestamp stored : Type.

(** The library calls of the loop body: the frame read from the raw file
    of a name, the timestamp of a text of the layout [%Y%m%d], the
    assignment of a value to a column, and the file that [to_parquet]
    writes for a frame. *)
Record library : Type := mkLibrary {
  read_csv : text -> outcome E frame;
  to_datetime : text -> outcome E timestamp;
  setitem : frame -> string -> timestamp -> frame;
  to_parquet : frame -> outcome E stored
}.

(** The files of [PARQUET_DIR], by name, and the lines printed so far. *)
Record disk : Type := mkDisk {
  parquets : gmap text stored;
  printed : list line
}.

Variable lib : library.

(** What is written for a raw file with the date of its name. *)
Definition converted (name date_str : text) : outcome E stored :=
  match read_csv lib name with
  | Raised e => Raised e
  | Done df =>
      match to_datetime lib date_str with
      | Raised e => Raised e
      | Done d => to_parquet lib (setitem lib df "date" d)
      end
  end.

(** The body of the loop, for one file of the raw directory. *)
Definition convert_one (st : disk) (name : text) : disk * outcome E unit :=
  match match_name name with
  | None => (mkDisk (parquets st) (printed st ++ [skip_unexpected name]), Done tt)
  | Some date_str =>
      let parquet_path := date_str ++ of_ascii ".parquet" in
      match parquets st !! parquet_path with
      | Some _ =>
          (mkDisk (parquets st) (printed st ++ [skip_existing parquet_path]), Done tt)
      | None =>
          match converted name date_str with
          | Raised e => (st, Raised e)
          | Done x =>
              (mkDisk (<[parquet_path := x]> (parquets st))
                      (printed st ++ [wrote parquet_path]), Done tt)
          end
      end
  end.

(** [convert_parquets], on the sorted names of the raw directory that end
    in [.csv.lz4]. *)
Fixpoint convert_parquets (listing : list text) (st : disk) : disk * outcome E unit :=
  match listing with
  | [] => (st, Done tt)
  | f :: listing' =>
      match convert_one st f with
      | (st', Done _) => convert_parquets listing' st'
      | (st', Raised e) => (st', Raised e)
      end
  end.

End Convert.

Arguments read_csv {E frame timestamp stored} _ _.
Arguments to_datetime {E frame timestamp stored} _ _.
Arguments setitem {E frame timestamp stored} _ _ _ _.
Arguments to_parquet {E frame timestamp stored} _ _.
Arguments mkDisk {stored} _ _.
Arguments parquets {stored} _.
Arguments printed {stored} _.
Arguments converted {E frame timestamp stored} _ _ _.
Arguments convert_one _ {E frame timestamp stored} _ _ _.
Arguments convert_parquets _ {E frame timestamp stored} _ _ _.

End ConvertParquets.

(** ** The paths of the processed and raw files: [data_portal/io.py] *)

Module IoPaths.

(** [s.replace(a, b)] for two texts of one character each. *)
Fixpoint replace (a b : ascii) (s : string) : string :=
  match s with
  | EmptyString => EmptyString
  | String c s' => String (if Ascii.eqb c a then b else c) (replace a b s')
  end.

(** The parts of a text between its [/]. *)
Fixpoint split_slash (s : list ascii) : list (list ascii) :=
  match s with
  | [] => [[]]
  | c :: s' =>
      if Ascii.eqb c "/" then [] :: split_slash s'
      else
        match split_slash s' with
        | part :: parts => (c :: part) :: parts
        | [] => [[c]]
        end
  end.

(** The segments that pathlib reads in a text, on a POSIX system: the
    parts between the [/], without the empty ones and the [.] ones. *)
Definition segments (name : string) : list string :=
  List.filter (fun part => negb (String.eqb part "") && negb (String.eqb part "."))
    (map string_of_list_ascii (split_slash (list_ascii_of_string name))).

(** The root of a text that starts with a [/]: two slashes, and two only,
    stay two. *)
Definition root_of (name : string) : option string :=
  match list_ascii_of_string name with
  | "/"%char :: "/"%char :: "/"%char :: _ => Some "/"%string
  | "/"%char :: "/"%char :: _ => Some "//"%string
  | "/"%char :: _ => Some "/"%string
  | _ => None
  end.

(** A path is its root and segments, in order; [dir / name] adds the
    segments of [name] to those of [dir], unless [name] has a root, in
    which case it is the whole path. *)
Definition joinpath (dir : list string) (name : string) : list string :=
  match root_of name with
  | Some root => root :: segments name
  | None => dir ++ segments name
  end.

Section Dirs.

(** The two directories, as paths. *)
Variables PROCESSED_DIR RAW_DIR : list string.

Definition _processed_path (ticker start end_ : string) : list string :=
  let safe_ticker := replace ":" "_" (replace "/" "_" ticker) in
  joinpath PROCESSED_DIR
    (String.append safe_ticker
       (String.append "_" (String.append start
          (String.append "_" (String.append end_ ".parquet"))))).

Definition _raw_path (ticker start end_ kind : string) : list string :=
  let safe_ticker := replace ":" "_" (replace "/" "_" ticker) in
  joinpath RAW_DIR
    (String.append safe_ticker
       (String.append "_" (String.append kind
          (String.append "_" (String.append start
             (String.append "_" (String.append end_ ".parquet"))))))).

(** [read_processed], on the files there are, by path: the frame of the
    file, or [None]. *)
Definition read_processed {frame : Type} (fs : gmap (list string) frame)
    (ticker start end_ : string) : option frame :=
  fs !! _processed_path ticker start end_.

End Dirs.

End IoPaths.

(** ** A small instance of the kernels

    Enough of Arrow's conversions to run the functions above on concrete
    tables: integers written in decimal, day counts and timestamps.  Any
    other value is reported as not convertible. *)

Module Reference.
Import Arrow.

Definition in_int64 (z : Z) : bool := (- 2 ^ 63 <=? z) && (z <? 2 ^ 63).

Fixpoint parse_digits (acc : Z) (s : list ascii) : option Z :=
  match s with
  | [] => Some acc
  | c :: s' =>
      if Strptime.is_digit c then parse_digits (acc * 10 + Strptime.digit_val c) s'
      else None
  end.

Definition parse_int (s : string) : option Z :=
  match list_ascii_of_string s with
  | [] => None
  | c :: s' =>
      if Strptime.ascii_eqb c "-" then
        match s' with
        | [] => None
        | _ => option_map Z.opp (parse_digits 0 s')
        end
      else parse_digits 0 (c :: s')
  end.

Definition castable (a b : dtype) : bool :=
  match a, b with
  | t_null, _ => true
  | t_string, (t_int64 | t_float32 | t_float64) => true
  | t_int64, (t_float32 | t_float64 | t_string) => true
  | t_float32, t_float64 | t_float64, t_float32 => true
  | t_date32, t_timestamp _ _ => true
  | t_timestamp _ _, (t_date32 | t_timestamp _ _) => true
  | _, _ => false
  end.

Definition exact_float (bits : Z) (z : Z) : option scalar :=
  if Z.abs z <=? 2 ^ bits then Some (s_float z 0) else None.

Definition conv (a b : dtype) (v : scalar) : option scalar :=
  match a, b, v with
  | t_string, t_int64, s_str s =>
      match parse_int s with
      | Some z => if in_int64 z then Some (s_int z) else None
      | None => None
      end
  | t_string, t_float32, s_str s =>
      match parse_int s with Some z => exact_float 24 z | None => None end
  | t_string, t_float64, s_str s =>
      match parse_int s with Some z => exact_float 53 z | None => None end
  | t_int64, t_float32, s_int z => exact_float 24 z
  | t_int64, t_float64, s_int z => exact_float 53 z
  | t_int64, t_string, s_int z => Some (s_str (pretty z))
  | t_float32, t_float64, s_float m e => Some (s_float m e)
  | t_date32, t_timestamp u _, s_int d =>
      let t := d * 86400 * Calendar.ticks_per_second u in
      if in_int64 t then Some (s_int t) else None
  | t_timestamp u _, t_date32, s_int t =>
      Some (s_int (t / (86400 * Calendar.ticks_per_second u)))
  | t_timestamp u _, t_timestamp u' _, s_int t =>
      let n := t * Calendar.ticks_per_second u' in
      let d := Calendar.ticks_per_second u in
      if (n mod d =? 0) && in_int64 (n / d) then Some (s_int (n / d)) else None
  | _, _, _ => None
  end.

Definition common (a b : dtype) : option dtype :=
  match a, b with
  | t_null, t | t, t_null => Some t
  | t_int64, t_float32 | t_float32, t_int64 => Some t_float32
  | (t_int64 | t_float32), t_float64 | t_float64, (t_int64 | t_float32) => Some t_float64
  | _, _ => None
  end.

Definition utc (zone : string) (t : Z) : Z := 0.

(** [DEFAULT_SCHEMA] *)
Definition DEFAULT_SCHEMA : list field :=
  [ ("time", t_timestamp u_ns None);
    ("coin", t_string);
    ("funding", t_float32);
    ("open_interest", t_float32);
    ("prev_day_px", t_float32);
    ("day_ntl_vlm", t_float32);
    ("premium", t_float32);
    ("oracle_px", t_float32);
    ("mark_px", t_float32);
    ("mid_px", t_float32);
    ("impact_bid_px", t_float32);
    ("impact_ask_px", t_float32);
    ("date", t_date32) ]%string.

(** A table of the default schema's thirteen columns from its [time],
    [coin] and [date] columns, the ten metrics being null. *)
Definition snapshot (time : list (option Z)) (coin : list (option string))
    (date : list (option Z)) : table :=
  let n := length coin in
  mkTable
    (map (fun f : field =>
            (fst f,
             if String.eqb (fst f) "time" then
               mkColumn (snd f) (map (option_map s_int) time)
             else if String.eqb (fst f) "coin" then
               mkColumn (snd f) (map (option_map s_str) coin)
             else if String.eqb (fst f) "date" then
               mkColumn (snd f) (map (option_map s_int) date)
             else nulls n (snd f)))
         DEFAULT_SCHEMA)
    n.


(** Two inputs of the normalizer: a batch whose schema has drifted (an
    unknown column, a textual [time], most target columns missing), and
    a batch whose textual [funding] holds something that is no number. *)
Definition drifted : table :=
  mkTable
    [ ("junk", mkColumn t_int64 [Some (s_int 1); Some (s_int 2)]);
      ("coin", mkColumn t_string [Some (s_str "BTC"); Some (s_str "ETH")]);
      ("time", mkColumn t_string
                 [Some (s_str "2024-08-01T09:30:00Z"); Some (s_str "not-a-date")]) ]%string
    2.

Definition bad_funding_col : column :=
  mkColumn t_string [Some (s_str "abc"); None; Some (s_str "7")].

Definition bad_funding : table :=
  mkTable [ ("funding"%string, bad_funding_col) ] 3.

(** Inputs of the run.  2024-08-01 09:30:00 is the instant
    1722504600000000000 and the day 19936. *)
Definition t0930 : Z := 1722504600000000000.
Definition d0801 : Z := 19936.

Definition btc_aug : Rebucket.key := ("BTC", "2024-08")%string.
Definition eth_aug : Rebucket.key := ("ETH", "2024-08")%string.
Definition sol_aug : Rebucket.key := ("SOL", "2024-08")%string.

(** [n] rows of BTC on 2024-08-01. *)
Definition rows (n : nat) : table :=
  snapshot (repeat (Some t0930) n) (repeat (Some "BTC"%string) n)
    (repeat (Some d0801) n).

(** One batch with three coins, all dated. *)
Definition three_coins : list table :=
  [ snapshot [Some t0930; Some t0930; Some t0930]
      [Some "BTC"; Some "ETH"; Some "SOL"]%string
      [Some d0801; Some d0801; Some d0801] ].

(** One batch with one row: a coin, a time, and no date. *)
Definition undated : list table :=
  [ snapshot [Some t0930] [Some "BTC"%string] [None] ].

(** A batch with a textual [funding] column of the given values. *)
Definition with_funding (vals : list (option string)) (tbl : table) : table :=
  mkTable
    (map (fun nc : string * column =>
            if String.eqb (fst nc) "funding"
            then (fst nc, mkColumn t_string (map (option_map s_str) vals))
            else nc)
         (columns tbl))
    (num_rows tbl).

(** Two batches of one schema, whose [funding] is textual: the three
    coins, with numbers in it, then a batch in which it is no number and
    cannot be cast. *)
Definition then_bad_batch : list table :=
  map (with_funding [Some "7"; Some "7"; Some "7"]%string) three_coins
  ++ [ with_funding [Some "abc"%string] (rows 1) ].

Definition no_close_fails (w : Rebucket.handle) : bool := false.

(** A writer whose [close()] raises: the first one opened. *)
Definition first_close_fails (w : Rebucket.handle) : bool :=
  (Rebucket.h_id w =? 0)%nat.

(** The function on the default schema, writing under [out], with no
    file there at the start. *)
Definition run (row_group_size max_open_writers : Z) (overwrite : bool)
    (close_fails : Rebucket.handle -> bool) (dataset : list table) :=
  Rebucket.split_asset_ctxs_by_coin_month castable conv common utc
    "out" row_group_size DEFAULT_SCHEMA overwrite max_open_writers
    close_fails ∅ dataset.

(** Inputs of [clean_to_rth]: New York on daylight-saving time is four
    hours behind UTC.  2024-08-01 (a Thursday) 13:30 UTC is 09:30 there,
    20:00 UTC is 16:00, 21:00 UTC is 17:00; 2024-08-03 is a Saturday. *)
Definition edt (zone : string) (t : Z) : Z := - 4 * 3600 * 1000000000.

Definition utc_ns (day h m : Z) : Z := ((day * 24 + h) * 60 + m) * 60 * 1000000000.

Definition prices_frame : CleanIntraday.frame Z :=
  CleanIntraday.mkFrame Z ["AAPL"; "MSFT"]%string None
    [ (utc_ns 19936 20 0, [Some 101; Some 201]);
      (utc_ns 19936 13 30, [Some 100; None]);
      (utc_ns 19936 15 0, [None; None]);
      (utc_ns 19936 21 0, [Some 102; Some 202]);
      (utc_ns 19938 14 0, [Some 103; Some 203]) ].

Definition volumes_frame : CleanIntraday.frame Z :=
  CleanIntraday.mkFrame Z ["AAPL"; "MSFT"]%string None
    [ (utc_ns 19936 13 30, [Some 5000; Some 6000]);
      (utc_ns 19936 15 0, [None; None]);
      (utc_ns 19936 19 59, [Some 7000; None]);
      (utc_ns 19936 20 0, [None; Some 8000]) ].

End Reference.

(** * Properties *)

(** ** Timestamp parsing *)

Module StrptimeFacts.
Import Arrow Normalizer Strptime.

Lemma coalesce_first (cands : list (option Z)) (v : Z) :
  coalesce cands = Some v <->
  exists i, cands !! i = Some (Some v) /\ forall j, (j < i)%nat -> cands !! j = Some None.
Proof.
  induction cands as [|c cands IH]; simpl.
  - split; [discriminate|]. intros (i & Hi & _). destruct i; discriminate.
  - destruct c as [c|].
    + split.
      * intros [= ->]. exists O. split; [reflexivity|]. intros j Hj. lia.
      * intros (i & Hi & Hlt). destruct i as [|i]; simpl in Hi.
        -- congruence.
        -- specialize (Hlt O ltac:(lia)). simpl in Hlt. discriminate.
    + rewrite IH. split.
      * intros (i & Hi & Hlt). exists (S i). split; [exact Hi|].
        intros [|j] Hj; simpl; [reflexivity|]. apply Hlt. lia.
      * intros (i & Hi & Hlt). destruct i as [|i]; simpl in Hi; [discriminate|].
        exists i. split; [exact Hi|]. intros j Hj.
        apply (Hlt (S j)). lia.
Qed.

Lemma coalesce_none (cands : list (option Z)) :
  coalesce cands = None <-> Forall (fun c => c = None) cands.
Proof.
  induction cands as [|[c|] cands IH]; simpl.
  - split; auto.
  - split; [discriminate|]. intros H. inversion H; discriminate.
  - rewrite IH. split; [intros H; constructor; auto|intros H; inversion H; auto].
Qed.

Definition stripped (s : string) : list ascii :=
  strip_offset (strip_Z (list_ascii_of_string s)).

(** C8: the three spellings of 2024-08-01 09:30:00 parse to one and the
    same nanosecond timestamp, that of this civil time, and "not-a-date"
    parses to a null next to them, in the same call; in general the
    result is computed row by row, a trailing Z and a trailing
    [+hh:mm]/[-hh:mm] offset being stripped first, the value of a row is
    that of the first of the four layouts that parses it, and a row that
    no layout parses (or a null) is a null. *)
Theorem parse_timestamp_examples_and_first_match :
  _parse_timestamp_ns_from_str
    (mkColumn t_string
       [ Some (s_str "2024-08-01T09:30:00Z");
         Some (s_str "2024-08-01 09:30:00");
         Some (s_str "2024-08-01T09:30");
         Some (s_str "not-a-date") ])
  = mkColumn ts_ns
      [ Some (s_int 1722504600000000000);
        Some (s_int 1722504600000000000);
        Some (s_int 1722504600000000000);
        None ]
  /\ tm_to_ns (mkTm 2024 8 1 9 30 0) = 1722504600000000000
  /\ stripped "2024-08-01T09:30:00Z" = list_ascii_of_string "2024-08-01T09:30:00"
  /\ stripped "2024-08-01T09:30:00+05:30" = list_ascii_of_string "2024-08-01T09:30:00"
  /\ (forall vals : list (option scalar),
        _parse_timestamp_ns_from_str (mkColumn t_string vals)
        = mkColumn ts_ns
            (map (fun o => match o with
                           | Some (s_str s) => option_map s_int (parse_row s)
                           | _ => None
                           end) vals))
  /\ (forall (s : string) (v : Z),
        parse_row s = Some v <->
        exists (i : nat) (fmt : string),
          layouts !! i = Some fmt /\
          strptime_ns fmt (stripped s) = Some v /\
          forall (j : nat) (fmt' : string),
            (j < i)%nat -> layouts !! j = Some fmt' ->
            strptime_ns fmt' (stripped s) = None)
  /\ (forall s : string,
        parse_row s = None <->
        forall fmt : string, In fmt layouts -> strptime_ns fmt (stripped s) = None).
Proof.
  split; [vm_compute; reflexivity|].
  split; [vm_compute; reflexivity|].
  split; [vm_compute; reflexivity|].
  split; [vm_compute; reflexivity|].
  split; [intros vals; reflexivity|].
  split.
  - intros s v. unfold parse_row. fold (stripped s). rewrite coalesce_first. split.
    + intros (i & Hi & Hlt).
      rewrite list_lookup_fmap in Hi.
      destruct (layouts !! i) as [fmt|] eqn:Hf; simpl in Hi; [|discriminate].
      exists i, fmt. split; [exact Hf|]. split; [congruence|].
      intros j fmt' Hj Hf'. specialize (Hlt j Hj).
      rewrite list_lookup_fmap, Hf' in Hlt. simpl in Hlt. congruence.
    + intros (i & fmt & Hf & Hv & Hlt). exists i. split.
      * rewrite list_lookup_fmap, Hf. simpl. congruence.
      * intros j Hj. rewrite list_lookup_fmap.
        destruct (layouts !! j) as [fmt'|] eqn:Hf'; simpl.
        -- f_equal. eapply Hlt; eauto.
        -- apply lookup_ge_None in Hf'. apply lookup_lt_Some in Hf. lia.
  - intros s. unfold parse_row. fold (stripped s). rewrite coalesce_none.
    rewrite List.Forall_map. rewrite List.Forall_forall. reflexivity.
Qed.

End StrptimeFacts.

(** ** The schema normalizer *)

Module NormalizerFacts.
Import Arrow Normalizer.

Lemma mapM_Forall2 {A B} (f : A -> result B) (l : list A) (l' : list B) :
  mapM f l = Ok l' -> Forall2 (fun a b => f a = Ok b) l l'.
Proof.
  revert l'. induction l as [|a l IH]; simpl; intros l' H.
  - injection H as <-. constructor.
  - destruct (f a) as [b|e] eqn:Hfa; simpl in H; [|discriminate].
    destruct (mapM f l) as [bs|e] eqn:Hl; simpl in H; [|discriminate].
    injection H as <-. constructor; auto.
Qed.

Lemma mapM_Err_in {A B} (f : A -> result B) (l : list A) (a : A) (e : exn) :
  In a l -> f a = Err e -> exists e', mapM f l = Err e'.
Proof.
  induction l as [|x l IH]; simpl; [tauto|].
  intros [->|Hin] Hfa.
  - rewrite Hfa. simpl. eauto.
  - destruct (f x) as [b|e0]; simpl; [|eauto].
    destruct (IH Hin Hfa) as [e' ->]. simpl. eauto.
Qed.

Section WithKernels.

Variable castable : dtype -> dtype -> bool.
Variable conv : dtype -> dtype -> scalar -> option scalar.
Variable common : dtype -> dtype -> option dtype.

Local Abbreviation cast := (Arrow.cast castable conv).
Local Abbreviation if_else := (Arrow.if_else castable conv common).
Local Abbreviation cast_field := (Normalizer.cast_field castable conv common).
Local Abbreviation _cast_to_schema := (Normalizer._cast_to_schema castable conv common).

Lemma cast_elem_valid (src dst : dtype) (o o' : option scalar) :
  cast_elem conv src dst o = Ok o' -> valid_elem o' = valid_elem o.
Proof.
  unfold cast_elem. destruct o as [v|]; [|intros [= <-]; reflexivity].
  destruct (conv src dst v); [intros [= <-]; reflexivity|discriminate].
Qed.

Lemma cast_type (col c : column) (t : dtype) :
  cast col t = Ok c -> ctype c = t.
Proof.
  unfold Arrow.cast. destruct (decide (ctype col = t)) as [Heq|Hne].
  - intros [= <-]. exact Heq.
  - destruct (castable (ctype col) t); [|discriminate].
    destruct (mapM _ _); simpl; [|discriminate]. intros [= <-]. reflexivity.
Qed.

Lemma cast_is_valid (col c : column) (t : dtype) :
  cast col t = Ok c -> is_valid c = is_valid col.
Proof.
  unfold Arrow.cast. destruct (decide (ctype col = t)) as [Heq|Hne].
  - intros [= <-]. reflexivity.
  - destruct (castable (ctype col) t); [|discriminate].
    destruct (mapM _ _) as [vs|] eqn:Hm; simpl; [|discriminate]. intros [= <-].
    unfold is_valid. simpl. apply mapM_Forall2 in Hm.
    induction Hm as [|o o' l l' Ho _ IH]; simpl; [reflexivity|].
    f_equal; [|exact IH]. eapply cast_elem_valid; eauto.
Qed.

Lemma cast_same (col : column) (t : dtype) :
  ctype col = t -> cast col t = Ok col.
Proof.
  intros H. unfold Arrow.cast. destruct (decide (ctype col = t)); [reflexivity|contradiction].
Qed.

Lemma final_cast_type (col c : column) (t : dtype) :
  (if decide (ctype col = t) then Ok col else cast col t) = Ok c -> ctype c = t.
Proof.
  destruct (decide (ctype col = t)) as [Heq|Hne].
  - intros [= <-]. exact Heq.
  - apply cast_type.
Qed.

(** Whatever branch is taken, the array appended for a field has the
    field's type. *)
Lemma cast_field_type (tbl : table) (f : field) (c : column) :
  cast_field tbl f = Ok c -> ctype c = snd f.
Proof.
  unfold Normalizer.cast_field.
  destruct (existsb _ _); [|intros [= <-]; reflexivity].
  destruct (getitem tbl (fst f)) as [col|]; simpl; [|discriminate].
  destruct (is_timestamp (snd f)).
  { destruct (is_string (ctype col)); simpl.
    - apply final_cast_type.
    - destruct (is_tz_aware (ctype col)); simpl; [|apply final_cast_type].
      destruct (cast col ts_ns) as [col1|]; simpl; [|discriminate].
      apply final_cast_type. }
  destruct (is_date (snd f)).
  { destruct (is_string (ctype col)); simpl; [|apply final_cast_type].
    destruct (_parse_date32_from_str castable conv col) as [col1|]; simpl; [|discriminate].
    apply final_cast_type. }
  destruct (decide (ctype col = snd f)) as [Heq|Hne]; [intros [= <-]; exact Heq|].
  destruct (cast col (snd f)) as [c0|] eqn:Hc.
  - intros [= <-]. eapply cast_type; eauto.
  - destruct (if_else _ _ _) as [x|]; simpl; [|discriminate]. apply cast_type.
Qed.

Lemma cast_field_absent (tbl : table) (f : field) :
  ~ In (fst f) (names tbl) -> cast_field tbl f = Ok (nulls (num_rows tbl) (snd f)).
Proof.
  intros Hn. unfold Normalizer.cast_field.
  destruct (existsb _ _) eqn:He; [|reflexivity].
  apply existsb_exists in He. destruct He as (x & Hx & Heq).
  apply String.eqb_eq in Heq. subst x. contradiction.
Qed.

(** Pairing the arrays with the schema leaves them as they are, since
    each one already has its field's type. *)
Lemma sanitize_typed (tbl : table) (schema : list field) (cols : list column)
    (ncs : list (string * column)) :
  Forall2 (fun f c => cast_field tbl f = Ok c) schema cols ->
  sanitize_arrays castable conv cols schema = Ok ncs ->
  Forall2 (fun f nc => fst nc = fst f /\ cast_field tbl f = Ok (snd nc)) schema ncs.
Proof.
  intros H. revert ncs. induction H as [|f c schema cols Hf _ IH]; simpl; intros ncs Hs.
  - injection Hs as <-. constructor.
  - rewrite (cast_same c (snd f) (cast_field_type _ _ _ Hf)) in Hs. simpl in Hs.
    destruct (sanitize_arrays _ _ _ _) as [rest|]; simpl in Hs; [|discriminate].
    injection Hs as <-. constructor; [split; [reflexivity|exact Hf]|]. apply IH. reflexivity.
Qed.

Lemma cast_to_schema_columns (tbl out : table) (schema : list field) :
  _cast_to_schema tbl schema = Ok out ->
  Forall2 (fun f nc => fst nc = fst f /\ cast_field tbl f = Ok (snd nc))
          schema (columns out).
Proof.
  unfold Normalizer._cast_to_schema, from_arrays.
  destruct (mapM _ schema) as [cols|] eqn:Hm; simpl; [|discriminate].
  destruct (sanitize_arrays _ _ _ _) as [ncs|] eqn:Hs; simpl; [|discriminate].
  intros [= <-]. simpl.
  apply mapM_Forall2 in Hm. eapply sanitize_typed; eauto.
Qed.

(** C5: whenever [_cast_to_schema] returns a table, the table's schema
    (column names and types, in order) is the target schema; a target
    column whose name the input does not have is, at its position, the
    all-null column of the target type with as many elements as the
    input has rows; and the output has no column whose name is not in
    the target schema, so the extra columns of the input are dropped. *)
Theorem cast_to_schema_conforms (tbl out : table) (target_schema : list field) :
  _cast_to_schema tbl target_schema = Ok out ->
  schema_of out = target_schema
  /\ (forall (i : nat) (name : string) (t : dtype),
        target_schema !! i = Some (name, t) ->
        ~ In name (names tbl) ->
        columns out !! i = Some (name, nulls (num_rows tbl) t)
        /\ ctype (nulls (num_rows tbl) t) = t
        /\ cvals (nulls (num_rows tbl) t) = repeat None (num_rows tbl)
        /\ length (cvals (nulls (num_rows tbl) t)) = num_rows tbl)
  /\ (forall name : string, In name (names out) -> In name (map fst target_schema)).
Proof.
  intros H. apply cast_to_schema_columns in H.
  split; [|split].
  - unfold schema_of. induction H as [|f nc schema ncs [Hn Hf] _ IH]; simpl; [reflexivity|].
    f_equal; [|exact IH]. apply cast_field_type in Hf. destruct f; simpl in *. congruence.
  - intros i name t Hi Hn.
    destruct (Forall2_lookup_l _ _ _ _ _ H Hi) as (nc & Hnc & Hname & Hf).
    simpl in *. rewrite (cast_field_absent tbl (name, t) Hn) in Hf. injection Hf as Hf.
    split; [|split; [reflexivity|split; [reflexivity|apply repeat_length]]].
    rewrite Hnc. destruct nc as [n c]; simpl in *. congruence.
  - intros name Hin. unfold names in Hin.
    induction H as [|f nc schema ncs [Hn Hf] _ IH]; simpl in *; [tauto|].
    destruct Hin as [<-|Hin]; [left; congruence|right; auto].
Qed.

Lemma getitem_present (tbl : table) (name : string) (col : column) :
  getitem tbl name = Ok col -> existsb (String.eqb name) (names tbl) = true.
Proof.
  unfold getitem, names.
  induction (columns tbl) as [|nc l IH]; simpl; [discriminate|].
  rewrite (String.eqb_sym name (fst nc)).
  destruct (String.eqb (fst nc) name) eqn:He; simpl; [reflexivity|]. exact IH.
Qed.

Lemma select_valid (cond : list bool) (l r : list (option scalar)) :
  map valid_elem l = cond ->
  map valid_elem r = repeat false (length cond) ->
  map valid_elem (select cond l r) = cond.
Proof.
  revert l r. induction cond as [|c cond IH]; intros l r Hl Hr.
  - reflexivity.
  - destruct l as [|x l]; [discriminate|]. destruct r as [|y r]; [discriminate|].
    simpl in *. injection Hl as Hx Hl. injection Hr as Hy Hr.
    f_equal; [|apply IH; assumption].
    destruct c; congruence.
Qed.

Lemma is_valid_nulls (n : nat) (t : dtype) : is_valid (nulls n t) = repeat false n.
Proof. unfold is_valid, nulls. simpl. induction n; simpl; congruence. Qed.

(** The retried value has the validity of the column it came from. *)
Lemma if_else_is_valid (col x : column) (t : dtype) :
  if_else (is_valid col) col (nulls (length (cvals col)) t) = Ok x ->
  is_valid x = is_valid col.
Proof.
  unfold Arrow.if_else.
  destruct (if decide _ then _ else _) as [ct|]; simpl; [|discriminate].
  destruct (cast col ct) as [l'|] eqn:Hl; simpl; [|discriminate].
  destruct (cast (nulls _ t) ct) as [r'|] eqn:Hr; simpl; [|discriminate].
  intros [= <-]. unfold is_valid at 1. simpl.
  apply cast_is_valid in Hl. apply cast_is_valid in Hr.
  apply select_valid; [exact Hl|].
  unfold is_valid in Hr at 1. rewrite Hr, is_valid_nulls.
  unfold is_valid. rewrite length_map. reflexivity.
Qed.

(** C7, as the code has it: for a target column that is neither a
    timestamp nor a date and whose direct cast fails, the cast is tried
    once more on [if_else(is_valid(col), col, nulls)].  When the second
    attempt succeeds the column has the target type and the validity of
    the input: the nulls are still null and every element that was valid
    has been cast to a valid value, none has become null.  When it fails
    too, the failure is that of the field, and with it of
    [_cast_to_schema] on any schema that has the field. *)
Theorem guarded_cast_retries_once (tbl : table) (name : string) (ftype : dtype)
    (col : column) (e : exn) :
  is_timestamp ftype = false ->
  is_date ftype = false ->
  getitem tbl name = Ok col ->
  ctype col <> ftype ->
  cast col ftype = Err e ->
  cast_field tbl (name, ftype)
  = (let* x := if_else (is_valid col) col (nulls (length (cvals col)) ftype) in
     cast x ftype)
  /\ match cast_field tbl (name, ftype) with
     | Ok c => ctype c = ftype /\ is_valid c = is_valid col
     | Err _ =>
         forall schema : list field,
           In (name, ftype) schema -> exists e' : exn, _cast_to_schema tbl schema = Err e'
     end.
Proof.
  intros Hts Hd Hget Hne Hcast.
  assert (Heq : cast_field tbl (name, ftype)
                = (let* x := if_else (is_valid col) col (nulls (length (cvals col)) ftype) in
                   cast x ftype)).
  { unfold Normalizer.cast_field. simpl.
    rewrite (getitem_present _ _ _ Hget), Hget. simpl. rewrite Hts, Hd.
    destruct (decide (ctype col = ftype)); [contradiction|].
    rewrite Hcast. reflexivity. }
  split; [exact Heq|].
  destruct (cast_field tbl (name, ftype)) as [c|e0] eqn:Hf.
  - split; [apply (cast_field_type _ _ _ Hf)|].
    symmetry in Heq.
    destruct (if_else _ _ _) as [x|] eqn:Hx; simpl in Heq; [|discriminate].
    rewrite (cast_is_valid _ _ _ Heq). eapply if_else_is_valid; eauto.
  - intros schema Hin. unfold Normalizer._cast_to_schema.
    destruct (mapM_Err_in (cast_field tbl) schema _ _ Hin Hf) as [e' He'].
    rewrite He'. simpl. eauto.
Qed.

End WithKernels.

End NormalizerFacts.

Module NormalizerExamples.
Import Arrow Normalizer NormalizerFacts.

Lemma cast_to_schema_conforms_witness :
  exists out : table,
    _cast_to_schema Reference.castable Reference.conv Reference.common
      Reference.drifted Reference.DEFAULT_SCHEMA = Ok out
    /\ schema_of out = Reference.DEFAULT_SCHEMA
    /\ num_rows out = 2%nat.
Proof.
  eexists. split; [vm_compute; reflexivity|].
  split; [|reflexivity].
  refine (proj1 (cast_to_schema_conforms Reference.castable Reference.conv
                   Reference.common Reference.drifted _ Reference.DEFAULT_SCHEMA _)).
  vm_compute. reflexivity.
Defined.

(** The claim of C7 as the specification words it, refuted: the textual
    column ["abc", null, "7"] cannot be cast to float32 directly, its
    first element being valid and no number; the claim has that element
    become a null of the output, yet [_cast_to_schema] returns no table
    at all, the retry failing as well. *)
Lemma guarded_cast_aborts_on_incompatible_element :
  Arrow.cast Reference.castable Reference.conv Reference.bad_funding_col t_float32
    = Err ArrowInvalid
  /\ Reference.conv t_string t_float32 (s_str "abc") = None
  /\ Reference.conv t_string t_float32 (s_str "7") = Some (s_float 7 0)
  /\ ~ (exists out : table,
          _cast_to_schema Reference.castable Reference.conv Reference.common
            Reference.bad_funding [("funding"%string, t_float32)] = Ok out).
Proof.
  split; [vm_compute; reflexivity|].
  split; [vm_compute; reflexivity|].
  split; [vm_compute; reflexivity|].
  intros [out H]. vm_compute in H. discriminate.
Qed.

Lemma guarded_cast_retries_once_witness :
  match Normalizer.cast_field Reference.castable Reference.conv Reference.common
          Reference.bad_funding ("funding"%string, t_float32) with
  | Ok c => ctype c = t_float32 /\ is_valid c = is_valid Reference.bad_funding_col
  | Err _ =>
      forall schema : list field,
        In ("funding"%string, t_float32) schema ->
        exists e' : exn,
          _cast_to_schema Reference.castable Reference.conv Reference.common
            Reference.bad_funding schema = Err e'
  end.
Proof.
  refine (proj2 (guarded_cast_retries_once Reference.castable Reference.conv
                   Reference.common Reference.bad_funding "funding" t_float32
                   Reference.bad_funding_col ArrowInvalid _ _ _ _ _)).
  - reflexivity.
  - reflexivity.
  - reflexivity.
  - discriminate.
  - vm_compute. reflexivity.
Defined.

End NormalizerExamples.

(** ** The writer pool and the run *)

Module RebucketFacts.
Import Arrow Normalizer Rebucket.

(** *** State-passing computations *)

(** [P] is kept by a computation, whether it returns or raises. *)
Definition preserves {A} (P : state -> Prop) (m : M A) : Prop :=
  forall st, P st -> P (fst (m st)).

Lemma preserves_ret {A} (P : state -> Prop) (a : A) : preserves P (ret a).
Proof. intros st H. exact H. Qed.

Lemma preserves_raise {A} (P : state -> Prop) (e : exn) : preserves P (@raise A e).
Proof. intros st H. exact H. Qed.

Lemma preserves_lift {A} (P : state -> Prop) (r : result A) : preserves P (lift r).
Proof. intros st H. exact H. Qed.

Lemma preserves_get {A} (P : state -> Prop) (proj : state -> A) : preserves P (get proj).
Proof. intros st H. exact H. Qed.

Lemma preserves_bind {A B} (P : state -> Prop) (m : M A) (k : A -> M B) :
  preserves P m -> (forall a, preserves P (k a)) -> preserves P (mbind m k).
Proof.
  intros Hm Hk st H. unfold mbind. specialize (Hm st H).
  destruct (m st) as [st' [a|e]]; simpl in *; [apply Hk; exact Hm|exact Hm].
Qed.

Lemma preserves_forM {A} (P : state -> Prop) (f : A -> M unit) (l : list A) :
  (forall a, preserves P (f a)) -> preserves P (forM_ f l).
Proof.
  intros Hf. induction l as [|a l IH]; simpl.
  - apply preserves_ret.
  - apply preserves_bind; [apply Hf|intros _; exact IH].
Qed.

Lemma forM_app {A} (f : A -> M unit) (l1 l2 : list A) (st : state) :
  forM_ f (l1 ++ l2) st = (do _ <- forM_ f l1; forM_ f l2) st.
Proof.
  revert st. induction l1 as [|a l1 IH]; intros st; simpl.
  - reflexivity.
  - unfold mbind. destruct (f a st) as [st1 [[]|e]]; [|reflexivity].
    rewrite IH. reflexivity.
Qed.

(** *** Association-list facts *)

Lemma key_eqb_eq (a b : key) : key_eqb a b = true <-> a = b.
Proof. unfold key_eqb. apply bool_decide_eq_true. Qed.

Lemma key_eqb_refl (a : key) : key_eqb a a = true.
Proof. apply key_eqb_eq. reflexivity. Qed.

Lemma key_eqb_neq (a b : key) : key_eqb a b = false <-> a <> b.
Proof. unfold key_eqb. apply bool_decide_eq_false. Qed.

Lemma od_get_None (k : key) (ws : list (key * handle)) :
  od_get k ws = None <-> ~ In k (map fst ws).
Proof.
  induction ws as [|[k' w] ws IH]; simpl.
  - tauto.
  - destruct (key_eqb k' k) eqn:He.
    + apply key_eqb_eq in He. split; [discriminate|]. intros H. exfalso. apply H. left. exact He.
    + apply key_eqb_neq in He. rewrite IH. tauto.
Qed.

Lemma od_get_In (k : key) (w : handle) (ws : list (key * handle)) :
  od_get k ws = Some w -> In (k, w) ws.
Proof.
  induction ws as [|[k' w'] ws IH]; simpl; [discriminate|].
  destruct (key_eqb k' k) eqn:He.
  - apply key_eqb_eq in He. intros [= ->]. left. congruence.
  - intros H. right. auto.
Qed.

Lemma od_set_absent (k : key) (w : handle) (ws : list (key * handle)) :
  od_get k ws = None -> od_set k w ws = ws ++ [(k, w)].
Proof.
  induction ws as [|[k' w'] ws IH]; simpl; [reflexivity|].
  destruct (key_eqb k' k); [discriminate|]. intros H. rewrite IH; auto.
Qed.

Lemma od_remove_keys (k : key) (ws : list (key * handle)) :
  map fst (od_remove k ws)
  = List.filter (fun k' => negb (key_eqb k' k)) (map fst ws).
Proof.
  unfold od_remove. induction ws as [|[k' w'] ws IH]; simpl; [reflexivity|].
  destruct (key_eqb k' k); simpl; congruence.
Qed.

Lemma od_remove_absent (k : key) (ws : list (key * handle)) :
  ~ In k (map fst ws) -> od_remove k ws = ws.
Proof.
  unfold od_remove. induction ws as [|[k' w'] ws IH]; simpl; [reflexivity|].
  intros H. destruct (key_eqb k' k) eqn:He.
  - apply key_eqb_eq in He. tauto.
  - simpl. f_equal. apply IH. tauto.
Qed.

Lemma move_to_end_perm (k : key) (w : handle) (ws : list (key * handle)) :
  NoDup (map fst ws) -> od_get k ws = Some w -> Permutation (move_to_end k ws) ws.
Proof.
  unfold move_to_end. intros Hnd Hget. rewrite Hget.
  revert Hnd Hget. induction ws as [|[k' w'] ws IH]; simpl; [discriminate|].
  intros Hnd Hget. apply NoDup_cons_iff in Hnd. destruct Hnd as [Hnin Hnd].
  unfold od_remove. simpl. fold (od_remove k ws).
  destruct (key_eqb k' k) eqn:He; simpl.
  - apply key_eqb_eq in He. subst k'. injection Hget as ->.
    rewrite od_remove_absent by exact Hnin.
    symmetry. apply Permutation_cons_append.
  - apply perm_skip. apply IH; assumption.
Qed.

(** *** What one call of [_writer_for] does *)

Section Pool.

Variable out_dir : string.
Variable overwrite : bool.
Variable max_open_writers : Z.
Variable close_fails : handle -> bool.

#[local] Set Default Proof Using "Type".

(** Every lemma of the section is stated with the parameters it is
    about; the others are dropped from the context first. *)
Ltac no_run_vars :=
  try clear close_fails; try clear max_open_writers; try clear overwrite;
  try clear out_dir.

Local Abbreviation _writer_for :=
  (Rebucket._writer_for out_dir overwrite max_open_writers close_fails).
Local Abbreviation out_path := (Rebucket.out_path out_dir).

Definition coin_dir (coin : string) : string :=
  String.append out_dir (String.append "/" coin).

(** The overwrite policy on a miss: is the old file removed? *)
Definition unlinks (st : state) (coin m : string) : bool :=
  overwrite && bool_decide (is_Some (files st !! out_path coin m)).

(** The events of a miss that come before the eviction, and the files
    they leave. *)
Definition prelude (st : state) (coin m : string) : list event :=
  (if unlinks st coin m then [EvUnlink (out_path coin m)] else [])
  ++ [EvMkdir (coin_dir coin)].

Definition files_cleared (st : state) (coin m : string) : gmap string (list table) :=
  if unlinks st coin m then delete (out_path coin m) (files st) else files st.

Definition new_writer (st : state) (coin m : string) : handle :=
  mkHandle (next_id st) (out_path coin m).

Definition at_capacity (st : state) : bool :=
  Z.of_nat (length (writers st)) >=? max_open_writers.

Lemma writer_for_hit (st : state) (coin m : string) (w : handle) :
  od_get (coin, m) (writers st) = Some w ->
  _writer_for coin m st
  = (mkState (move_to_end (coin, m) (writers st)) (counts st) (files st)
       (next_id st) (log st), Ok w).
Proof.
  no_run_vars.
  intros H. unfold Rebucket._writer_for, mbind, get. simpl. rewrite H. reflexivity.
Qed.

Lemma writer_for_admit (st : state) (coin m : string) :
  od_get (coin, m) (writers st) = None ->
  at_capacity st = false ->
  _writer_for coin m st
  = (mkState (writers st ++ [((coin, m), new_writer st coin m)]) (counts st)
       (<[out_path coin m := []]> (files_cleared st coin m))
       (S (next_id st))
       (EvOpen (new_writer st coin m) :: prelude st coin m ++ log st),
     Ok (new_writer st coin m)).
Proof.
  no_run_vars.
  intros H Hcap. unfold at_capacity in Hcap.
  unfold Rebucket._writer_for, mbind, get. simpl. rewrite H. simpl.
  unfold prelude, files_cleared, unlinks, new_writer, coin_dir.
  destruct (overwrite && bool_decide _); simpl; rewrite Hcap; simpl;
    rewrite (od_set_absent _ _ _ H); reflexivity.
Qed.

Lemma writer_for_evict (st : state) (coin m : string) (k0 : key) (w0 : handle)
    (ws' : list (key * handle)) :
  od_get (coin, m) (writers st) = None ->
  at_capacity st = true ->
  writers st = (k0, w0) :: ws' ->
  _writer_for coin m st
  = (mkState (ws' ++ [((coin, m), new_writer st coin m)]) (counts st)
       (<[out_path coin m := []]> (files_cleared st coin m))
       (S (next_id st))
       (EvOpen (new_writer st coin m) :: EvClose w0 (close_fails w0)
          :: prelude st coin m ++ log st),
     Ok (new_writer st coin m)).
Proof.
  no_run_vars.
  intros H Hcap Hws. unfold at_capacity in Hcap.
  assert (H' : od_get (coin, m) ws' = None).
  { rewrite Hws in H. simpl in H. destruct (key_eqb k0 (coin, m)); [discriminate|exact H]. }
  unfold Rebucket._writer_for, mbind, get. simpl. rewrite H. simpl.
  unfold prelude, files_cleared, unlinks, new_writer, coin_dir.
  destruct (overwrite && bool_decide _); simpl; rewrite Hcap; rewrite Hws; simpl;
    rewrite (od_set_absent _ _ _ H'); reflexivity.
Qed.

Lemma writer_for_empty_full (st : state) (coin m : string) :
  writers st = [] ->
  at_capacity st = true ->
  _writer_for coin m st
  = (mkState [] (counts st) (files_cleared st coin m) (next_id st)
       (prelude st coin m ++ log st),
     Err KeyError).
Proof.
  no_run_vars.
  intros Hws Hcap. unfold at_capacity in Hcap.
  unfold Rebucket._writer_for, mbind, get. simpl. rewrite Hws in *. simpl in *.
  unfold prelude, files_cleared, unlinks, coin_dir.
  destruct (overwrite && bool_decide _); simpl; rewrite Hcap; unfold raise; simpl;
    rewrite Hws; reflexivity.
Qed.

Lemma writer_for_cases (st : state) (coin m : string) :
  (exists w, od_get (coin, m) (writers st) = Some w)
  \/ (od_get (coin, m) (writers st) = None /\ at_capacity st = false)
  \/ (od_get (coin, m) (writers st) = None /\ at_capacity st = true
      /\ exists k0 w0 ws', writers st = (k0, w0) :: ws')
  \/ (writers st = [] /\ at_capacity st = true).
Proof.
  no_run_vars.
  destruct (od_get (coin, m) (writers st)) as [w|] eqn:Hg; [left; eauto|right].
  destruct (at_capacity st) eqn:Hc; [right|left; auto].
  destruct (writers st) as [|[k0 w0] ws'] eqn:Hws; [right; auto|left].
  repeat split; eauto.
Qed.

(** *** The invariant of the pool *)

(** An event that opens or closes nothing. *)
Definition quiet (e : event) : Prop :=
  match e with
  | EvOpen _ | EvClose _ _ => False
  | _ => True
  end.

Definition bounded (l : list event) : Prop :=
  Z.of_nat (length (open_handles l)) <= max_open_writers.

(** The pool and the log agree: the keys of the pool are distinct, its
    writers are distinct and are the writers the log has open, and every
    writer ever opened has an identifier below [next_id]. *)
Record pool_wf (st : state) : Prop := mkPoolWf {
  wf_keys : List.NoDup (map fst (writers st));
  wf_handles : List.NoDup (map snd (writers st));
  wf_open : forall h, In h (open_handles (log st)) <-> In h (map snd (writers st));
  wf_open_nodup : List.NoDup (open_handles (log st));
  wf_fresh : forall h, In (EvOpen h) (log st) -> (h_id h < next_id st)%nat
}.

(** The pool is within its bound, and so was the set of open writers
    after every event so far. *)
Definition pool_inv (st : state) : Prop :=
  pool_wf st
  /\ Z.of_nat (length (writers st)) <= max_open_writers
  /\ always bounded (log st).

Lemma open_handles_quiet (pre l : list event) :
  Forall quiet pre -> open_handles (pre ++ l) = open_handles l.
Proof.
  no_run_vars.
  induction 1 as [|e pre He _ IH]; simpl; [reflexivity|].
  destruct e; simpl in He; try contradiction; exact IH.
Qed.

Lemma always_head (P : list event -> Prop) (l : list event) : always P l -> P l.
Proof. no_run_vars. destruct l; simpl; tauto. Qed.

Lemma always_quiet (pre l : list event) :
  Forall quiet pre -> always bounded l -> always bounded (pre ++ l).
Proof.
  no_run_vars.
  induction 1 as [|e pre He Hq IH]; simpl; [tauto|].
  intros Hl. split; [|apply IH; exact Hl].
  unfold bounded. change (e :: pre ++ l) with ((e :: pre) ++ l).
  rewrite open_handles_quiet by (constructor; assumption).
  apply always_head in Hl. exact Hl.
Qed.

Lemma In_open_quiet (pre l : list event) (h : handle) :
  Forall quiet pre -> In (EvOpen h) (pre ++ l) -> In (EvOpen h) l.
Proof.
  no_run_vars.
  induction 1 as [|e pre He _ IH]; simpl; [tauto|].
  intros [->|Hin]; [contradiction|auto].
Qed.

Lemma prelude_quiet (st : state) (coin m : string) : Forall quiet (prelude st coin m).
Proof.
  no_run_vars.
  unfold prelude. destruct (unlinks st coin m); repeat constructor.
Qed.

Lemma open_handles_logged (l : list event) (h : handle) :
  In h (open_handles l) -> In (EvOpen h) l.
Proof.
  no_run_vars.
  induction l as [|e l IH]; simpl; [tauto|].
  destruct e; simpl; try (intros H; right; auto; fail).
  - intros [->|H]; [left; reflexivity|right; auto].
  - intros H. apply List.filter_In in H. right. apply IH. tauto.
Qed.

Lemma pool_wf_length (st : state) :
  pool_wf st -> length (open_handles (log st)) = length (writers st).
Proof.
  no_run_vars.
  intros I. rewrite <- (length_map snd (writers st)).
  apply Permutation_length. apply Permutation.NoDup_Permutation.
  - apply (wf_open_nodup _ I).
  - apply (wf_handles _ I).
  - apply (wf_open _ I).
Qed.

Lemma pool_wf_id (st : state) (h : handle) :
  pool_wf st -> In h (map snd (writers st)) -> (h_id h < next_id st)%nat.
Proof.
  no_run_vars.
  intros I Hin. apply (wf_fresh _ I). apply open_handles_logged.
  apply (wf_open _ I). exact Hin.
Qed.

(** Both invariants only look at the pool, the identifiers and the log. *)
Lemma pool_wf_quiet (st st' : state) (pre : list event) :
  Forall quiet pre ->
  writers st' = writers st -> next_id st' = next_id st -> log st' = pre ++ log st ->
  pool_wf st -> pool_wf st'.
Proof.
  no_run_vars.
  intros Hq Hw Hn Hl [I1 I2 I3 I4 I5].
  constructor; rewrite ?Hw, ?Hn, ?Hl, ?(open_handles_quiet _ _ Hq); try assumption.
  intros h Hin. apply I5. eapply In_open_quiet; eauto.
Qed.

Lemma pool_inv_quiet (st st' : state) (pre : list event) :
  Forall quiet pre ->
  writers st' = writers st -> next_id st' = next_id st -> log st' = pre ++ log st ->
  pool_inv st -> pool_inv st'.
Proof.
  no_run_vars.
  intros Hq Hw Hn Hl (I & Hsz & Hal).
  split; [eapply pool_wf_quiet; eauto|].
  rewrite Hw, Hl. split; [exact Hsz|apply always_quiet; assumption].
Qed.

Lemma NoDup_snoc {A} (l : list A) (x : A) :
  List.NoDup l -> ~ In x l -> List.NoDup (l ++ [x]).
Proof.
  no_run_vars.
  intros Hl Hx. apply (Permutation.Permutation_NoDup (l := x :: l)).
  - apply Permutation_cons_append.
  - constructor; assumption.
Qed.

(** Opening a writer for a new key. *)
Lemma pool_wf_open (st : state) (k : key) (w : handle)
    (cs : gmap key nat) (fs : gmap string (list table)) :
  pool_wf st ->
  ~ In k (map fst (writers st)) ->
  h_id w = next_id st ->
  pool_wf (mkState (writers st ++ [(k, w)]) cs fs (S (next_id st)) (EvOpen w :: log st)).
Proof.
  no_run_vars.
  intros I Hk Hid.
  assert (Hw : ~ In w (map snd (writers st))).
  { intros Hin. apply (pool_wf_id _ _ I) in Hin. lia. }
  destruct I as [I1 I2 I3 I4 I5].
  constructor; simpl.
  - rewrite map_app. simpl. apply NoDup_snoc; assumption.
  - rewrite map_app. simpl. apply NoDup_snoc; assumption.
  - intros h. rewrite map_app, in_app_iff. simpl. rewrite I3. tauto.
  - constructor; [|assumption]. rewrite I3. exact Hw.
  - intros h [Heq|Hin]; [injection Heq as <-; lia|]. apply I5 in Hin. lia.
Qed.

Lemma pool_inv_open (st : state) (k : key) (w : handle)
    (cs : gmap key nat) (fs : gmap string (list table)) :
  pool_inv st ->
  Z.of_nat (length (writers st)) < max_open_writers ->
  ~ In k (map fst (writers st)) ->
  h_id w = next_id st ->
  pool_inv (mkState (writers st ++ [(k, w)]) cs fs (S (next_id st)) (EvOpen w :: log st)).
Proof.
  no_run_vars.
  intros (I & Hsz & Hal) Hlt Hk Hid.
  split; [apply pool_wf_open; assumption|]. simpl.
  split; [rewrite length_app; simpl; lia|].
  split; [|exact Hal]. unfold bounded. simpl.
  rewrite (pool_wf_length _ I). lia.
Qed.

(** Evicting the entry at the front of the pool. *)
Lemma pool_wf_close (st : state) (k0 : key) (w0 : handle) (ws' : list (key * handle))
    (b : bool) (cs : gmap key nat) (fs : gmap string (list table)) :
  pool_wf st ->
  writers st = (k0, w0) :: ws' ->
  pool_wf (mkState ws' cs fs (next_id st) (EvClose w0 b :: log st)).
Proof.
  no_run_vars.
  intros I Hws.
  destruct I as [I1 I2 I3 I4 I5]. rewrite Hws in *. simpl in *.
  apply NoDup_cons_iff in I1. destruct I1 as [_ I1].
  apply NoDup_cons_iff in I2. destruct I2 as [Hw0 I2].
  constructor; simpl; try assumption.
  - intros h. rewrite List.filter_In, I3, negb_true_iff, bool_decide_eq_false.
    split; [intros [[->|H] Hne]; [contradiction|exact H]|].
    intros H. split; [right; exact H|]. intros ->. contradiction.
  - apply List.NoDup_filter. exact I4.
  - intros h Hin. destruct Hin as [Heq|Hin]; [discriminate|auto].
Qed.

Lemma bounded_close (w : handle) (b : bool) (l : list event) :
  always bounded l -> always bounded (EvClose w b :: l).
Proof.
  no_run_vars.
  intros Hl. simpl. split; [|exact Hl].
  apply always_head in Hl. unfold bounded in *. simpl.
  pose proof (List.filter_length_le
                (fun h => negb (bool_decide (h = w))) (open_handles l)).
  lia.
Qed.

Lemma pool_inv_close (st : state) (k0 : key) (w0 : handle) (ws' : list (key * handle))
    (b : bool) (cs : gmap key nat) (fs : gmap string (list table)) :
  pool_inv st ->
  writers st = (k0, w0) :: ws' ->
  pool_inv (mkState ws' cs fs (next_id st) (EvClose w0 b :: log st)).
Proof.
  no_run_vars.
  intros (I & Hsz & Hal) Hws.
  split; [eapply pool_wf_close; eauto|]. simpl.
  split; [rewrite Hws in Hsz; simpl in Hsz; lia|].
  apply bounded_close. exact Hal.
Qed.

(** One call of [_writer_for] keeps both invariants, on all its paths. *)
Lemma writer_for_pool_wf (coin m : string) : preserves pool_wf (_writer_for coin m).
Proof.
  no_run_vars.
  intros st I.
  destruct (writer_for_cases st coin m)
    as [[w Hg]|[[Hg Hc]|[(Hg & Hc & k0 & w0 & ws' & Hws)|[Hws Hc]]]].
  - rewrite (writer_for_hit _ _ _ _ Hg). simpl.
    pose proof (move_to_end_perm _ _ _ (wf_keys _ I) Hg) as Hp.
    destruct I as [I1 I2 I3 I4 I5].
    constructor; simpl; try assumption.
    + eapply Permutation.Permutation_NoDup; [|exact I1].
      apply Permutation_map. symmetry. exact Hp.
    + eapply Permutation.Permutation_NoDup; [|exact I2].
      apply Permutation_map. symmetry. exact Hp.
    + intros h. rewrite I3. split; apply Permutation_in; apply Permutation_map;
        [symmetry|]; exact Hp.
  - rewrite (writer_for_admit _ _ _ Hg Hc). simpl.
    set (st1 := mkState (writers st) (counts st) (files st) (next_id st)
                  (prelude st coin m ++ log st)).
    assert (I1 : pool_wf st1).
    { apply (pool_wf_quiet st st1 (prelude st coin m)); auto using prelude_quiet. }
    apply (pool_wf_open st1 (coin, m) (new_writer st coin m)); auto.
    apply od_get_None. exact Hg.
  - rewrite (writer_for_evict _ _ _ _ _ _ Hg Hc Hws). simpl.
    set (st1 := mkState (writers st) (counts st) (files st) (next_id st)
                  (prelude st coin m ++ log st)).
    assert (I1 : pool_wf st1).
    { apply (pool_wf_quiet st st1 (prelude st coin m)); auto using prelude_quiet. }
    set (st2 := mkState ws' (counts st) (files st) (next_id st)
                  (EvClose w0 (close_fails w0) :: prelude st coin m ++ log st)).
    assert (I2 : pool_wf st2).
    { apply (pool_wf_close st1 k0 w0 ws'); auto. }
    apply (pool_wf_open st2 (coin, m) (new_writer st coin m)); auto.
    simpl. apply od_get_None in Hg. rewrite Hws in Hg. simpl in Hg. tauto.
  - rewrite (writer_for_empty_full _ _ _ Hws Hc). simpl.
    eapply (pool_wf_quiet st _ (prelude st coin m)); eauto using prelude_quiet.
Qed.

Lemma writer_for_pool_inv (coin m : string) : preserves pool_inv (_writer_for coin m).
Proof.
  no_run_vars.
  intros st I.
  destruct (writer_for_cases st coin m)
    as [[w Hg]|[[Hg Hc]|[(Hg & Hc & k0 & w0 & ws' & Hws)|[Hws Hc]]]].
  - split; [apply writer_for_pool_wf; apply I|].
    destruct I as (I & Hsz & Hal).
    rewrite (writer_for_hit _ _ _ _ Hg). simpl.
    pose proof (move_to_end_perm _ _ _ (wf_keys _ I) Hg) as Hp.
    rewrite (Permutation_length Hp). auto.
  - rewrite (writer_for_admit _ _ _ Hg Hc). simpl.
    set (st1 := mkState (writers st) (counts st) (files st) (next_id st)
                  (prelude st coin m ++ log st)).
    assert (I1 : pool_inv st1).
    { apply (pool_inv_quiet st st1 (prelude st coin m)); auto using prelude_quiet. }
    apply (pool_inv_open st1 (coin, m) (new_writer st coin m)); auto.
    + unfold at_capacity in Hc. simpl. rewrite Z.geb_leb in Hc. apply Z.leb_gt in Hc. lia.
    + apply od_get_None. exact Hg.
  - rewrite (writer_for_evict _ _ _ _ _ _ Hg Hc Hws). simpl.
    set (st1 := mkState (writers st) (counts st) (files st) (next_id st)
                  (prelude st coin m ++ log st)).
    assert (I1 : pool_inv st1).
    { apply (pool_inv_quiet st st1 (prelude st coin m)); auto using prelude_quiet. }
    set (st2 := mkState ws' (counts st) (files st) (next_id st)
                  (EvClose w0 (close_fails w0) :: prelude st coin m ++ log st)).
    assert (I2 : pool_inv st2).
    { apply (pool_inv_close st1 k0 w0 ws'); auto. }
    apply (pool_inv_open st2 (coin, m) (new_writer st coin m)); auto.
    + simpl. destruct I as (_ & Hsz & _). rewrite Hws in Hsz. simpl in Hsz. lia.
    + simpl. apply od_get_None in Hg. rewrite Hws in Hg. simpl in Hg. tauto.
  - rewrite (writer_for_empty_full _ _ _ Hws Hc). simpl.
    eapply (pool_inv_quiet st _ (prelude st coin m)); eauto using prelude_quiet.
Qed.

(** *** The loops of the run keep what [_writer_for] and the writes keep *)

Variable castable : dtype -> dtype -> bool.
Variable conv : dtype -> dtype -> scalar -> option scalar.
Variable common : dtype -> dtype -> option dtype.
Variable tz_offset : string -> Z -> Z.
Variable row_group_size : Z.
Variable target_schema : list field.

Ltac no_run_vars ::=
  try clear target_schema; try clear row_group_size; try clear tz_offset;
  try clear common; try clear conv; try clear castable;
  try clear close_fails; try clear max_open_writers; try clear overwrite;
  try clear out_dir.

Local Abbreviation write_row_groups := (Rebucket.write_row_groups row_group_size).
Local Abbreviation write_sub_batch :=
  (Rebucket.write_sub_batch out_dir row_group_size overwrite max_open_writers close_fails).
Local Abbreviation per_month :=
  (Rebucket.per_month out_dir row_group_size overwrite max_open_writers close_fails).
Local Abbreviation per_coin :=
  (Rebucket.per_coin castable conv tz_offset out_dir row_group_size overwrite
     max_open_writers close_fails).
Local Abbreviation per_batch :=
  (Rebucket.per_batch castable conv common tz_offset out_dir row_group_size
     target_schema overwrite max_open_writers close_fails).
Local Abbreviation close_all := (Rebucket.close_all close_fails).
Local Abbreviation split_asset_ctxs_by_coin_month :=
  (Rebucket.split_asset_ctxs_by_coin_month castable conv common tz_offset out_dir
     row_group_size target_schema overwrite max_open_writers close_fails).

Section Loops.

Variable P : state -> Prop.
Hypothesis P_writer_for : forall coin m, preserves P (_writer_for coin m).
Hypothesis P_write_table : forall w t, preserves P (write_table w t).
Hypothesis P_set_counts : forall cs, preserves P (set_counts cs).

Lemma write_row_groups_preserves (w : handle) (t : table) :
  preserves P (write_row_groups w t).
Proof using Type + P_write_table.
  no_run_vars.
  unfold Rebucket.write_row_groups. destruct (_ >? _).
  - apply preserves_bind; [apply preserves_lift|intros starts].
    apply preserves_forM. intros start. apply P_write_table.
  - apply P_write_table.
Qed.

Lemma write_sub_batch_preserves (coin m : string) (t : table) :
  preserves P (write_sub_batch coin m t).
Proof using Type P_writer_for P_write_table P_set_counts.
  no_run_vars.
  unfold Rebucket.write_sub_batch.
  apply preserves_bind; [apply P_writer_for|intros w].
  apply preserves_bind; [apply write_row_groups_preserves|intros _].
  apply preserves_bind; [apply preserves_get|intros cs].
  apply P_set_counts.
Qed.

Lemma per_month_preserves (coin : option scalar) (c_tbl : table) (months : column)
    (m : option scalar) :
  preserves P (per_month coin c_tbl months m).
Proof using Type P_writer_for P_write_table P_set_counts.
  no_run_vars.
  unfold Rebucket.per_month. destruct (_ =? _)%nat; [apply preserves_ret|].
  destruct coin as [[]|]; try apply preserves_raise.
  destruct m as [[]|]; try apply preserves_raise.
  apply write_sub_batch_preserves.
Qed.

Lemma per_coin_preserves (tbl : table) (coin_col : column) (coin : option scalar) :
  preserves P (per_coin tbl coin_col coin).
Proof using Type P_writer_for P_write_table P_set_counts.
  no_run_vars.
  unfold Rebucket.per_coin. destruct (_ =? _)%nat; [apply preserves_ret|].
  apply preserves_bind; [apply preserves_lift|intros date].
  apply preserves_bind.
  { destruct (_ && _); [apply preserves_lift|apply preserves_ret]. }
  intros base_date.
  apply preserves_bind; [apply preserves_lift|intros months].
  apply preserves_forM. intros m. apply per_month_preserves.
Qed.

Lemma per_batch_preserves (raw : table) : preserves P (per_batch raw).
Proof using Type P_writer_for P_write_table P_set_counts.
  no_run_vars.
  unfold Rebucket.per_batch.
  apply preserves_bind; [apply preserves_lift|intros rec_batch].
  apply preserves_bind; [apply preserves_lift|intros tbl].
  destruct (_ =? _)%nat; [apply preserves_ret|].
  apply preserves_bind; [apply preserves_lift|intros coin_col].
  apply preserves_forM. intros coin. apply per_coin_preserves.
Qed.

Lemma try_block_preserves (dataset : list table) :
  preserves P (forM_ per_batch dataset).
Proof using Type P_writer_for P_write_table P_set_counts.
  apply preserves_forM. apply per_batch_preserves.
Qed.

End Loops.

Lemma write_table_quiet (Q : state -> Prop) (w : handle) (t : table) :
  (forall st st' pre, Forall quiet pre -> writers st' = writers st ->
                      next_id st' = next_id st -> log st' = pre ++ log st ->
                      Q st -> Q st') ->
  preserves Q (write_table w t).
Proof.
  no_run_vars.
  intros HQ st H. unfold write_table, mbind, get, set_files, emit. simpl.
  apply (HQ st _ [EvWrite w (num_rows t)]); auto. repeat constructor.
Qed.

Lemma set_counts_quiet (Q : state -> Prop) (cs : gmap key nat) :
  (forall st st' pre, Forall quiet pre -> writers st' = writers st ->
                      next_id st' = next_id st -> log st' = pre ++ log st ->
                      Q st -> Q st') ->
  preserves Q (set_counts cs).
Proof.
  no_run_vars.
  intros HQ st H. unfold set_counts. simpl.
  apply (HQ st _ []); auto.
Qed.

Lemma try_block_pool_wf (dataset : list table) :
  preserves pool_wf (forM_ per_batch dataset).
Proof.
  no_run_vars.
  apply try_block_preserves.
  - apply writer_for_pool_wf.
  - intros w t. apply write_table_quiet. apply pool_wf_quiet.
  - intros cs. apply set_counts_quiet. apply pool_wf_quiet.
Qed.

Lemma try_block_pool_inv (dataset : list table) :
  preserves pool_inv (forM_ per_batch dataset).
Proof.
  no_run_vars.
  apply try_block_preserves.
  - apply writer_for_pool_inv.
  - intros w t. apply write_table_quiet. apply pool_inv_quiet.
  - intros cs. apply set_counts_quiet. apply pool_inv_quiet.
Qed.

Lemma init_pool_wf (fs : gmap string (list table)) : pool_wf (init fs).
Proof. no_run_vars. constructor; simpl; try constructor; tauto. Qed.

Lemma init_pool_inv (fs : gmap string (list table)) :
  0 <= max_open_writers -> pool_inv (init fs).
Proof.
  no_run_vars.
  intros HN. split; [apply init_pool_wf|]. simpl. split; [exact HN|].
  split; [exact HN|exact I].
Qed.

(** *** The [finally] clause *)

Definition close_event (kw : key * handle) : event :=
  EvClose (snd kw) (close_fails (snd kw)).

Lemma close_all_run (st : state) :
  close_all st
  = (mkState (writers st) (counts st) (files st) (next_id st)
       (rev (map close_event (writers st)) ++ log st), Ok tt).
Proof.
  no_run_vars.
  unfold Rebucket.close_all, mbind, get. simpl.
  assert (H : forall (ws ws0 : list (key * handle)) cs fs n l,
             forM_ (fun kw => try_close close_fails (snd kw)) ws (mkState ws0 cs fs n l)
             = (mkState ws0 cs fs n (rev (map close_event ws) ++ l), Ok tt)).
  { induction ws as [|kw ws IH]; intros ws0 cs fs n l; simpl; [reflexivity|].
    unfold mbind, try_close, emit. simpl. rewrite IH.
    rewrite <- app_assoc. reflexivity. }
  destruct st as [ws cs fs n l]. simpl. apply H.
Qed.

Lemma open_after_closes (ws : list (key * handle)) (l : list event) (h : handle) :
  In h (open_handles (rev (map close_event ws) ++ l))
  <-> In h (open_handles l) /\ ~ In h (map snd ws).
Proof.
  no_run_vars.
  revert l. induction ws as [|kw ws IH]; intros l; simpl; [tauto|].
  rewrite <- app_assoc. simpl. rewrite IH. simpl.
  rewrite List.filter_In, negb_true_iff, bool_decide_eq_false.
  split.
  - intros [[H1 H2] H3]. split; [exact H1|]. intros [Heq|Hin]; [congruence|contradiction].
  - intros [H1 H2]. split; [split; [exact H1|]|]; intros H; apply H2; auto.
Qed.

Lemma always_closes (ws : list (key * handle)) (l : list event) :
  always bounded l -> always bounded (rev (map close_event ws) ++ l).
Proof.
  no_run_vars.
  revert l. induction ws as [|kw ws IH]; intros l Hl; simpl; [exact Hl|].
  rewrite <- app_assoc. apply IH. apply bounded_close. exact Hl.
Qed.

Lemma split_run (fs : gmap string (list table)) (dataset : list table) :
  let body := forM_ per_batch dataset (init fs) in
  split_asset_ctxs_by_coin_month fs dataset
  = (mkState (writers (fst body)) (counts (fst body)) (files (fst body))
       (next_id (fst body))
       (rev (map close_event (writers (fst body))) ++ log (fst body)),
     match snd body with
     | Ok _ => Ok (counts (fst body))
     | Err e => Err e
     end).
Proof.
  no_run_vars.
  unfold Rebucket.split_asset_ctxs_by_coin_month. simpl.
  destruct (forM_ per_batch dataset (init fs)) as [st1 r]. simpl.
  rewrite close_all_run. reflexivity.
Qed.

(** C2, as the code has it.  With [max_open_writers = N >= 0], after
    every event of a run of [split_asset_ctxs_by_coin_month] (the
    [finally] clause included) at most [N] writers are open.  With
    [N >= 1], a call of [_writer_for] for a key that is not in the pool,
    made when the pool holds [N] entries or more, returns a new writer
    after these events and no other: the directory is made, the old file
    is removed if the overwrite policy asks for it, the writer at the
    front of the pool, and only that one, gets its [close()] and leaves
    the pool, and then the new writer is opened and put at the end. *)
Theorem pool_bound_and_single_eviction :
  0 <= max_open_writers ->
  (forall (fs : gmap string (list table)) (dataset : list table),
      always bounded (log (fst (split_asset_ctxs_by_coin_month fs dataset))))
  /\ (1 <= max_open_writers ->
      forall (st : state) (coin m : string),
        od_get (coin, m) (writers st) = None ->
        at_capacity st = true ->
        exists (k0 : key) (w0 : handle) (ws' : list (key * handle)),
          writers st = (k0, w0) :: ws'
          /\ _writer_for coin m st
             = (mkState (ws' ++ [((coin, m), new_writer st coin m)]) (counts st)
                  (<[out_path coin m := []]> (files_cleared st coin m))
                  (S (next_id st))
                  (EvOpen (new_writer st coin m) :: EvClose w0 (close_fails w0)
                     :: prelude st coin m ++ log st),
                Ok (new_writer st coin m))
          /\ Forall quiet (prelude st coin m)).
Proof.
  no_run_vars.
  intros HN. split.
  - intros fs dataset. rewrite split_run. simpl.
    apply always_closes.
    apply (try_block_pool_inv dataset (init fs)). apply init_pool_inv. exact HN.
  - intros HN1 st coin m Hg Hc.
    destruct (writers st) as [|[k0 w0] ws'] eqn:Hws.
    + unfold at_capacity in Hc. rewrite Hws in Hc. simpl in Hc.
      rewrite Z.geb_leb in Hc. apply Z.leb_le in Hc. lia.
    + exists k0, w0, ws'. split; [reflexivity|]. split; [|apply prelude_quiet].
      rewrite <- Hws in Hg. apply (writer_for_evict _ _ _ _ _ _ Hg Hc Hws).
Qed.

(** C6: whatever the [try] block does, return or raise (a failed cast
    of a batch, a failed eviction, a zero row-group size), the [finally]
    clause then makes one [close()] attempt on every writer the pool
    holds at that point, in the order of the pool and whether or not the
    earlier attempts failed; after it no writer opened by the run is
    open any more; only then does the call return the counts, or let the
    exception of the [try] block through. *)
Theorem close_all_on_every_exit (fs : gmap string (list table)) (dataset : list table) :
  let body := forM_ per_batch dataset (init fs) in
  let final := split_asset_ctxs_by_coin_month fs dataset in
  log (fst final)
  = rev (map (fun kw => EvClose (snd kw) (close_fails (snd kw))) (writers (fst body)))
    ++ log (fst body)
  /\ (forall (k : key) (w : handle),
        In (k, w) (writers (fst body)) ->
        In (EvClose w (close_fails w)) (log (fst final)))
  /\ (forall h : handle,
        In h (open_handles (log (fst body))) -> In (EvClose h (close_fails h)) (log (fst final)))
  /\ open_handles (log (fst final)) = []
  /\ snd final = match snd body with
                 | Ok _ => Ok (counts (fst body))
                 | Err e => Err e
                 end.
Proof.
  no_run_vars.
  intros body final. subst final. rewrite split_run. fold body. simpl.
  pose proof (try_block_pool_wf dataset (init fs) (init_pool_wf fs)) as I.
  fold body in I.
  assert (Hin : forall k w, In (k, w) (writers (fst body)) ->
                  In (EvClose w (close_fails w))
                     (rev (map close_event (writers (fst body))) ++ log (fst body))).
  { intros k w H. apply in_or_app. left. rewrite <- in_rev.
    apply (in_map close_event) in H. exact H. }
  split; [reflexivity|]. split; [exact Hin|]. split; [|split; [|reflexivity]].
  - intros h Hh. apply (wf_open _ I) in Hh. apply in_map_iff in Hh.
    destruct Hh as ([k w] & <- & Hkw). eapply Hin; eauto.
  - destruct (open_handles _) as [|h l] eqn:Ho; [reflexivity|exfalso].
    assert (Hh : In h (open_handles (rev (map close_event (writers (fst body)))
                                      ++ log (fst body)))).
    { rewrite Ho. left. reflexivity. }
    apply open_after_closes in Hh. destruct Hh as [H1 H2].
    apply H2. apply (wf_open _ I). exact H1.
Qed.

(** *** The order of the pool is the order of the last accesses *)


Lemma last_use_from_snoc_eq (i : nat) (ks : list key) (k : key) :
  last_use_from i (ks ++ [k]) k = Some (i + length ks)%nat.
Proof.
  no_run_vars.
  revert i. induction ks as [|k' ks IH]; intros i; simpl.
  - rewrite key_eqb_refl. f_equal. lia.
  - rewrite IH. f_equal. lia.
Qed.

Lemma last_use_from_snoc_ne (i : nat) (ks : list key) (k k' : key) :
  k' <> k -> last_use_from i (ks ++ [k]) k' = last_use_from i ks k'.
Proof.
  no_run_vars.
  intros Hne. revert i. induction ks as [|k0 ks IH]; intros i; simpl.
  - apply not_eq_sym in Hne. apply key_eqb_neq in Hne. rewrite Hne. reflexivity.
  - rewrite IH. reflexivity.
Qed.

Lemma last_use_from_bound (i : nat) (ks : list key) (k : key) (j : nat) :
  last_use_from i ks k = Some j -> (i <= j < i + length ks)%nat.
Proof.
  no_run_vars.
  revert i. induction ks as [|k0 ks IH]; intros i; simpl; [discriminate|].
  destruct (last_use_from (S i) ks k) as [j'|] eqn:Hj.
  - intros [= <-]. apply IH in Hj. lia.
  - destruct (key_eqb k0 k); [intros [= <-]; lia|discriminate].
Qed.

Definition lru_sorted (ks : list key) (pool : list key) : Prop :=
  StronglySorted (used_before ks) pool
  /\ Forall (fun k => is_Some (last_use ks k)) pool.

Lemma lru_sorted_filter (ks pool : list key) (f : key -> bool) :
  lru_sorted ks pool -> lru_sorted ks (List.filter f pool).
Proof.
  no_run_vars.
  intros [Hs Hf]. split.
  - induction Hs as [|a l Hs IH Ha]; simpl; [constructor|].
    apply List.Forall_cons_iff in Hf. destruct Hf as [_ Hf].
    destruct (f a); [|apply IH; exact Hf].
    constructor; [apply IH; exact Hf|].
    apply List.Forall_forall. intros x Hx. apply List.filter_In in Hx.
    rewrite List.Forall_forall in Ha. apply Ha. apply Hx.
  - apply List.Forall_forall. intros x Hx. apply List.filter_In in Hx.
    rewrite List.Forall_forall in Hf. apply Hf. apply Hx.
Qed.

Lemma lru_sorted_tl (ks pool : list key) : lru_sorted ks pool -> lru_sorted ks (tl pool).
Proof.
  no_run_vars.
  intros [Hs Hf]. destruct pool as [|a l]; simpl; [split; assumption|].
  apply StronglySorted_inv in Hs. apply List.Forall_cons_iff in Hf. split; tauto.
Qed.

Lemma lru_sorted_snoc (ks l : list key) (k : key) :
  lru_sorted ks l -> ~ In k l -> lru_sorted (ks ++ [k]) (l ++ [k]).
Proof.
  no_run_vars.
  intros [Hs Hf] Hk.
  assert (Hne : forall a, In a l -> a <> k) by (intros a Ha ->; contradiction).
  assert (Hlast : forall a, In a l -> used_before (ks ++ [k]) a k).
  { intros a Ha. rewrite List.Forall_forall in Hf. destruct (Hf a Ha) as [i Hi].
    exists i, (length ks). unfold last_use in *.
    rewrite (last_use_from_snoc_ne _ _ _ _ (Hne a Ha)), last_use_from_snoc_eq.
    apply last_use_from_bound in Hi as Hb. repeat split; auto. lia. }
  split.
  - clear Hf. induction Hs as [|a l Hs IH Ha]; simpl.
    + constructor; constructor.
    + constructor.
      * apply IH.
        -- intros H. apply Hk. right. exact H.
        -- intros a0 H0. apply Hne. right. exact H0.
        -- intros a0 H0. apply Hlast. right. exact H0.
      * apply Forall_app. split.
        -- apply List.Forall_forall. intros x Hx. rewrite List.Forall_forall in Ha.
           destruct (Ha x Hx) as (i & j & Hi & Hj & Hij).
           exists i, j. unfold last_use in *.
           rewrite !last_use_from_snoc_ne by (apply Hne; simpl; auto). auto.
        -- constructor; [|constructor]. apply Hlast. left. reflexivity.
  - apply Forall_app. split.
    + apply List.Forall_forall. intros a Ha. rewrite List.Forall_forall in Hf.
      unfold last_use in *. rewrite last_use_from_snoc_ne by (apply Hne; exact Ha).
      apply Hf. exact Ha.
    + constructor; [|constructor]. unfold last_use. rewrite last_use_from_snoc_eq. eauto.
Qed.

Lemma filter_absent (k : key) (l : list key) :
  ~ In k l -> List.filter (fun k' => negb (key_eqb k' k)) l = l.
Proof.
  no_run_vars.
  induction l as [|a l IH]; simpl; [reflexivity|]. intros H.
  destruct (key_eqb a k) eqn:He.
  - apply key_eqb_eq in He. tauto.
  - simpl. f_equal. apply IH. tauto.
Qed.

(** What a successful call leaves in the pool: the key asked for at the
    end, and before it the other keys in their old order, without the
    first of them if there was an eviction. *)
Lemma writer_for_keys (st st' : state) (coin m : string) (w : handle) :
  _writer_for coin m st = (st', Ok w) ->
  exists l : list (key * handle),
    writers st' = l ++ [((coin, m), w)]
    /\ (map fst l = List.filter (fun k' => negb (key_eqb k' (coin, m))) (map fst (writers st))
        \/ map fst l
           = tl (List.filter (fun k' => negb (key_eqb k' (coin, m))) (map fst (writers st)))).
Proof.
  no_run_vars.
  intros H.
  destruct (writer_for_cases st coin m)
    as [[w' Hg]|[[Hg Hc]|[(Hg & Hc & k0 & w0 & ws' & Hws)|[Hws Hc]]]].
  - rewrite (writer_for_hit _ _ _ _ Hg) in H. injection H as <- <-.
    exists (od_remove (coin, m) (writers st)). simpl. unfold move_to_end. rewrite Hg.
    split; [reflexivity|]. left. apply od_remove_keys.
  - rewrite (writer_for_admit _ _ _ Hg Hc) in H. injection H as <- <-.
    exists (writers st). simpl. split; [reflexivity|]. left.
    symmetry. apply filter_absent. apply od_get_None. exact Hg.
  - rewrite (writer_for_evict _ _ _ _ _ _ Hg Hc Hws) in H. injection H as <- <-.
    exists ws'. simpl. split; [reflexivity|]. right.
    apply od_get_None in Hg. rewrite filter_absent by exact Hg.
    rewrite Hws. reflexivity.
  - rewrite (writer_for_empty_full _ _ _ Hws Hc) in H. discriminate.
Qed.

Local Abbreviation accesses :=
  (Rebucket.accesses out_dir overwrite max_open_writers close_fails).

Lemma accesses_snoc (ks : list key) (k : key) (st0 st : state) :
  accesses (ks ++ [k]) st0 = (st, Ok tt) ->
  exists (st1 : state) (w : handle),
    accesses ks st0 = (st1, Ok tt) /\ _writer_for (fst k) (snd k) st1 = (st, Ok w).
Proof.
  no_run_vars.
  unfold Rebucket.accesses. rewrite forM_app. unfold mbind at 1.
  match goal with
  | |- context [forM_ ?f ks st0] => destruct (forM_ f ks st0) as [st1 [[]|e]]
  end; [|discriminate].
  simpl. unfold mbind, ret.
  destruct (_writer_for (fst k) (snd k) st1) as [st2 [w|e]] eqn:Hw; [|discriminate].
  intros [= <-]. exists st1, w. split; [reflexivity|exact Hw].
Qed.

Lemma accesses_lru_sorted (fs : gmap string (list table)) (ks : list key) (st : state) :
  accesses ks (init fs) = (st, Ok tt) -> lru_sorted ks (map fst (writers st)).
Proof.
  no_run_vars.
  revert st. induction ks as [|k ks IH] using rev_ind; intros st H.
  - injection H as <-. split; constructor.
  - apply accesses_snoc in H. destruct H as (st1 & w & H1 & H2).
    specialize (IH _ H1). destruct k as [coin m]. simpl in H2.
    destruct (writer_for_keys _ _ _ _ _ H2) as (l & Hl & Hkeys).
    rewrite Hl, map_app. simpl.
    assert (Hs : lru_sorted ks (map fst l)).
    { destruct Hkeys as [-> | ->];
        [|apply lru_sorted_tl]; apply lru_sorted_filter; exact IH. }
    apply lru_sorted_snoc; [exact Hs|].
    assert (Hnin : ~ In (coin, m)
                     (List.filter (fun k' => negb (key_eqb k' (coin, m)))
                        (map fst (writers st1)))).
    { intros Hin. apply List.filter_In in Hin. destruct Hin as [_ Hin].
      rewrite key_eqb_refl in Hin. discriminate. }
    destruct Hkeys as [-> | ->]; [exact Hnin|].
    intros Hin. apply Hnin.
    destruct (List.filter _ _); simpl in *; [contradiction|right; exact Hin].
Qed.

(** C3: after any sequence [ks] of accesses to the pool that went
    through, (1) one more access, if it returns, leaves its key at the
    most-recently-used end of the pool, its last use being later than
    that of every other key in the pool; and (2) when that access
    overflows the pool (the key is not in it, the pool is at its bound
    and holds an entry), it does return, the one entry that leaves the
    pool and gets its [close()] is the first one, and the key of that
    entry is the least recently accessed of the pool: it has been
    accessed, and every other key of the pool has been accessed again
    after the last access to it. *)
Theorem lru_eviction_correct (fs : gmap string (list table)) (ks : list key)
    (st : state) (coin m : string) :
  accesses ks (init fs) = (st, Ok tt) ->
  (forall (st' : state) (w : handle),
      _writer_for coin m st = (st', Ok w) ->
      (exists l, writers st' = l ++ [((coin, m), w)])
      /\ last_use (ks ++ [(coin, m)]) (coin, m) = Some (length ks)
      /\ (forall k', In k' (map fst (writers st')) -> k' <> (coin, m) ->
                     used_before (ks ++ [(coin, m)]) k' (coin, m)))
  /\ (forall (k0 : key) (w0 : handle) (ws' : list (key * handle)),
        writers st = (k0, w0) :: ws' ->
        od_get (coin, m) (writers st) = None ->
        at_capacity st = true ->
        (exists (st' : state) (w : handle),
            _writer_for coin m st = (st', Ok w)
            /\ writers st' = ws' ++ [((coin, m), w)]
            /\ log st' = EvOpen w :: EvClose w0 (close_fails w0)
                           :: prelude st coin m ++ log st)
        /\ is_Some (last_use ks k0)
        /\ (forall k', In k' (map fst ws') -> used_before ks k0 k')
        /\ ~ In k0 (map fst ws')).
Proof.
  no_run_vars.
  intros Hrun. pose proof (accesses_lru_sorted _ _ _ Hrun) as [Hs Hf].
  split.
  - intros st' w Hw. destruct (writer_for_keys _ _ _ _ _ Hw) as (l & Hl & Hkeys).
    split; [eauto|].
    split; [unfold last_use; rewrite last_use_from_snoc_eq; reflexivity|].
    intros k' Hin Hne. rewrite Hl, map_app, in_app_iff in Hin. simpl in Hin.
    destruct Hin as [Hin|[<-|[]]]; [|contradiction].
    assert (Hold : In k' (map fst (writers st))).
    { destruct Hkeys as [Hk|Hk]; rewrite Hk in Hin.
      - apply List.filter_In in Hin. tauto.
      - destruct (List.filter _ _) as [|a l'] eqn:Hfl; simpl in Hin; [contradiction|].
        assert (H' : In k' (a :: l')) by (right; exact Hin).
        rewrite <- Hfl in H'. apply List.filter_In in H'. tauto. }
    rewrite List.Forall_forall in Hf. destruct (Hf k' Hold) as [i Hi].
    exists i, (length ks). unfold last_use in *.
    rewrite (last_use_from_snoc_ne _ _ _ _ Hne), last_use_from_snoc_eq.
    apply last_use_from_bound in Hi as Hb. repeat split; auto. lia.
  - intros k0 w0 ws' Hws Hg Hc. rewrite Hws in Hs, Hf. simpl in Hs, Hf.
    apply StronglySorted_inv in Hs. destruct Hs as [_ Hall].
    apply List.Forall_cons_iff in Hf. destruct Hf as [Hk0 _].
    rewrite List.Forall_forall in Hall.
    split; [|split; [exact Hk0|split; [exact Hall|]]].
    + eexists _, _. split; [apply (writer_for_evict _ _ _ _ _ _ Hg Hc Hws)|].
      split; reflexivity.
    + intros Hin. destruct (Hall _ Hin) as (i & j & Hi & Hj & Hij).
      rewrite Hi in Hj. injection Hj as ->. lia.
Qed.

(** *** Files across a run of sub-batches *)

Local Abbreviation sub_batches :=
  (Rebucket.sub_batches out_dir row_group_size overwrite max_open_writers close_fails).

(** [st] comes from [st0] by writes only: same pool, and no file lost. *)
Definition tame (st0 st : state) : Prop :=
  writers st = writers st0
  /\ forall p : string, is_Some (files st0 !! p) -> is_Some (files st !! p).

Lemma write_table_tame (st0 : state) (w : handle) (t : table) :
  preserves (tame st0) (write_table w t).
Proof.
  no_run_vars.
  intros st [Hw Hf]. cbv [write_table mbind get set_files emit fst files writers tame].
  split; [exact Hw|]. intros p Hp. apply Hf in Hp.
  destruct (decide (h_path w = p)) as [<-|Hne].
  - rewrite lookup_insert_eq. eauto.
  - rewrite lookup_insert_ne by exact Hne. exact Hp.
Qed.

Lemma write_sub_batch_ok (coin m : string) (t : table) (st st' : state) :
  write_sub_batch coin m t st = (st', Ok tt) ->
  exists (st1 : state) (w : handle),
    _writer_for coin m st = (st1, Ok w) /\ tame st1 st'.
Proof.
  no_run_vars.
  unfold Rebucket.write_sub_batch. unfold mbind at 1.
  destruct (_writer_for coin m st) as [st1 [w|e]] eqn:Hw; [|discriminate].
  unfold mbind at 1.
  destruct (write_row_groups w t st1) as [st2 [[]|e]] eqn:Hr; [|discriminate].
  unfold mbind, get, set_counts. simpl. intros [= <-].
  exists st1, w. split; [reflexivity|].
  assert (Ht : tame st1 st2).
  { change st2 with (fst (st2, @Ok unit tt)). rewrite <- Hr.
    apply (write_row_groups_preserves (tame st1) (write_table_tame st1)).
    split; auto. }
  destruct Ht as [H1 H2]. split; simpl; assumption.
Qed.

Lemma files_cleared_other (st : state) (coin m p : string) :
  p <> out_path coin m -> files_cleared st coin m !! p = files st !! p.
Proof.
  no_run_vars.
  intros Hne. unfold files_cleared. destruct (unlinks st coin m); [|reflexivity].
  apply lookup_delete_ne. auto.
Qed.

Lemma writer_for_files (coin m : string) (st st1 : state) (w : handle) :
  _writer_for coin m st = (st1, Ok w) ->
  (forall p : string, is_Some (files st !! p) -> is_Some (files st1 !! p))
  /\ (od_get (coin, m) (writers st) = None -> files st1 !! out_path coin m = Some []).
Proof.
  no_run_vars.
  intros H.
  assert (Hmiss : forall fs0 : gmap string (list table),
             (forall p, p <> out_path coin m -> fs0 !! p = files st !! p) ->
             (forall p, is_Some (files st !! p) ->
                        is_Some (<[out_path coin m := []]> fs0 !! p))).
  { intros fs0 Hfs p Hp. destruct (decide (out_path coin m = p)) as [<-|Hne].
    - rewrite lookup_insert_eq. eauto.
    - rewrite lookup_insert_ne by exact Hne. rewrite Hfs by auto. exact Hp. }
  destruct (writer_for_cases st coin m)
    as [[w' Hg]|[[Hg Hc]|[(Hg & Hc & k0 & w0 & ws' & Hws)|[Hws Hc]]]].
  - rewrite (writer_for_hit _ _ _ _ Hg) in H. injection H as <- <-. simpl.
    split; [auto|]. rewrite Hg. discriminate.
  - rewrite (writer_for_admit _ _ _ Hg Hc) in H. injection H as <- <-. simpl.
    split; [|intros _; apply lookup_insert_eq].
    apply Hmiss. intros p Hp. apply files_cleared_other. exact Hp.
  - rewrite (writer_for_evict _ _ _ _ _ _ Hg Hc Hws) in H. injection H as <- <-. simpl.
    split; [|intros _; apply lookup_insert_eq].
    apply Hmiss. intros p Hp. apply files_cleared_other. exact Hp.
  - rewrite (writer_for_empty_full _ _ _ Hws Hc) in H. discriminate.
Qed.

(** After a run of sub-batches that went through: the keys of the pool
    are keys of the run, every key of the run has its file, and the pool
    is not empty unless the run is. *)
Definition seen_inv (subs : list (key * table)) (st : state) : Prop :=
  (forall k, In k (map fst (writers st)) -> In k (map fst subs))
  /\ (forall k, In k (map fst subs) -> is_Some (files st !! out_path (fst k) (snd k)))
  /\ (subs <> [] -> writers st <> []).

Lemma sub_batches_snoc (subs : list (key * table)) (s : key * table) (st0 st : state) :
  sub_batches (subs ++ [s]) st0 = (st, Ok tt) ->
  exists st1 : state,
    sub_batches subs st0 = (st1, Ok tt)
    /\ write_sub_batch (fst (fst s)) (snd (fst s)) (snd s) st1 = (st, Ok tt).
Proof.
  no_run_vars.
  unfold Rebucket.sub_batches. rewrite forM_app. unfold mbind at 1.
  match goal with
  | |- context [forM_ ?f subs st0] => destruct (forM_ f subs st0) as [st1 [[]|e]]
  end; [|discriminate].
  simpl. unfold mbind at 1.
  destruct (write_sub_batch _ _ _ st1) as [st2 [[]|e]] eqn:Hw; [|discriminate].
  intros [= <-]. exists st1. split; [reflexivity|exact Hw].
Qed.

Lemma sub_batches_seen (fs : gmap string (list table)) (subs : list (key * table))
    (st : state) :
  sub_batches subs (init fs) = (st, Ok tt) -> seen_inv subs st.
Proof.
  no_run_vars.
  revert st. induction subs as [|s subs IH] using rev_ind; intros st H.
  - injection H as <-. repeat split; simpl; tauto.
  - apply sub_batches_snoc in H. destruct H as (st0 & H0 & Hs).
    destruct (IH _ H0) as (I1 & I2 & I3). clear IH H0.
    destruct s as [[coin m] t]. simpl in Hs.
    apply write_sub_batch_ok in Hs. destruct Hs as (st1 & w & Hw & Hw1 & Hf1).
    destruct (writer_for_keys _ _ _ _ _ Hw) as (l & Hl & Hkeys).
    destruct (writer_for_files _ _ _ _ _ Hw) as [Hmono Hnew].
    assert (Hsub : forall k, In k (map fst l) -> In k (map fst (writers st0))).
    { intros k Hin. destruct Hkeys as [Hk|Hk]; rewrite Hk in Hin.
      - apply List.filter_In in Hin. tauto.
      - destruct (List.filter _ _) as [|a l'] eqn:Hfl; simpl in Hin; [contradiction|].
        assert (H' : In k (a :: l')) by (right; exact Hin).
        rewrite <- Hfl in H'. apply List.filter_In in H'. tauto. }
    split; [|split].
    + intros k. rewrite Hw1, Hl, !map_app, !in_app_iff. simpl.
      intros [Hin|Hin]; [left; auto|right; exact Hin].
    + intros k. rewrite map_app, in_app_iff. simpl. intros [Hin|[<-|[]]].
      * apply Hf1, Hmono, I2. exact Hin.
      * simpl. apply Hf1.
        destruct (od_get (coin, m) (writers st0)) as [w'|] eqn:Hg.
        -- apply Hmono. apply (I2 (coin, m)). apply I1.
           apply od_get_In in Hg. apply (in_map fst) in Hg. exact Hg.
        -- rewrite Hnew by reflexivity. eauto.
    + intros _. rewrite Hw1, Hl. destruct l; discriminate.
Qed.

Lemma sub_batches_pool_wf (subs : list (key * table)) :
  preserves pool_wf (sub_batches subs).
Proof.
  no_run_vars.
  apply preserves_forM. intros s. apply write_sub_batch_preserves.
  - apply writer_for_pool_wf.
  - intros w t. apply write_table_quiet. apply pool_wf_quiet.
  - intros cs. apply set_counts_quiet. apply pool_wf_quiet.
Qed.

(** C4: in a run whose sub-batches so far went through, a key that had
    a sub-batch earlier and is no longer in the pool (it was evicted) is
    served like a key never seen: [_writer_for] returns a writer object
    that is none of those opened so far, bound to the same path; the file
    written there earlier exists at that moment, and the new writer
    starts from an empty file, so that the next table written is the
    file's first.  With [overwrite] set the old file is unlinked first
    (without it the file is emptied by the opening alone).  The new
    entry goes to the most-recently-used end of the pool, after at most
    one eviction. *)
Theorem evicted_key_reopened_as_new (fs : gmap string (list table))
    (subs : list (key * table)) (st : state) (coin m : string) (t : table) :
  sub_batches subs (init fs) = (st, Ok tt) ->
  In ((coin, m), t) subs ->
  od_get (coin, m) (writers st) = None ->
  let w := new_writer st coin m in
  exists (st' : state) (evicted : list event) (rest : list (key * handle)),
    _writer_for coin m st = (st', Ok w)
    /\ h_path w = out_path coin m
    /\ (forall h, In (EvOpen h) (log st) -> h <> w)
    /\ writers st' = rest ++ [((coin, m), w)]
    /\ is_Some (files st !! out_path coin m)
    /\ files st' !! out_path coin m = Some []
    /\ (forall t' : table,
          files (fst (write_table w t' st')) !! out_path coin m = Some [t'])
    /\ log st' = EvOpen w :: evicted ++ prelude st coin m ++ log st
    /\ (evicted = [] \/ exists w0, evicted = [EvClose w0 (close_fails w0)])
    /\ (overwrite = true ->
        prelude st coin m = [EvUnlink (out_path coin m); EvMkdir (coin_dir coin)])
    /\ (overwrite = false -> prelude st coin m = [EvMkdir (coin_dir coin)]).
Proof.
  no_run_vars.
  intros Hrun Hin Hg w.
  destruct (sub_batches_seen _ _ _ Hrun) as (I1 & I2 & I3).
  pose proof (sub_batches_pool_wf subs (init fs) (init_pool_wf fs)) as Iwf.
  rewrite Hrun in Iwf. simpl in Iwf.
  assert (Hfile : is_Some (files st !! out_path coin m)).
  { apply (I2 (coin, m)). apply (in_map fst) in Hin. exact Hin. }
  assert (Hne : writers st <> []).
  { apply I3. intros ->. contradiction. }
  assert (Hfresh : forall h, In (EvOpen h) (log st) -> h <> w).
  { intros h Hh ->. apply (wf_fresh _ Iwf) in Hh. simpl in Hh. lia. }
  assert (Hpre1 : overwrite = true ->
                  prelude st coin m = [EvUnlink (out_path coin m); EvMkdir (coin_dir coin)]).
  { intros Ho. unfold prelude, unlinks. rewrite Ho. simpl.
    rewrite bool_decide_eq_true_2 by exact Hfile. reflexivity. }
  assert (Hpre2 : overwrite = false -> prelude st coin m = [EvMkdir (coin_dir coin)]).
  { intros Ho. unfold prelude, unlinks. rewrite Ho. reflexivity. }
  assert (Hwrite : forall (ws : list (key * handle)) cs fs0 n l (t' : table),
             files (fst (write_table w t'
                           (mkState ws cs (<[out_path coin m := []]> fs0) n l)))
               !! out_path coin m = Some [t']).
  { intros ws cs fs0 n l t'.
    cbv [write_table mbind get set_files emit fst files h_path w new_writer].
    rewrite lookup_insert_eq. rewrite lookup_insert_eq. reflexivity. }
  destruct (writer_for_cases st coin m)
    as [[w' Hg']|[[_ Hc]|[(_ & Hc & k0 & w0 & ws' & Hws)|[Hws Hc]]]].
  - rewrite Hg in Hg'. discriminate.
  - rewrite (writer_for_admit _ _ _ Hg Hc).
    eexists _, [], (writers st).
    split; [reflexivity|]. split; [reflexivity|]. split; [exact Hfresh|].
    split; [reflexivity|]. split; [exact Hfile|].
    split; [apply lookup_insert_eq|]. split; [apply Hwrite|].
    split; [reflexivity|]. split; [left; reflexivity|]. split; assumption.
  - rewrite (writer_for_evict _ _ _ _ _ _ Hg Hc Hws).
    eexists _, [EvClose w0 (close_fails w0)], ws'.
    split; [reflexivity|]. split; [reflexivity|]. split; [exact Hfresh|].
    split; [reflexivity|]. split; [exact Hfile|].
    split; [apply lookup_insert_eq|]. split; [apply Hwrite|].
    split; [reflexivity|]. split; [right; eauto|]. split; assumption.
  - contradiction.
Qed.

(** *** Row groups *)

Lemma forM_map {A B} (f : B -> M unit) (g : A -> B) (l : list A) (st : state) :
  forM_ f (map g l) st = forM_ (fun a => f (g a)) l st.
Proof.
  no_run_vars.
  revert st. induction l as [|a l IH]; intros st; simpl; [reflexivity|].
  unfold mbind. destruct (f (g a) st) as [st1 [[]|e]]; [apply IH|reflexivity].
Qed.

Definition write_event (w : handle) (t : table) : event := EvWrite w (num_rows t).

(** A run of writes to one writer appends the tables to its file, in
    order. *)
Lemma write_tables_run (w : handle) (t0 : table) (ts : list table) (st : state) :
  forM_ (write_table w) (t0 :: ts) st
  = (mkState (writers st) (counts st)
       (<[h_path w := default [] (files st !! h_path w) ++ t0 :: ts]> (files st))
       (next_id st)
       (rev (map (write_event w) (t0 :: ts)) ++ log st), Ok tt).
Proof.
  no_run_vars.
  revert t0 st. induction ts as [|t1 ts IH]; intros t0 st.
  - reflexivity.
  - change (forM_ (write_table w) (t0 :: t1 :: ts) st)
      with (forM_ (write_table w) (t1 :: ts)
              (mkState (writers st) (counts st)
                 (<[h_path w := default [] (files st !! h_path w) ++ [t0]]> (files st))
                 (next_id st) (EvWrite w (num_rows t0) :: log st))).
    rewrite IH. cbn [writers counts files next_id log].
    rewrite lookup_insert_eq, insert_insert_eq.
    change (default [] (Some ?x)) with x.
    rewrite <- (app_assoc _ [t0]).
    f_equal. f_equal. simpl. rewrite <- !app_assoc. reflexivity.
Qed.

Lemma firstn_add_split {A} (x y : nat) (l : list A) :
  firstn (x + y) l = firstn x l ++ firstn y (skipn x l).
Proof.
  no_run_vars.
  revert l. induction x as [|x IH]; intros l; simpl; [reflexivity|].
  destruct l as [|a l]; simpl.
  - rewrite firstn_nil. reflexivity.
  - f_equal. apply IH.
Qed.

(** Cutting a list into consecutive chunks of [r] elements and gluing
    the chunks gives back the part of the list they cover. *)
Lemma chunks_concat {A} (r : nat) (l : list A) (a c : nat) :
  concat (map (fun i => firstn r (skipn (i * r) l)) (seq a c))
  = firstn (c * r) (skipn (a * r) l).
Proof.
  no_run_vars.
  revert a. induction c as [|c IH]; intros a; simpl; [reflexivity|].
  rewrite IH. rewrite firstn_add_split. f_equal.
  rewrite skipn_skipn. reflexivity.
Qed.

(** The [j]-th column of a table, as a list of elements. *)
Definition col_vals (t : table) (j : nat) : list (option scalar) :=
  match columns t !! j with
  | Some nc => cvals (snd nc)
  | None => []
  end.

Lemma col_vals_slice (t : table) (offset len : Z) (j : nat) :
  col_vals (slice t offset len) j
  = firstn (Z.to_nat len) (skipn (Z.to_nat offset) (col_vals t j)).
Proof.
  no_run_vars.
  unfold col_vals, slice. simpl. rewrite list_lookup_fmap.
  destruct (columns t !! j) as [nc|]; simpl; [reflexivity|].
  rewrite skipn_nil, firstn_nil. reflexivity.
Qed.

(** The slices that [write_row_groups] writes when the sub-batch is
    larger than a row group. *)
Definition row_group_count (n : nat) : nat :=
  Z.to_nat ((Z.of_nat n + row_group_size - 1) / row_group_size).

Definition row_group_slices (t : table) : list table :=
  map (fun i => slice t (Z.of_nat i * row_group_size) row_group_size)
      (seq 0 (row_group_count (num_rows t))).

Lemma row_group_count_covers (n : nat) :
  1 <= row_group_size ->
  (n <= row_group_count n * Z.to_nat row_group_size)%nat
  /\ ((row_group_count n - 1) * Z.to_nat row_group_size < n \/ n = O)%nat.
Proof.
  no_run_vars.
  intros Hr. unfold row_group_count.
  set (a := Z.of_nat n + row_group_size - 1).
  pose proof (Z.div_mod a row_group_size ltac:(lia)) as Hdm.
  pose proof (Z.mod_pos_bound a row_group_size ltac:(lia)) as Hmod.
  assert (Hq : 0 <= a / row_group_size) by (apply Z.div_pos; lia).
  split.
  - apply Nat2Z.inj_le. rewrite Nat2Z.inj_mul, !Z2Nat.id by lia. nia.
  - destruct n as [|n']; [right; reflexivity|left].
    apply Nat2Z.inj_lt. rewrite Nat2Z.inj_mul, Nat2Z.inj_sub, !Z2Nat.id by
      (try lia; apply Nat2Z.inj_le; rewrite Z2Nat.id by lia; simpl; nia).
    simpl (Z.of_nat 1). nia.
Qed.

Lemma to_nat_start (i : nat) :
  1 <= row_group_size ->
  Z.to_nat (Z.of_nat i * row_group_size) = (i * Z.to_nat row_group_size)%nat.
Proof.
  no_run_vars.
  intros Hr. rewrite Z2Nat.inj_mul, Nat2Z.id by lia. reflexivity.
Qed.

Lemma write_row_groups_run (w : handle) (t : table) (st : state) :
  1 <= row_group_size ->
  row_group_size < Z.of_nat (num_rows t) ->
  write_row_groups w t st
  = (mkState (writers st) (counts st)
       (<[h_path w := default [] (files st !! h_path w) ++ row_group_slices t]> (files st))
       (next_id st)
       (rev (map (write_event w) (row_group_slices t)) ++ log st), Ok tt).
Proof.
  no_run_vars.
  intros Hr Hn. unfold Rebucket.write_row_groups.
  assert (Hgt : (Z.of_nat (num_rows t) >? row_group_size) = true)
    by (apply Z.gtb_lt; lia).
  rewrite Hgt. unfold py_range0.
  assert (H0 : (row_group_size =? 0) = false) by (apply Z.eqb_neq; lia).
  assert (H1 : (0 <? row_group_size) = true) by (apply Z.ltb_lt; lia).
  rewrite H0, H1. unfold mbind at 1. unfold lift.
  rewrite forM_map.
  rewrite <- (forM_map (write_table w)
                (fun i => slice t (Z.of_nat i * row_group_size) row_group_size)).
  fold (row_group_count (num_rows t)). fold (row_group_slices t).
  destruct (row_group_slices t) as [|t0 ts] eqn:Hs.
  - exfalso. unfold row_group_slices in Hs. apply map_eq_nil in Hs.
    destruct (row_group_count_covers (num_rows t) Hr) as [Hc _].
    destruct (row_group_count (num_rows t)); [simpl in Hc; lia|discriminate].
  - apply write_tables_run.
Qed.

(** C9, as the code has it.  With [row_group_size >= 1], a sub-batch
    with more rows than that is written by as many [write_table] calls
    as it takes, each on the slice of [row_group_size] rows from the
    offset [i * row_group_size] on (the last one on what is left), in
    the order of the offsets: every slice has between one and
    [row_group_size] rows, and the slices of a column, put end to end,
    are the column.  With [row_group_size >= 5], a sub-batch of
    [2 * row_group_size + 5] rows is written by three calls, on
    [row_group_size], [row_group_size] and [5] rows. *)
Theorem row_groups_are_contiguous_slices (w : handle) (t : table) (st : state) :
  1 <= row_group_size ->
  row_group_size < Z.of_nat (num_rows t) ->
  let r := Z.to_nat row_group_size in
  let slices := row_group_slices t in
  write_row_groups w t st
  = (mkState (writers st) (counts st)
       (<[h_path w := default [] (files st !! h_path w) ++ slices]> (files st))
       (next_id st)
       (rev (map (fun s => EvWrite w (num_rows s)) slices) ++ log st), Ok tt)
  /\ (forall i : nat,
        (i < length slices)%nat ->
        slices !! i = Some (slice t (Z.of_nat i * row_group_size) row_group_size)
        /\ num_rows (slice t (Z.of_nat i * row_group_size) row_group_size)
           = Nat.min r (num_rows t - i * r)
        /\ (1 <= Nat.min r (num_rows t - i * r) <= r)%nat)
  /\ (forall j : nat,
        length (col_vals t j) = num_rows t ->
        concat (map (fun s => col_vals s j) slices) = col_vals t j)
  /\ (5 <= row_group_size ->
      num_rows t = (2 * r + 5)%nat ->
      map num_rows slices = [r; r; 5%nat]).
Proof.
  no_run_vars.
  intros Hr Hn r slices.
  destruct (row_group_count_covers (num_rows t) Hr) as [Hcov Hlast].
  fold r in Hcov, Hlast.
  assert (Hr' : (1 <= r)%nat) by (unfold r; lia).
  split; [apply write_row_groups_run; assumption|].
  split; [|split].
  - intros i Hi. unfold slices, row_group_slices in *.
    rewrite length_map, length_seq in Hi.
    split.
    + rewrite list_lookup_fmap, lookup_seq_lt by exact Hi. reflexivity.
    + simpl. rewrite (to_nat_start i Hr). fold r. split; [reflexivity|].
      destruct Hlast as [Hlast|Hz]; [|lia]. nia.
  - intros j Hlen. unfold slices, row_group_slices. rewrite map_map.
    rewrite (map_ext _ (fun i => firstn r (skipn (i * r) (col_vals t j)))).
    + rewrite chunks_concat. simpl. apply firstn_all2. lia.
    + intros i. rewrite col_vals_slice, (to_nat_start i Hr). reflexivity.
  - intros H5 Hnum. unfold slices, row_group_slices.
    assert (Hc : row_group_count (num_rows t) = 3%nat).
    { unfold row_group_count. rewrite Hnum.
      replace (Z.of_nat (2 * r + 5) + row_group_size - 1)
        with (3 * row_group_size + 4) by (unfold r; lia).
      rewrite <- (Z.div_unique (3 * row_group_size + 4) row_group_size 3 4);
        [reflexivity|lia|lia]. }
    rewrite Hc. simpl. rewrite !to_nat_start by exact Hr.
    fold r. rewrite Hnum. f_equal; [|f_equal; [|f_equal]]; lia.
Qed.

End Pool.

End RebucketFacts.

(** *** The run on concrete inputs *)

Module RebucketExamples.
Import Arrow Rebucket RebucketFacts.

Lemma pool_bound_witness :
  0 <= 2
  /\ always (bounded 2)
       (log (fst (Reference.run 1 2 true Reference.no_close_fails Reference.three_coins))).
Proof.
  split; [lia|].
  apply (proj1 (pool_bound_and_single_eviction "out" true 2 Reference.no_close_fails
                  Reference.castable Reference.conv Reference.common Reference.utc 1
                  Reference.DEFAULT_SCHEMA ltac:(lia))).
Defined.

(** The claim of C2 as the specification words it, refuted at
    [max_open_writers = 0]: the pool, empty, is at capacity, the key is
    missing, and [_writer_for] raises [KeyError] from [popitem] after
    having made the directory: no writer is evicted or closed and no new
    one is admitted.  (Below zero the bound itself fails, before the
    first event: no writer is open, which is more than [-1].) *)
Lemma pool_of_zero_writers_raises :
  ~ bounded (-1) (log (init ∅))
  /\ od_get Reference.btc_aug (writers (init ∅)) = None
  /\ at_capacity 0 (init ∅) = true
  /\ _writer_for "out" true 0 Reference.no_close_fails "BTC" "2024-08" (init ∅)
     = (mkState [] ∅ ∅ 0 [EvMkdir "out/BTC"], Err KeyError)
  /\ ~ (exists (st' : state) (w : handle),
          _writer_for "out" true 0 Reference.no_close_fails "BTC" "2024-08" (init ∅)
          = (st', Ok w)).
Proof.
  split; [unfold bounded; simpl; lia|].
  split; [reflexivity|]. split; [reflexivity|].
  assert (H : _writer_for "out" true 0 Reference.no_close_fails "BTC" "2024-08" (init ∅)
              = (mkState [] ∅ ∅ 0 [EvMkdir "out/BTC"], Err KeyError))
    by (vm_compute; reflexivity).
  split; [exact H|]. intros (st' & w & H'). rewrite H in H'. discriminate.
Qed.

(** The state after the accesses BTC, ETH, BTC to a pool of two. *)
Definition after_three_accesses : state :=
  fst (accesses "out" true 2 Reference.no_close_fails
         [Reference.btc_aug; Reference.eth_aug; Reference.btc_aug] (init ∅)).

Lemma lru_eviction_witness :
  accesses "out" true 2 Reference.no_close_fails
    [Reference.btc_aug; Reference.eth_aug; Reference.btc_aug] (init ∅)
  = (after_three_accesses, Ok tt)
  /\ map fst (writers after_three_accesses) = [Reference.eth_aug; Reference.btc_aug]
  /\ used_before [Reference.btc_aug; Reference.eth_aug; Reference.btc_aug]
       Reference.eth_aug Reference.btc_aug.
Proof.
  assert (Hrun : accesses "out" true 2 Reference.no_close_fails
                   [Reference.btc_aug; Reference.eth_aug; Reference.btc_aug] (init ∅)
                 = (after_three_accesses, Ok tt)) by (vm_compute; reflexivity).
  split; [exact Hrun|]. split; [vm_compute; reflexivity|].
  destruct (lru_eviction_correct "out" true 2 Reference.no_close_fails ∅ _ _
              "SOL" "2024-08" Hrun) as [_ Hev].
  destruct (Hev Reference.eth_aug (mkHandle 1 "out/ETH/2024-08.parquet")
              [(Reference.btc_aug, mkHandle 0 "out/BTC/2024-08.parquet")]
              ltac:(vm_compute; reflexivity) ltac:(vm_compute; reflexivity)
              ltac:(vm_compute; reflexivity)) as (_ & _ & Hlt & _).
  apply Hlt. left. reflexivity.
Defined.

(** The state after a sub-batch of BTC and one of ETH went through a pool
    of one writer: BTC has been evicted. *)
Definition two_sub_batches : list (key * table) :=
  [ (Reference.btc_aug, Reference.rows 2); (Reference.eth_aug, Reference.rows 1) ].

Definition after_two_sub_batches : state :=
  fst (sub_batches "out" 1000 true 1 Reference.no_close_fails two_sub_batches (init ∅)).

Lemma evicted_key_reopened_witness :
  sub_batches "out" 1000 true 1 Reference.no_close_fails two_sub_batches (init ∅)
  = (after_two_sub_batches, Ok tt)
  /\ files after_two_sub_batches !! "out/BTC/2024-08.parquet" = Some [Reference.rows 2]
  /\ exists st' : state,
       _writer_for "out" true 1 Reference.no_close_fails "BTC" "2024-08"
         after_two_sub_batches
       = (st', Ok (mkHandle 2 "out/BTC/2024-08.parquet"))
       /\ files st' !! "out/BTC/2024-08.parquet" = Some [].
Proof.
  assert (Hrun : sub_batches "out" 1000 true 1 Reference.no_close_fails
                   two_sub_batches (init ∅)
                 = (after_two_sub_batches, Ok tt)) by (vm_compute; reflexivity).
  split; [exact Hrun|]. split; [vm_compute; reflexivity|].
  destruct (evicted_key_reopened_as_new "out" true 1 Reference.no_close_fails 1000 ∅
              two_sub_batches after_two_sub_batches "BTC" "2024-08" (Reference.rows 2)
              Hrun ltac:(left; reflexivity) ltac:(vm_compute; reflexivity))
    as (st' & evicted & rest & Hw & _ & _ & _ & _ & Hempty & _).
  exists st'. split; [exact Hw|exact Hempty].
Defined.

Lemma row_groups_witness :
  1 <= 5
  /\ 5 < Z.of_nat (num_rows (Reference.rows 15))
  /\ map num_rows (row_group_slices 5 (Reference.rows 15)) = [5; 5; 5]%nat.
Proof.
  split; [lia|]. split; [vm_compute; reflexivity|].
  apply (proj2 (proj2 (proj2 (row_groups_are_contiguous_slices 5
                                (mkHandle 0 "out/BTC/2024-08.parquet")
                                (Reference.rows 15) (init ∅)
                                ltac:(lia) ltac:(vm_compute; reflexivity))))).
  - lia.
  - reflexivity.
Defined.

(** The claim of C9 as the specification words it, refuted at
    [row_group_size = 2]: a sub-batch of [2 * 2 + 5 = 9] rows, which is
    more than a row group, goes out in five writes of 2, 2, 2, 2 and 1
    rows, not in three of 2, 2 and 5.  And at [row_group_size = 0] a
    sub-batch of one row, which is more than a row group too, is not
    written at all: [range] raises [ValueError] on the zero step. *)
Lemma row_groups_of_two_are_five_writes :
  write_row_groups 0 (mkHandle 0 "out/BTC/2024-08.parquet") (Reference.rows 1) (init ∅)
  = (init ∅, Err ValueError)
  /\ num_rows (Reference.rows 9) = Z.to_nat (2 * 2 + 5)
  /\ write_row_groups 2 (mkHandle 0 "out/BTC/2024-08.parquet") (Reference.rows 9) (init ∅)
     = (fst (write_row_groups 2 (mkHandle 0 "out/BTC/2024-08.parquet")
               (Reference.rows 9) (init ∅)), Ok tt)
  /\ write_sizes
       (log (fst (write_row_groups 2 (mkHandle 0 "out/BTC/2024-08.parquet")
                    (Reference.rows 9) (init ∅))))
     = [2; 2; 2; 2; 1]%nat
  /\ write_sizes
       (log (fst (write_row_groups 2 (mkHandle 0 "out/BTC/2024-08.parquet")
                    (Reference.rows 9) (init ∅))))
     <> [2; 2; 5]%nat.
Proof.
  split; [vm_compute; reflexivity|].
  split; [vm_compute; reflexivity|]. split; [vm_compute; reflexivity|].
  assert (H : write_sizes
                (log (fst (write_row_groups 2 (mkHandle 0 "out/BTC/2024-08.parquet")
                             (Reference.rows 9) (init ∅))))
              = [2; 2; 2; 2; 1]%nat) by (vm_compute; reflexivity).
  split; [exact H|]. rewrite H. discriminate.
Qed.

(** C1 on a row the claim counts: the batch has one row, its [coin] and
    its [time] are valid, so that the scan admits it, and its [date] is
    null.  The normalized [date] column has the type date32, hence no
    fall-back to [time]; the month of the row is null, the comparison
    with the null month is null, the filter drops the row, and the run
    returns an empty summary: one admitted row, a total of zero. *)
Lemma undated_row_is_not_counted :
  (exists b : table,
      scan_batch Reference.DEFAULT_SCHEMA (hd (Reference.rows 0) Reference.undated) = Ok b
      /\ num_rows b = 1%nat)
  /\ snd (Reference.run 1000000 64 true Reference.no_close_fails Reference.undated) = Ok ∅
  /\ total ∅ = 0%nat
  /\ log (fst (Reference.run 1000000 64 true Reference.no_close_fails Reference.undated)) = [].
Proof.
  split; [eexists; split; [vm_compute; reflexivity|reflexivity]|].
  split; [vm_compute; reflexivity|]. split; [vm_compute; reflexivity|].
  vm_compute. reflexivity.
Qed.

(** The clean-up on a failure, on an example: three writers are open
    when the second batch cannot be cast; the exception comes out of the
    call, and by then the three writers have had their [close()], the
    first of them one that raised. *)
Lemma three_writers_closed_on_data_error :
  let final := Reference.run 1000000 64 true Reference.first_close_fails
                 Reference.then_bad_batch in
  snd final = Err ArrowNotImplemented
  /\ firstn 3 (log (fst final))
     = [ EvClose (mkHandle 2 "out/SOL/2024-08.parquet") false;
         EvClose (mkHandle 1 "out/ETH/2024-08.parquet") false;
         EvClose (mkHandle 0 "out/BTC/2024-08.parquet") true ]
  /\ open_handles (skipn 3 (log (fst final)))
     = [ mkHandle 2 "out/SOL/2024-08.parquet";
         mkHandle 1 "out/ETH/2024-08.parquet";
         mkHandle 0 "out/BTC/2024-08.parquet" ]
  /\ open_handles (log (fst final)) = [].
Proof.
  repeat split; vm_compute; reflexivity.
Qed.

End RebucketExamples.

(** ** The regular-trading-hours filter *)

Module CleanIntradayFacts.
Import CleanIntraday.

Section Frames.

Variable V : Type.
Variable tz_offset_ns : string -> Z -> Z.

Local Abbreviation frame := (CleanIntraday.frame V).
Local Abbreviation row := (Z * list (option V))%type.

Lemma in_insert_row (r x : row) (rs : list row) :
  In x (insert_row V r rs) <-> x = r \/ In x rs.
Proof.
  induction rs as [|r' rs IH]; simpl; [intuition|].
  destruct (fst r <=? fst r'); simpl; [intuition|]. rewrite IH. intuition.
Qed.

Lemma in_sort_index (df : frame) (x : row) :
  In x (f_rows V (sort_index V df)) <-> In x (f_rows V df).
Proof.
  unfold sort_index. simpl. induction (f_rows V df) as [|r rs IH]; simpl; [tauto|].
  rewrite in_insert_row, IH. intuition.
Qed.

Lemma in_select_rows (p : Z -> bool) (df : frame) (t : Z) :
  In t (index V (select_rows V p df)) -> p t = true /\ In t (index V df).
Proof.
  unfold index, select_rows. simpl. rewrite !in_map_iff.
  intros (r & <- & Hr). apply List.filter_In in Hr. destruct Hr as [Hin Hp].
  split; [exact Hp|]. exists r. auto.
Qed.

Lemma in_insert_label (x y : Z) (l : list Z) :
  In y (insert_label x l) <-> y = x \/ In y l.
Proof.
  induction l as [|z l IH]; simpl; [intuition|].
  destruct (x <? z); simpl; [intuition|]. rewrite IH. intuition.
Qed.

Lemma in_remove_one (x y : Z) (l : list Z) : In y (remove_one x l) -> In y l.
Proof.
  induction l as [|z l IH]; simpl; [tauto|].
  destruct (x =? z); simpl; [auto|]. intros [->|H]; auto.
Qed.

(** A label of the union is a label of one of the two indexes. *)
Lemma in_union (a b : list Z) (x : Z) : In x (union a b) -> In x a \/ In x b.
Proof.
  unfold union.
  assert (Hs : forall l, In x (fold_right insert_label [] l) -> In x l).
  { induction l as [|z l IH]; simpl; [tauto|]. rewrite in_insert_label.
    intros [->|H]; auto. }
  assert (Hr : forall a0 b0, In x (fold_right remove_one b0 a0) -> In x b0).
  { induction a0 as [|z a0 IH]; simpl; intros b0 H; [exact H|].
    apply in_remove_one in H. auto. }
  intros H. apply Hs in H. apply in_app_or in H. destruct H as [H|H]; [left; exact H|].
  right. eapply Hr; eauto.
Qed.

Lemma reindex_index (df df' : frame) (idx : list Z) :
  reindex V df idx = Ok df' -> index V df' = idx.
Proof.
  unfold reindex. destruct (bool_decide (index V df = idx)) eqn:He.
  - intros [= <-]. apply bool_decide_eq_true in He. exact He.
  - destruct (has_dup (index V df)); [discriminate|]. intros [= <-].
    unfold index. simpl. rewrite map_map. simpl. apply map_id.
Qed.

Lemma index_loc_mask (mask : list bool) (rp rv : list row) :
  map fst rp = map fst rv ->
  map fst (loc_mask V mask rp) = map fst (loc_mask V mask rv).
Proof.
  revert rp rv. induction mask as [|m mask IH]; intros rp rv H; simpl; [reflexivity|].
  destruct rp as [|x rp], rv as [|y rv]; try discriminate.
  - destruct m; reflexivity.
  - simpl in H. injection H as Hxy H. destruct m; simpl; [f_equal; auto|auto].
Qed.

Lemma in_loc_mask (mask : list bool) (rs : list row) (x : row) :
  In x (loc_mask V mask rs) -> In x rs.
Proof.
  revert rs. induction mask as [|m mask IH]; intros rs; simpl; [tauto|].
  destruct m, rs as [|r rs]; simpl; try tauto.
  - intros [->|H]; auto.
  - intros H. right. auto.
Qed.

(** Rows at one position of the two masked frames passed the mask
    together. *)
Lemma loc_mask_pairs (g : row * row -> bool) (rp rv : list row) (i : nat) (a b : row) :
  loc_mask V (map g (combine rp rv)) rp !! i = Some a ->
  loc_mask V (map g (combine rp rv)) rv !! i = Some b ->
  g (a, b) = true.
Proof.
  revert rv i. induction rp as [|x rp IH]; intros rv i; simpl; [discriminate|].
  destruct rv as [|y rv]; simpl; [discriminate|].
  destruct (g (x, y)) eqn:Hg.
  - destruct i as [|i]; simpl.
    + intros [= <-] [= <-]. exact Hg.
    + apply IH.
  - apply IH.
Qed.

Definition rth_frame (tz : string) (inc : inclusive) (df : frame) : frame :=
  between_time V tz_offset_ns tz (hm_micros 9 30) (hm_micros 16 0) inc
    (select_rows V (fun t => dayofweek tz_offset_ns tz t <? 5)
       (sort_index V (_ensure_tz V tz df))).

Definition in_session (tz : string) (include_close_bar : bool) (t : Z) : Prop :=
  0 <= dayofweek tz_offset_ns tz t < 5
  /\ hm_micros 9 30 <= time_micros tz_offset_ns tz t
  /\ (if include_close_bar
      then time_micros tz_offset_ns tz t <= hm_micros 16 0
      else time_micros tz_offset_ns tz t < hm_micros 16 0).

Lemma rth_frame_in_session (tz : string) (include_close_bar : bool) (df : frame) (t : Z) :
  In t (index V (rth_frame tz (if include_close_bar then incl_both else incl_left) df)) ->
  in_session tz include_close_bar t.
Proof.
  unfold rth_frame, between_time. intros H.
  apply in_select_rows in H. destruct H as [Htime H].
  apply in_select_rows in H. destruct H as [Hday _].
  apply andb_true_iff in Htime. destruct Htime as [Hs He].
  apply Z.leb_le in Hs. apply Z.ltb_lt in Hday.
  unfold in_session. split; [|split; [exact Hs|]].
  - split; [|exact Hday]. unfold dayofweek. apply Z.mod_pos_bound. lia.
  - destruct include_close_bar; [apply Z.leb_le|apply Z.ltb_lt]; exact He.
Qed.

(** The time of day of an instant to the nanosecond, and a time of the
    clock in nanoseconds since midnight. *)
Definition time_ns (tz : string) (t : Z) : Z := local_ns tz_offset_ns tz t mod day_ns.

Definition hm_ns (h m : Z) : Z := (h * 3600 + m * 60) * 1000000000.

(** The session to the nanosecond: pandas compares times of day at the
    resolution of [datetime.time], the microsecond, so that "16:00 or
    earlier" lets through everything before 16:00:00.000001. *)
Definition in_session_ns (tz : string) (include_close_bar : bool) (t : Z) : Prop :=
  0 <= dayofweek tz_offset_ns tz t < 5
  /\ hm_ns 9 30 <= time_ns tz t
  /\ time_ns tz t < (if include_close_bar then hm_ns 16 0 + 1000 else hm_ns 16 0).

Lemma in_session_to_the_nanosecond (tz : string) (include_close_bar : bool) (t : Z) :
  in_session tz include_close_bar t <-> in_session_ns tz include_close_bar t.
Proof.
  unfold in_session, in_session_ns, time_micros. fold (time_ns tz t).
  change (hm_micros 9 30) with 34200000000. change (hm_micros 16 0) with 57600000000.
  change (hm_ns 9 30) with 34200000000000. change (hm_ns 16 0) with 57600000000000.
  generalize (time_ns tz t) as x. intros x.
  destruct include_close_bar; split; intros (Hd & Hs & He); (split; [exact Hd|]);
    split; Z.div_mod_to_equations; lia.
Qed.

Lemma reindex_tz (df df' : frame) (idx : list Z) :
  reindex V df idx = Ok df' -> f_tz V df' = f_tz V df.
Proof.
  unfold reindex. destruct (bool_decide (index V df = idx)); [intros [= <-]; reflexivity|].
  destruct (has_dup (index V df)); [discriminate|]. intros [= <-]. reflexivity.
Qed.

(** C10: whenever [clean_to_rth] returns, the two frames have the same
    index, in the zone asked for; every instant of that index is, in
    that zone, on a day from Monday (0) to Friday (4), at a time of day
    that is 09:30:00 or later and, to the nanosecond, earlier than
    16:00:00.000001 when [include_close_bar] is set, earlier than
    16:00:00 when it is not; and no position holds a row of prices that
    is all NaN together with a row of volumes that is all NaN (a frame
    without columns counts as all NaN). *)
Theorem clean_to_rth_regular_hours (prices volumes p v : frame) (tz : string)
    (include_close_bar : bool) :
  clean_to_rth V tz_offset_ns prices volumes tz include_close_bar = Ok (p, v) ->
  index V p = index V v
  /\ f_tz V p = Some tz /\ f_tz V v = Some tz
  /\ (forall t : Z, In t (index V p) ->
        0 <= dayofweek tz_offset_ns tz t < 5
        /\ hm_ns 9 30 <= time_ns tz t
        /\ time_ns tz t < (if include_close_bar then hm_ns 16 0 + 1000 else hm_ns 16 0))
  /\ (forall (i : nat) (rp rv : row),
        f_rows V p !! i = Some rp ->
        f_rows V v !! i = Some rv ->
        all_nan V (snd rp) && all_nan V (snd rv) = false).
Proof.
  unfold clean_to_rth.
  fold (rth_frame tz (if include_close_bar then incl_both else incl_left) prices).
  fold (rth_frame tz (if include_close_bar then incl_both else incl_left) volumes).
  set (P := rth_frame tz _ prices). set (W := rth_frame tz _ volumes).
  destruct (reindex V P (union (index V P) (index V W))) as [P'|] eqn:HP; simpl; [|discriminate].
  destruct (reindex V W (union (index V P) (index V W))) as [W'|] eqn:HW; simpl; [|discriminate].
  intros [= <- <-].
  pose proof (reindex_tz _ _ _ HP) as HtP. pose proof (reindex_tz _ _ _ HW) as HtW.
  apply reindex_index in HP. apply reindex_index in HW.
  split; [|split; [|split; [|split]]].
  - unfold index at 1 2. simpl. apply index_loc_mask.
    fold (index V P'). fold (index V W'). congruence.
  - simpl. rewrite HtP. reflexivity.
  - simpl. rewrite HtW. reflexivity.
  - intros t Ht. unfold index in Ht. simpl in Ht. apply in_map_iff in Ht.
    destruct Ht as (r & <- & Hr). apply in_loc_mask in Hr.
    assert (Hidx : In (fst r) (index V P')) by (apply in_map; exact Hr).
    rewrite HP in Hidx. apply in_union in Hidx.
    apply (in_session_to_the_nanosecond tz include_close_bar (fst r)).
    destruct Hidx as [H|H]; eapply rth_frame_in_session; eauto.
  - simpl. intros i rp rv Hp Hv.
    pose proof (loc_mask_pairs _ _ _ _ _ _ Hp Hv) as Hg. simpl in Hg.
    apply negb_true_iff in Hg. exact Hg.
Qed.

End Frames.

Lemma clean_to_rth_regular_hours_witness :
  exists p v : CleanIntraday.frame Z,
    clean_to_rth Z Reference.edt Reference.prices_frame Reference.volumes_frame
      "America/New_York" true = Ok (p, v)
    /\ index Z p = index Z v
    /\ length (f_rows Z p) = 3%nat.
Proof.
  eexists _, _. split; [vm_compute; reflexivity|].
  split; [|reflexivity].
  refine (proj1 (clean_to_rth_regular_hours Z Reference.edt Reference.prices_frame
                   Reference.volumes_frame _ _ "America/New_York" true _)).
  vm_compute. reflexivity.
Defined.

(** One bar, on Thursday 2024-08-01 at 16:00:00.000000999 in New York. *)
Definition late_bar : Z := Reference.utc_ns 19936 20 0 + 999.

Definition late_frame : CleanIntraday.frame Z :=
  CleanIntraday.mkFrame Z ["AAPL"%string] None [(late_bar, [Some 101])].

(** The claim of C10 as the specification words it, refuted after the
    close: with [include_close_bar] set, [clean_to_rth] returns the bar
    at 16:00:00.000000999, which is later than 16:00. *)
Lemma close_bar_lets_through_a_bar_after_1600 :
  clean_to_rth Z Reference.edt late_frame late_frame "America/New_York" true
  = Ok (CleanIntraday.mkFrame Z ["AAPL"%string] (Some "America/New_York"%string)
          [(late_bar, [Some 101])],
        CleanIntraday.mkFrame Z ["AAPL"%string] (Some "America/New_York"%string)
          [(late_bar, [Some 101])])
  /\ time_ns Reference.edt "America/New_York" late_bar = hm_ns 16 0 + 999
  /\ ~ time_ns Reference.edt "America/New_York" late_bar <= hm_ns 16 0.
Proof.
  split; [vm_compute; reflexivity|].
  assert (H : time_ns Reference.edt "America/New_York" late_bar = hm_ns 16 0 + 999)
    by (vm_compute; reflexivity).
  split; [exact H|]. rewrite H. lia.
Qed.

End CleanIntradayFacts.

(** ** The summary of a run *)

Module RebucketCounts.
Import Arrow Normalizer Calendar Rebucket RebucketFacts.

(** *** Sums over a [gmap] and over a partition of a list *)

Lemma total_add (cs : gmap key nat) (k : key) (n : nat) :
  total (<[k := (default O (cs !! k) + n)%nat]> cs) = (total cs + n)%nat.
Proof.
  unfold total.
  assert (Hcomm : forall (m : gmap key nat) (j1 j2 : key) (z1 z2 y : nat),
             j1 <> j2 -> m !! j1 = Some z1 -> m !! j2 = Some z2 ->
             (z1 + (z2 + y) = z2 + (z1 + y))%nat) by (intros; lia).
  destruct (cs !! k) as [old|] eqn:Hk; simpl.
  - rewrite <- insert_delete_eq.
    rewrite map_fold_insert_L; [|apply Hcomm|apply lookup_delete_eq].
    rewrite (map_fold_delete_L _ _ k old cs); [lia|apply Hcomm|exact Hk].
  - rewrite map_fold_insert_L; [lia|apply Hcomm|exact Hk].
Qed.

Lemma list_sum_add {A} (f g : A -> nat) (l : list A) :
  list_sum (map (fun a => (f a + g a)%nat) l)
  = (list_sum (map f l) + list_sum (map g l))%nat.
Proof. induction l as [|a l IH]; simpl; lia. Qed.

Lemma list_sum_ext {A} (f g : A -> nat) (l : list A) :
  (forall a, In a l -> f a = g a) -> list_sum (map f l) = list_sum (map g l).
Proof.
  induction l as [|a l IH]; simpl; intros H; [reflexivity|].
  rewrite (H a) by auto. rewrite IH by auto. reflexivity.
Qed.

Lemma sum_indicator {A} `{EqDecision A} (x : A) (s : list A) :
  List.NoDup s -> In x s ->
  list_sum (map (fun v => if decide (v = x) then 1%nat else O) s) = 1%nat.
Proof.
  induction 1 as [|a s Ha Hs IH]; simpl; [tauto|].
  intros [->|Hin].
  - destruct (decide (x = x)); [|contradiction].
    rewrite (list_sum_ext _ (fun _ => O)).
    + clear. induction s; simpl; auto.
    + intros v Hv. destruct (decide (v = x)); [subst; contradiction|reflexivity].
  - destruct (decide (a = x)); [subst; contradiction|]. simpl. auto.
Qed.

(** The comparison of one element with a value, as [pc.equal] makes it. *)
Definition eq_mask (v o : option scalar) : option bool :=
  match o, v with
  | Some a, Some b => Some (bool_decide (a = b))
  | _, _ => None
  end.

Lemma keep_length {A B} (mask : list (option bool)) (xs : list A) (ys : list B) :
  length xs = length ys -> length (keep mask xs) = length (keep mask ys).
Proof.
  revert xs ys. induction mask as [|b mask IH]; intros xs ys H; simpl; [reflexivity|].
  destruct xs as [|x xs], ys as [|y ys]; try discriminate.
  - destruct b as [[]|]; reflexivity.
  - simpl in H. injection H as H. destruct b as [[]|]; simpl; auto.
Qed.

(** Filtering a list by each of a set of distinct values that covers its
    elements, all of them valid, splits it: the parts have as many
    elements as the list. *)
Lemma partition_count {A} (l s : list (option scalar)) (xs : list A) :
  List.NoDup s ->
  (forall x, In x l -> In x s) ->
  Forall (fun o => valid_elem o = true) l ->
  length xs = length l ->
  list_sum (map (fun v => length (keep (map (eq_mask v) l) xs)) s) = length xs.
Proof.
  intros Hs. revert xs. induction l as [|o l IH]; intros xs Hin Hv Hlen.
  - destruct xs; [|discriminate]. simpl.
    clear. induction s; simpl; auto.
  - destruct xs as [|x xs]; [discriminate|]. simpl in Hlen. injection Hlen as Hlen.
    apply List.Forall_cons_iff in Hv. destruct Hv as [Ho Hv].
    destruct o as [a|]; [|discriminate].
    rewrite (list_sum_ext _
               (fun v => ((if decide (v = Some a) then 1 else 0)
                          + length (keep (map (eq_mask v) l) xs))%nat)).
    + rewrite list_sum_add, IH; auto.
      * rewrite sum_indicator; auto. apply Hin. left. reflexivity.
      * intros y Hy. apply Hin. right. exact Hy.
    + intros v _. simpl. destruct v as [b|]; simpl.
      * destruct (decide (Some b = Some a)) as [Heq|Hne].
        -- injection Heq as ->. rewrite bool_decide_eq_true_2 by reflexivity. reflexivity.
        -- rewrite bool_decide_eq_false_2 by congruence. reflexivity.
      * destruct (decide (None = Some a)); [discriminate|reflexivity].
Qed.

Lemma unique_NoDup (l : list (option scalar)) : List.NoDup (unique l).
Proof.
  induction l as [|x l IH]; simpl; constructor.
  - intros H. apply List.filter_In in H. destruct H as [_ H].
    rewrite bool_decide_eq_true_2 in H by reflexivity. discriminate.
  - apply List.NoDup_filter. exact IH.
Qed.

Lemma unique_In (l : list (option scalar)) (x : option scalar) :
  In x l -> In x (unique l).
Proof.
  induction l as [|y l IH]; simpl; [tauto|].
  intros [->|H]; [left; reflexivity|].
  destruct (decide (x = y)) as [->|Hne]; [left; reflexivity|right].
  apply List.filter_In. split; [auto|].
  rewrite bool_decide_eq_false_2 by exact Hne. reflexivity.
Qed.

Lemma equal_scalar_mask (col : column) (v : option scalar) :
  equal_scalar col v = map (eq_mask v) (cvals col).
Proof. reflexivity. Qed.

(** [tbl[name]] on a filtered table is the filtered column. *)
Lemma getitem_filter (tbl : table) (mask : list (option bool)) (name : string) (c : column) :
  getitem tbl name = Ok c ->
  getitem (filter_table tbl mask) name = Ok (mkColumn (ctype c) (keep mask (cvals c))).
Proof.
  unfold getitem, filter_table. simpl.
  induction (columns tbl) as [|nc l IH]; simpl; [discriminate|].
  destruct (String.eqb (fst nc) name) eqn:He; simpl.
  - assert (Hf : forall l0 : list (string * column),
               List.filter (fun nc0 => String.eqb (fst nc0) name) l0 = [] ->
               List.filter (fun nc0 => String.eqb (fst nc0) name)
                 (map (fun nc0 => (fst nc0, mkColumn (ctype (snd nc0))
                                              (keep mask (cvals (snd nc0))))) l0) = []).
    { clear. induction l0 as [|a l0 IH0]; simpl; [reflexivity|].
      destruct (String.eqb (fst a) name); [discriminate|exact IH0]. }
    destruct (List.filter _ l) eqn:Hl; [|discriminate].
    intros [= <-]. rewrite (Hf l Hl). reflexivity.
  - exact IH.
Qed.

Lemma getitem_In (tbl : table) (name : string) (c : column) :
  getitem tbl name = Ok c -> In (name, c) (columns tbl).
Proof.
  unfold getitem. intros H.
  destruct (List.filter _ (columns tbl)) as [|nc [|]] eqn:Hf; try discriminate.
  injection H as <-.
  assert (Hin : In nc (List.filter (fun nc0 => String.eqb (fst nc0) name) (columns tbl)))
    by (rewrite Hf; left; reflexivity).
  apply List.filter_In in Hin. destruct Hin as [Hin He].
  apply String.eqb_eq in He. destruct nc; simpl in *. subst. exact Hin.
Qed.

(** *** What each loop adds to the counts *)

Section Run.

Variable castable : dtype -> dtype -> bool.
Variable conv : dtype -> dtype -> scalar -> option scalar.
Variable common : dtype -> dtype -> option dtype.
Variable tz_offset : string -> Z -> Z.
Variable out_dir : string.
Variable row_group_size : Z.
Variable target_schema : list field.
Variable overwrite : bool.
Variable max_open_writers : Z.
Variable close_fails : handle -> bool.

Local Abbreviation _writer_for :=
  (Rebucket._writer_for out_dir overwrite max_open_writers close_fails).
Local Abbreviation write_row_groups := (Rebucket.write_row_groups row_group_size).
Local Abbreviation write_sub_batch :=
  (Rebucket.write_sub_batch out_dir row_group_size overwrite max_open_writers close_fails).
Local Abbreviation per_month :=
  (Rebucket.per_month out_dir row_group_size overwrite max_open_writers close_fails).
Local Abbreviation per_coin :=
  (Rebucket.per_coin castable conv tz_offset out_dir row_group_size overwrite
     max_open_writers close_fails).
Local Abbreviation per_batch :=
  (Rebucket.per_batch castable conv common tz_offset out_dir row_group_size
     target_schema overwrite max_open_writers close_fails).
Local Abbreviation split_asset_ctxs_by_coin_month :=
  (Rebucket.split_asset_ctxs_by_coin_month castable conv common tz_offset out_dir
     row_group_size target_schema overwrite max_open_writers close_fails).
Local Abbreviation _cast_to_schema := (Normalizer._cast_to_schema castable conv common).
Local Abbreviation _month_str := (Rebucket._month_str castable conv tz_offset).

Lemma writer_for_counts (coin m : string) (st : state) :
  counts (fst (_writer_for coin m st)) = counts st.
Proof.
  destruct (writer_for_cases max_open_writers st coin m)
    as [[w Hg]|[[Hg Hc]|[(Hg & Hc & k0 & w0 & ws' & Hws)|[Hws Hc]]]].
  - rewrite (writer_for_hit _ _ _ _ _ _ _ _ Hg). reflexivity.
  - rewrite (writer_for_admit _ _ _ _ _ _ _ Hg Hc). reflexivity.
  - rewrite (writer_for_evict _ _ _ _ _ _ _ _ _ _ Hg Hc Hws). reflexivity.
  - rewrite (writer_for_empty_full _ _ _ _ _ _ _ Hws Hc). reflexivity.
Qed.

Lemma write_row_groups_counts (w : handle) (t : table) (st : state) :
  counts (fst (write_row_groups w t st)) = counts st.
Proof.
  apply (write_row_groups_preserves row_group_size (fun s => counts s = counts st)).
  - intros w0 t0 s Hs. cbv [write_table mbind get set_files emit fst counts] in *.
    exact Hs.
  - reflexivity.
Qed.

Lemma write_sub_batch_total (coin m : string) (t : table) (st st' : state) :
  write_sub_batch coin m t st = (st', Ok tt) ->
  total (counts st') = (total (counts st) + num_rows t)%nat.
Proof.
  unfold Rebucket.write_sub_batch. unfold mbind at 1.
  pose proof (writer_for_counts coin m st) as H1.
  destruct (_writer_for coin m st) as [st1 [w|e]]; [|discriminate].
  unfold mbind at 1.
  pose proof (write_row_groups_counts w t st1) as H2.
  destruct (write_row_groups w t st1) as [st2 [[]|e]]; [|discriminate].
  unfold mbind, get, set_counts. simpl in *. intros [= <-]. simpl.
  rewrite H2, H1. apply total_add.
Qed.

Lemma forM_total {A} (f : A -> M unit) (g : A -> nat) (l : list A) :
  (forall a st st', In a l -> f a st = (st', Ok tt) ->
                    total (counts st') = (total (counts st) + g a)%nat) ->
  forall st st', forM_ f l st = (st', Ok tt) ->
                 total (counts st') = (total (counts st) + list_sum (map g l))%nat.
Proof.
  induction l as [|a l IH]; intros Hf st st'; simpl.
  - intros [= <-]. lia.
  - unfold mbind. destruct (f a st) as [st1 [[]|e]] eqn:Ha; [|discriminate].
    intros Hl. apply IH in Hl.
    + rewrite Hl. rewrite (Hf a st st1); [lia|left; reflexivity|exact Ha].
    + intros a0 s0 s1 Hin H0. apply Hf; [right; exact Hin|exact H0].
Qed.

Lemma per_month_total (coin : option scalar) (c_tbl : table) (months : column)
    (m : option scalar) (st st' : state) :
  per_month coin c_tbl months m st = (st', Ok tt) ->
  total (counts st')
  = (total (counts st) + num_rows (filter_table c_tbl (equal_scalar months m)))%nat.
Proof.
  unfold Rebucket.per_month.
  destruct (num_rows _ =? 0)%nat eqn:Hz.
  - apply Nat.eqb_eq in Hz. intros [= <-]. rewrite Hz. lia.
  - destruct coin as [[]|]; try discriminate.
    destruct m as [[]|]; try discriminate.
    apply write_sub_batch_total.
Qed.

Definition is_str (o : option scalar) : Prop := exists s, o = Some (s_str s).
Definition is_int (o : option scalar) : Prop := exists z, o = Some (s_int z).

(** A normalized batch all of whose rows have a coin and a date. *)
Definition dated (tbl : table) : Prop :=
  exists coin_col date_col : column,
    getitem tbl "coin" = Ok coin_col
    /\ getitem tbl "date" = Ok date_col
    /\ length (cvals coin_col) = num_rows tbl
    /\ length (cvals date_col) = num_rows tbl
    /\ Forall is_str (cvals coin_col)
    /\ ctype date_col = t_date32
    /\ Forall is_int (cvals date_col).

(** The rows that the scan admits. *)
Definition admitted (dataset : list table) : nat :=
  list_sum (map (fun raw => match scan_batch target_schema raw with
                            | Ok b => num_rows b
                            | Err _ => O
                            end) dataset).

Lemma keep_Forall {A} (P : A -> Prop) (mask : list (option bool)) (l : list A) :
  Forall P l -> Forall P (keep mask l).
Proof.
  revert l. induction mask as [|b mask IH]; intros l H; simpl; [constructor|].
  destruct l as [|x l]; [destruct b as [[]|]; constructor|].
  apply List.Forall_cons_iff in H. destruct H as [Hx H].
  destruct b as [[]|]; [constructor|..]; auto.
Qed.

Hypothesis conv_date_int :
  forall v v' : scalar, conv t_date32 ts_ns v = Some v' -> exists z, v' = s_int z.

(** The months of a column of valid dates are valid, one per date. *)
Lemma month_str_dated (date : column) (months : column) :
  ctype date = t_date32 ->
  Forall is_int (cvals date) ->
  _month_str date = Ok months ->
  length (cvals months) = length (cvals date)
  /\ Forall (fun o => valid_elem o = true) (cvals months).
Proof.
  intros Ht Hint. unfold Rebucket._month_str. rewrite Ht. simpl.
  destruct (Arrow.cast castable conv date ts_ns) as [ts|] eqn:Hc; simpl; [|discriminate].
  intros [= <-]. simpl. rewrite length_map.
  pose proof (NormalizerFacts.cast_type _ _ _ _ _ Hc) as Hts.
  unfold Arrow.cast in Hc. rewrite Ht in Hc.
  destruct (decide (t_date32 = ts_ns)); [discriminate|].
  destruct (castable t_date32 ts_ns); [|discriminate].
  destruct (mapM _ (cvals date)) as [vs|] eqn:Hm; simpl in Hc; [|discriminate].
  injection Hc as <-. simpl in *. apply NormalizerFacts.mapM_Forall2 in Hm.
  clear Hts. induction Hm as [|o o' l l' Ho _ IH]; simpl; [split; [reflexivity|constructor]|].
  apply List.Forall_cons_iff in Hint. destruct Hint as [[z ->] Hint].
  destruct (IH Hint) as [IH1 IH2]. split; [f_equal; exact IH1|].
  constructor; [|exact IH2].
  simpl in Ho. destruct (conv t_date32 ts_ns (s_int z)) as [v'|] eqn:Hv; [|discriminate].
  injection Ho as <-. destruct (conv_date_int _ _ Hv) as [z' ->].
  reflexivity.
Qed.

Lemma per_coin_total (tbl : table) (date_col coin_col : column) (coin : option scalar)
    (st st' : state) :
  getitem tbl "date" = Ok date_col ->
  length (cvals date_col) = num_rows tbl ->
  ctype date_col = t_date32 ->
  Forall is_int (cvals date_col) ->
  per_coin tbl coin_col coin st = (st', Ok tt) ->
  total (counts st')
  = (total (counts st) + num_rows (filter_table tbl (equal_scalar coin_col coin)))%nat.
Proof.
  intros Hget Hlen Ht Hint. unfold Rebucket.per_coin.
  set (mask := equal_scalar coin_col coin). set (c_tbl := filter_table tbl mask).
  destruct (num_rows c_tbl =? 0)%nat eqn:Hz.
  - apply Nat.eqb_eq in Hz. intros [= <-]. rewrite Hz. lia.
  - unfold c_tbl at 1. rewrite (getitem_filter _ mask _ _ Hget).
    unfold mbind at 1. unfold lift at 1. unfold mbind at 1. simpl ctype. rewrite Ht.
    simpl. unfold mbind at 1. unfold lift at 1.
    destruct (_month_str (mkColumn t_date32 (keep mask (cvals date_col))))
      as [months|] eqn:Hm; [|discriminate].
    intros Hloop.
    apply (forM_total _ (fun m => num_rows (filter_table c_tbl (equal_scalar months m))))
      in Hloop; [|intros; eapply per_month_total; eauto].
    rewrite Hloop. f_equal.
    destruct (month_str_dated (mkColumn t_date32 (keep mask (cvals date_col))) months
                eq_refl (keep_Forall _ mask _ Hint) Hm) as [Hl Hv].
    simpl in Hl.
    assert (Hrows : length (cvals months) = num_rows c_tbl).
    { rewrite Hl. unfold c_tbl. simpl. apply keep_length.
      rewrite length_seq. exact Hlen. }
    change (list_sum
              (map (fun m => length (keep (map (eq_mask m) (cvals months))
                                       (seq 0 (num_rows c_tbl))))
                   (unique (cvals months)))
            = num_rows c_tbl).
    etransitivity; [apply partition_count|apply length_seq].
    + apply unique_NoDup.
    + apply unique_In.
    + exact Hv.
    + rewrite length_seq. symmetry. exact Hrows.
Qed.

Lemma per_batch_total (raw : table) (st st' : state) :
  (forall b tbl, scan_batch target_schema raw = Ok b ->
                 _cast_to_schema b target_schema = Ok tbl ->
                 dated tbl /\ num_rows tbl = num_rows b) ->
  per_batch raw st = (st', Ok tt) ->
  total (counts st')
  = (total (counts st)
     + match scan_batch target_schema raw with Ok b => num_rows b | Err _ => O end)%nat.
Proof.
  intros Hnorm. unfold Rebucket.per_batch. unfold mbind at 1. unfold lift at 1.
  destruct (scan_batch target_schema raw) as [b|] eqn:Hb; [|discriminate].
  unfold mbind at 1. unfold lift at 1.
  destruct (_cast_to_schema b target_schema) as [tbl|] eqn:Hc; [|discriminate].
  destruct (Hnorm b tbl eq_refl Hc)
    as [(coin_col & date_col & Hg1 & Hg2 & Hl1 & Hl2 & Hstr & Ht & Hint) Hrows].
  rewrite <- Hrows.
  destruct (num_rows tbl =? 0)%nat eqn:Hz.
  - apply Nat.eqb_eq in Hz. intros [= <-]. rewrite Hz. lia.
  - rewrite Hg1. unfold mbind at 1. unfold lift at 1. intros Hloop.
    apply (forM_total _ (fun c => num_rows (filter_table tbl (equal_scalar coin_col c))))
      in Hloop; [|intros; eapply per_coin_total; eauto].
    rewrite Hloop. f_equal.
    change (list_sum
              (map (fun c => length (keep (map (eq_mask c) (cvals coin_col))
                                       (seq 0 (num_rows tbl))))
                   (unique (cvals coin_col)))
            = num_rows tbl).
    etransitivity; [apply partition_count|apply length_seq].
    + apply unique_NoDup.
    + apply unique_In.
    + apply List.Forall_forall. intros o Ho. rewrite List.Forall_forall in Hstr.
      destruct (Hstr o Ho) as [s0 ->]. reflexivity.
    + rewrite length_seq. symmetry. exact Hl1.
Qed.

(** Partition completeness for dated rows: when every batch, once
    scanned and normalized, has a coin and a date of type date32 in every
    row (and as many rows as the scan admitted), and the run returns,
    the counts of the summary add up to the number of admitted rows. *)
Theorem dated_rows_are_all_counted (fs : gmap string (list table))
    (dataset : list table) (cs : gmap key nat) :
  (forall raw b tbl, In raw dataset ->
                     scan_batch target_schema raw = Ok b ->
                     _cast_to_schema b target_schema = Ok tbl ->
                     dated tbl /\ num_rows tbl = num_rows b) ->
  snd (split_asset_ctxs_by_coin_month fs dataset) = Ok cs ->
  total cs = admitted dataset.
Proof.
  intros Hnorm. rewrite split_run. simpl.
  destruct (forM_ per_batch dataset (init fs)) as [st1 [[]|e]] eqn:Hbody; simpl;
    [|discriminate].
  intros [= <-].
  apply (forM_total _ (fun raw => match scan_batch target_schema raw with
                                  | Ok b => num_rows b
                                  | Err _ => O
                                  end)) in Hbody.
  - rewrite Hbody. reflexivity.
  - intros raw s0 s1 Hin Hs. apply per_batch_total; [|exact Hs].
    intros b tbl. apply Hnorm. exact Hin.
Qed.

End Run.

Lemma reference_conv_date_int (v v' : scalar) :
  Reference.conv t_date32 ts_ns v = Some v' -> exists z, v' = s_int z.
Proof.
  unfold ts_ns. destruct v; simpl; try discriminate.
  destruct (Reference.in_int64 _); [|discriminate]. intros [= <-]. eauto.
Qed.

(** The three dated rows of [Reference.three_coins] are all counted. *)
Lemma three_dated_rows_are_counted :
  exists cs : gmap key nat,
    snd (Reference.run 1000000 64 true Reference.no_close_fails Reference.three_coins)
    = Ok cs
    /\ total cs = 3%nat.
Proof.
  destruct (snd (Reference.run 1000000 64 true Reference.no_close_fails
                   Reference.three_coins)) as [cs|e] eqn:Hrun;
    [|vm_compute in Hrun; discriminate].
  exists cs. split; [reflexivity|].
  unfold Reference.run in Hrun.
  rewrite (dated_rows_are_all_counted Reference.castable Reference.conv
             Reference.common Reference.utc "out" 1000000 Reference.DEFAULT_SCHEMA
             true 64 Reference.no_close_fails reference_conv_date_int
             ∅ Reference.three_coins cs); [vm_compute; reflexivity| |exact Hrun].
  intros raw b tbl [<-|[]] Hb Hc.
  vm_compute in Hb. injection Hb as <-.
  vm_compute in Hc. injection Hc as <-.
  split; [|reflexivity].
  eexists _, _. split; [vm_compute; reflexivity|]. split; [vm_compute; reflexivity|].
  split; [reflexivity|]. split; [reflexivity|].
  split; [repeat constructor; eexists; reflexivity|].
  split; [reflexivity|repeat constructor; eexists; reflexivity].
Qed.

End RebucketCounts.

(** * Further properties of the code *)

(** ** The string parsers *)

Module ParserFacts.
Import Arrow Normalizer Strptime.

Lemma list_ascii_app (s1 s2 : string) :
  list_ascii_of_string (String.append s1 s2)
  = list_ascii_of_string s1 ++ list_ascii_of_string s2.
Proof. induction s1 as [|c s1 IH]; simpl; [reflexivity|]. f_equal. exact IH. Qed.

(** A numeric offset as the second pattern wants it: a sign, two digits,
    a colon, two digits. *)
Definition is_offset (off : list ascii) : Prop :=
  exists sg d1 d2 d3 d4 : ascii,
    off = [sg; d1; d2; ":"%char; d3; d4]
    /\ (sg = "+"%char \/ sg = "-"%char)
    /\ is_digit d1 = true /\ is_digit d2 = true
    /\ is_digit d3 = true /\ is_digit d4 = true.

Lemma digit_not_Z (c : ascii) : is_digit c = true -> ascii_eqb c "Z" = false.
Proof.
  unfold is_digit, ascii_eqb. intros H.
  destruct (Ascii.eqb c "Z") eqn:He; [|reflexivity].
  apply Ascii.eqb_eq in He. subst c. vm_compute in H. discriminate.
Qed.

Lemma strip_with_offset (s off : list ascii) :
  is_offset off -> strip_offset (strip_Z (s ++ off)) = s.
Proof.
  intros (sg & d1 & d2 & d3 & d4 & -> & Hsg & H1 & H2 & H3 & H4).
  assert (Hrev : rev (s ++ [sg; d1; d2; ":"%char; d3; d4])
                 = d4 :: d3 :: ":"%char :: d2 :: d1 :: sg :: rev s).
  { rewrite rev_app_distr. reflexivity. }
  unfold strip_Z. rewrite Hrev. rewrite (digit_not_Z _ H4).
  unfold strip_offset. rewrite Hrev. rewrite H1, H2, H3, H4.
  assert (Hs : (ascii_eqb sg "+" || ascii_eqb sg "-") = true).
  { destruct Hsg as [-> | ->]; reflexivity. }
  rewrite Hs. simpl. apply rev_involutive.
Qed.

(** The layouts tried on a text from which nothing more is stripped. *)
Definition parse_bare (s : list ascii) : option Z :=
  coalesce (map (fun fmt => strptime_ns fmt s) layouts).

(** X1: A trailing numeric UTC offset is thrown away, not applied, and
    only one suffix is stripped: a text with an offset gets what the
    four layouts give for the text before the offset as it stands,
    whatever the offset says.  So two texts which differ in their
    offsets only get the same result; and when the text before the
    offset has no [Z] or offset of its own at its end, this is what the
    parser gives for that text. *)
Theorem utc_offset_is_dropped_not_applied (s off1 off2 : string) :
  is_offset (list_ascii_of_string off1) ->
  is_offset (list_ascii_of_string off2) ->
  parse_row (String.append s off1) = parse_bare (list_ascii_of_string s)
  /\ parse_row (String.append s off1) = parse_row (String.append s off2)
  /\ (strip_offset (strip_Z (list_ascii_of_string s)) = list_ascii_of_string s ->
      parse_row (String.append s off1) = parse_row s).
Proof.
  intros H1 H2. unfold parse_row, parse_bare.
  rewrite !list_ascii_app, !strip_with_offset by assumption.
  split; [reflexivity|]. split; [reflexivity|].
  intros ->. reflexivity.
Qed.

Lemma offsets_of_the_example :
  is_offset (list_ascii_of_string "+05:30") /\ is_offset (list_ascii_of_string "-08:00").
Proof.
  split.
  - exists "+"%char, "0"%char, "5"%char, "3"%char, "0"%char. simpl. auto 10.
  - exists "-"%char, "0"%char, "8"%char, "0"%char, "0"%char. simpl. auto 10.
Defined.

Lemma utc_offset_is_dropped_witness :
  parse_row "2024-08-01T09:30:00+05:30" = Some 1722504600000000000
  /\ parse_row "2024-08-01T09:30:00+05:30" = parse_row "2024-08-01T09:30:00-08:00"
  /\ parse_row "2024-08-01T09:30:00+05:30" = parse_row "2024-08-01T09:30:00".
Proof.
  destruct (utc_offset_is_dropped_not_applied "2024-08-01T09:30:00" "+05:30" "-08:00"
              (proj1 offsets_of_the_example) (proj2 offsets_of_the_example))
    as (Ha & Hb & Hc).
  split; [etransitivity; [exact Ha|vm_compute; reflexivity]|].
  split; [exact Hb|]. apply Hc. vm_compute. reflexivity.
Defined.

(** The text before the offset is not stripped again: with a [Z] before
    the offset the parser gives a null, although the text up to the [Z]
    parses. *)
Lemma only_one_suffix_is_stripped :
  parse_row "2024-08-01T09:30:00Z+05:30" = None
  /\ parse_row "2024-08-01T09:30:00Z" = Some 1722504600000000000.
Proof. split; vm_compute; reflexivity. Qed.

(** *** Dates *)

Definition no_T_or_space (s : list ascii) : Prop :=
  Forall (fun c => ascii_eqb c "T" || ascii_eqb c " " = false) s.

Lemma strip_time_none (d : list ascii) : no_T_or_space d -> strip_time d = d.
Proof.
  induction 1 as [|c d Hc _ IH]; simpl; [reflexivity|].
  rewrite Hc. simpl. f_equal. exact IH.
Qed.

Lemma strip_time_cut (d rest : list ascii) (c : ascii) :
  no_T_or_space d ->
  ascii_eqb c "T" || ascii_eqb c " " = true ->
  has_newline rest = false ->
  strip_time (d ++ c :: rest) = d.
Proof.
  intros Hd Hc Hr. induction Hd as [|x d Hx _ IH]; simpl.
  - rewrite Hc, Hr. reflexivity.
  - rewrite Hx. simpl. f_equal. exact IH.
Qed.

(** X2: The date parser looks at nothing after the first [T] or space of a
    one-line text: a date followed by a time of day, or by anything
    else, parses like the date alone. *)
Theorem date_parser_ignores_time_of_day (d rest : string) (c : ascii) :
  no_T_or_space (list_ascii_of_string d) ->
  c = "T"%char \/ c = " "%char ->
  has_newline (list_ascii_of_string rest) = false ->
  parse_date_row (String.append d (String c rest)) = parse_date_row d.
Proof.
  intros Hd Hc Hr. unfold parse_date_row.
  rewrite list_ascii_app. simpl.
  rewrite strip_time_cut, strip_time_none; auto.
  destruct Hc as [-> | ->]; reflexivity.
Qed.

Lemma date_parser_ignores_time_of_day_witness :
  parse_date_row "2024-08-01T09:30:00" = parse_date_row "2024-08-01"
  /\ parse_date_row "2024-08-01" = Some (19936 * 86400 * 1000000000).
Proof.
  split; [|vm_compute; reflexivity].
  apply (date_parser_ignores_time_of_day "2024-08-01" "09:30:00" "T"%char).
  - repeat constructor.
  - left. reflexivity.
  - reflexivity.
Defined.

End ParserFacts.

(** ** Texts cut at a character *)

Module TextFacts.

Definition chars (s : string) : list ascii := list_ascii_of_string s.

Lemma chars_app (s1 s2 : string) : chars (String.append s1 s2) = chars s1 ++ chars s2.
Proof. induction s1 as [|c s1 IH]; simpl; [reflexivity|]. f_equal. exact IH. Qed.

Lemma chars_inj (s1 s2 : string) : chars s1 = chars s2 -> s1 = s2.
Proof.
  intros H. rewrite <- (string_of_list_ascii_of_string s1), <- (string_of_list_ascii_of_string s2).
  unfold chars in H. rewrite H. reflexivity.
Qed.

(** A text is cut in one way only at the first place of a character. *)
Lemma cut_at_first (a : ascii) (x x' r r' : list ascii) :
  ~ In a x -> ~ In a x' ->
  x ++ a :: r = x' ++ a :: r' -> x = x' /\ r = r'.
Proof.
  revert x'. induction x as [|c x IH]; intros [|c' x'] Hx Hx'; simpl.
  - intros [= ->]. auto.
  - intros [= <- _]. exfalso. apply Hx'. left. reflexivity.
  - intros [= -> _]. exfalso. apply Hx. left. reflexivity.
  - intros [= -> H]. destruct (IH x') as [-> ->]; auto.
    + intros Hin. apply Hx. right. exact Hin.
    + intros Hin. apply Hx'. right. exact Hin.
Qed.

(** And in one way only at its last place. *)
Lemma cut_at_last (a : ascii) (x x' r r' : list ascii) :
  ~ In a r -> ~ In a r' ->
  x ++ a :: r = x' ++ a :: r' -> x = x' /\ r = r'.
Proof.
  intros Hr Hr' H. apply (f_equal (@rev ascii)) in H.
  rewrite !rev_app_distr in H. simpl in H. rewrite <- !app_assoc in H. simpl in H.
  apply cut_at_first in H; [|rewrite <- in_rev; assumption..].
  destruct H as [H1 H2]. split.
  - rewrite <- (rev_involutive x), <- (rev_involutive x'), H2. reflexivity.
  - rewrite <- (rev_involutive r), <- (rev_involutive r'), H1. reflexivity.
Qed.

(** A name that is one segment of a path, the way [out_dir / coin]
    takes it: not empty, not [.] and not [..], which pathlib drops or
    the file system resolves, and without a [/] or a NUL character.  On
    a file system that keeps names of different spelling apart, paths
    that differ in such a segment are different files. *)
Definition no_slash (s : string) : bool :=
  forallb (fun c => negb (Ascii.eqb c "/") && negb (Ascii.eqb c "000")) (chars s).

Definition is_plain (s : string) : bool :=
  negb (String.eqb s "") && negb (String.eqb s ".") && negb (String.eqb s "..")
  && no_slash s.

Lemma no_slash_spec (s : string) : no_slash s = true -> ~ In "/"%char (chars s).
Proof.
  unfold no_slash. rewrite forallb_forall. intros H Hin. specialize (H _ Hin).
  discriminate.
Qed.

Lemma is_plain_no_slash (s : string) : is_plain s = true -> no_slash s = true.
Proof. unfold is_plain. rewrite !andb_true_iff. tauto. Qed.

End TextFacts.

(** ** The normalizer on whole tables *)

Module NormalizerTables.
Import Arrow Normalizer NormalizerFacts.

Lemma filter_absent_name (x : string) (l : list (string * column)) :
  ~ In x (map fst l) ->
  List.filter (fun nc : string * column => String.eqb (fst nc) x) l = [].
Proof.
  induction l as [|[n c] l IH]; simpl; [reflexivity|].
  intros Hx. destruct (String.eqb n x) eqn:He.
  - apply String.eqb_eq in He. exfalso. apply Hx. left. exact He.
  - apply IH. intros H. apply Hx. right. exact H.
Qed.

(** With distinct column names, a column of the table is the one that
    its name gets. *)
Lemma getitem_unique (tbl : table) (name : string) (col : column) :
  List.NoDup (names tbl) -> In (name, col) (columns tbl) -> getitem tbl name = Ok col.
Proof.
  unfold getitem, names. induction (columns tbl) as [|[n c] l IH]; simpl; [tauto|].
  intros Hnd Hin. apply List.NoDup_cons_iff in Hnd. destruct Hnd as [Hn Hnd].
  destruct Hin as [[= -> ->]|Hin].
  - rewrite String.eqb_refl. rewrite (filter_absent_name name l Hn). reflexivity.
  - destruct (String.eqb n name) eqn:He.
    + apply String.eqb_eq in He. subst n. exfalso. apply Hn.
      apply (in_map fst) in Hin. exact Hin.
    + apply IH; assumption.
Qed.

Lemma getitem_column (tbl : table) (name : string) (col : column) :
  getitem tbl name = Ok col -> In (name, col) (columns tbl).
Proof.
  unfold getitem.
  destruct (List.filter _ (columns tbl)) as [|nc [|? ?]] eqn:Hf; try discriminate.
  intros [= <-].
  assert (Hin : In nc (List.filter (fun nc0 : string * column => String.eqb (fst nc0) name)
                         (columns tbl))) by (rewrite Hf; left; reflexivity).
  apply List.filter_In in Hin. destruct Hin as [Hin He].
  apply String.eqb_eq in He. destruct nc; simpl in *. subst. exact Hin.
Qed.

Section WithKernels.

Variable castable : dtype -> dtype -> bool.
Variable conv : dtype -> dtype -> scalar -> option scalar.
Variable common : dtype -> dtype -> option dtype.

#[local] Set Default Proof Using "Type".

Local Abbreviation cast := (Arrow.cast castable conv).
Local Abbreviation if_else := (Arrow.if_else castable conv common).
Local Abbreviation cast_field := (Normalizer.cast_field castable conv common).
Local Abbreviation _cast_to_schema := (Normalizer._cast_to_schema castable conv common).

(** *** Row counts *)

Lemma is_valid_length (c col : column) :
  is_valid c = is_valid col -> length (cvals c) = length (cvals col).
Proof.
  unfold is_valid. intros H. apply (f_equal (@length bool)) in H.
  rewrite !length_map in H. exact H.
Qed.

Lemma cast_length (col c : column) (t : dtype) :
  cast col t = Ok c -> length (cvals c) = length (cvals col).
Proof. intros H. apply is_valid_length. eapply cast_is_valid; eauto. Qed.

Lemma final_cast_length (col c : column) (t : dtype) :
  (if decide (ctype col = t) then Ok col else cast col t) = Ok c ->
  length (cvals c) = length (cvals col).
Proof.
  destruct (decide (ctype col = t)); [intros [= <-]; reflexivity|apply cast_length].
Qed.

Lemma parse_timestamp_length (col : column) :
  length (cvals (_parse_timestamp_ns_from_str col)) = length (cvals col).
Proof.
  unfold _parse_timestamp_ns_from_str. destruct (is_string (ctype col)); [|reflexivity].
  simpl. apply length_map.
Qed.

Lemma parse_date_length (col c : column) :
  _parse_date32_from_str castable conv col = Ok c ->
  length (cvals c) = length (cvals col).
Proof.
  unfold _parse_date32_from_str. destruct (is_string (ctype col)).
  - intros H. apply cast_length in H. rewrite H. simpl. apply length_map.
  - intros [= <-]. reflexivity.
Qed.

(** The array appended for a field that the input has is as long as the
    input's column. *)
Lemma cast_field_present_length (tbl : table) (f : field) (col c : column) :
  getitem tbl (fst f) = Ok col ->
  cast_field tbl f = Ok c ->
  length (cvals c) = length (cvals col).
Proof.
  intros Hget. unfold Normalizer.cast_field.
  rewrite (getitem_present _ _ _ Hget), Hget. simpl.
  destruct (is_timestamp (snd f)).
  { destruct (is_string (ctype col)); simpl.
    - intros H. apply final_cast_length in H. rewrite H. apply parse_timestamp_length.
    - destruct (is_tz_aware (ctype col)); simpl; [|apply final_cast_length].
      destruct (cast col ts_ns) as [col1|] eqn:H1; simpl; [|discriminate].
      intros H. apply final_cast_length in H. rewrite H. eapply cast_length; eauto. }
  destruct (is_date (snd f)).
  { destruct (is_string (ctype col)); simpl; [|apply final_cast_length].
    destruct (_parse_date32_from_str castable conv col) as [col1|] eqn:H1; simpl;
      [|discriminate].
    intros H. apply final_cast_length in H. rewrite H. eapply parse_date_length; eauto. }
  destruct (decide (ctype col = snd f)); [intros [= <-]; reflexivity|].
  destruct (cast col (snd f)) as [c0|] eqn:Hc.
  - intros [= <-]. eapply cast_length; eauto.
  - destruct (if_else _ _ _) as [x|] eqn:Hx; simpl; [|discriminate].
    intros H. apply cast_length in H. rewrite H.
    apply is_valid_length. eapply if_else_is_valid; eauto.
Qed.

Lemma cast_field_length (tbl : table) (f : field) (c : column) :
  table_wf tbl ->
  cast_field tbl f = Ok c ->
  length (cvals c) = num_rows tbl.
Proof.
  intros Hwf H.
  destruct (existsb (String.eqb (fst f)) (names tbl)) eqn:He.
  - destruct (getitem tbl (fst f)) as [col|e] eqn:Hget.
    + rewrite (cast_field_present_length _ _ _ _ Hget H).
      apply getitem_column in Hget. unfold table_wf in Hwf.
      rewrite List.Forall_forall in Hwf. apply (Hwf _ Hget).
    + unfold Normalizer.cast_field in H. rewrite He, Hget in H. discriminate.
  - unfold Normalizer.cast_field in H. rewrite He in H. injection H as <-.
    apply repeat_length.
Qed.

Lemma cast_to_schema_num_rows (tbl out : table) (schema : list field) :
  _cast_to_schema tbl schema = Ok out ->
  num_rows out = match columns out with
                 | nc :: _ => length (cvals (snd nc))
                 | [] => O
                 end.
Proof.
  unfold Normalizer._cast_to_schema, from_arrays.
  destruct (mapM _ schema) as [cols|] eqn:Hm; simpl; [|discriminate].
  destruct (sanitize_arrays _ _ _ _) as [ncs|] eqn:Hs; simpl; [|discriminate].
  intros [= <-]. simpl.
  apply mapM_Forall2 in Hm.
  destruct Hm as [|f c schema cols Hf Hm]; simpl in Hs.
  - injection Hs as <-. reflexivity.
  - rewrite (cast_same castable conv c (snd f) (cast_field_type _ _ _ _ _ _ Hf)) in Hs.
    simpl in Hs.
    destruct (sanitize_arrays _ _ _ _) as [rest|]; simpl in Hs; [|discriminate].
    injection Hs as <-. reflexivity.
Qed.

Lemma normalized_lengths (tbl out : table) (schema : list field) :
  table_wf tbl ->
  _cast_to_schema tbl schema = Ok out ->
  Forall (fun nc => length (cvals (snd nc)) = num_rows tbl) (columns out).
Proof.
  intros Hwf H. apply cast_to_schema_columns in H.
  induction H as [|f nc sch ncs [_ Hf] _ IH]; [constructor|].
  constructor; [|exact IH]. eapply cast_field_length; eauto.
Qed.

Lemma normalized_rows (tbl out : table) (schema : list field) :
  table_wf tbl ->
  _cast_to_schema tbl schema = Ok out ->
  num_rows out = match schema with
                 | [] => O
                 | _ :: _ => num_rows tbl
                 end.
Proof.
  intros Hwf H. rewrite (cast_to_schema_num_rows _ _ _ H).
  pose proof (normalized_lengths _ _ _ Hwf H) as Hlen.
  apply cast_to_schema_columns in H.
  destruct H as [|f nc sch ncs _ _]; [reflexivity|].
  apply List.Forall_cons_iff in Hlen. tauto.
Qed.

(** X3: The normalized table has the rows of its input: it is well formed,
    all its columns having the input's row count, which is also its own
    unless the target schema is empty (a table without columns has no
    rows). *)
Theorem cast_to_schema_keeps_row_count (tbl out : table) (target_schema : list field) :
  table_wf tbl ->
  _cast_to_schema tbl target_schema = Ok out ->
  table_wf out
  /\ Forall (fun nc => length (cvals (snd nc)) = num_rows tbl) (columns out)
  /\ num_rows out = match target_schema with
                    | [] => O
                    | _ :: _ => num_rows tbl
                    end.
Proof.
  intros Hwf H.
  pose proof (normalized_lengths _ _ _ Hwf H) as Hlen.
  pose proof (normalized_rows _ _ _ Hwf H) as Hrows.
  split; [|split; assumption].
  unfold table_wf. rewrite (cast_to_schema_num_rows _ _ _ H).
  destruct (columns out) as [|nc ncs]; [constructor|].
  apply List.Forall_cons_iff in Hlen. destruct Hlen as [H1 H2].
  rewrite H1. constructor; [exact H1|exact H2].
Qed.

(** The schema of the normalized table is the target schema. *)
Lemma normalized_schema (tbl out : table) (schema : list field) :
  _cast_to_schema tbl schema = Ok out -> schema_of out = schema.
Proof.
  intros H. apply cast_to_schema_columns in H. unfold schema_of.
  induction H as [|f nc sch ncs [Hn Hf] _ IH]; simpl; [reflexivity|].
  f_equal; [|exact IH]. apply cast_field_type in Hf. destruct f; simpl in *. congruence.
Qed.

(** *** Columns that already conform, and idempotence *)

(** A column that has its field's type already is appended as it is
    (for a target type without a zone: with one, lines 111-113 take the
    zone off and line 116 puts it back, through two casts). *)
Lemma cast_field_conforming (tbl : table) (f : field) (col : column) :
  getitem tbl (fst f) = Ok col ->
  ctype col = snd f ->
  is_tz_aware (snd f) = false ->
  cast_field tbl f = Ok col.
Proof.
  intros Hget Ht Htz. unfold Normalizer.cast_field.
  rewrite (getitem_present _ _ _ Hget), Hget. simpl. rewrite Ht, Htz.
  destruct (is_timestamp (snd f)) eqn:Hts.
  { assert (Hs : is_string (snd f) = false) by (destruct (snd f); simpl in *; congruence).
    rewrite Hs. simpl. rewrite Ht.
    destruct (decide (snd f = snd f)); [reflexivity|contradiction]. }
  destruct (is_date (snd f)) eqn:Hd.
  { assert (Hs : is_string (snd f) = false) by (destruct (snd f); simpl in *; congruence).
    rewrite Hs. simpl. rewrite Ht.
    destruct (decide (snd f = snd f)); [reflexivity|contradiction]. }
  destruct (decide (snd f = snd f)); [reflexivity|contradiction].
Qed.

Lemma columns_paired (tbl out : table) (schema : list field) (f : field) :
  _cast_to_schema tbl schema = Ok out ->
  In f schema ->
  exists c : column, In (fst f, c) (columns out) /\ cast_field tbl f = Ok c.
Proof.
  intros H Hin. apply cast_to_schema_columns in H.
  induction H as [|f0 nc schema ncs [Hn Hf] _ IH]; simpl in *; [contradiction|].
  destruct Hin as [->|Hin].
  - exists (snd nc). split; [left; destruct nc; simpl in *; congruence|exact Hf].
  - destruct (IH Hin) as (c & Hc & Hfc). exists c. auto.
Qed.

(** X4: Normalizing leaves a conforming column untouched: a column of the
    input whose type is the one the schema asks for under its name is,
    element for element, the column of the output. *)
Theorem conforming_columns_pass_through (tbl out : table) (target_schema : list field)
    (name : string) (t : dtype) (col : column) :
  _cast_to_schema tbl target_schema = Ok out ->
  In (name, t) target_schema ->
  getitem tbl name = Ok col ->
  ctype col = t ->
  is_tz_aware t = false ->
  In (name, col) (columns out).
Proof.
  intros H Hin Hget Ht Htz.
  destruct (columns_paired _ _ _ _ H Hin) as (c & Hc & Hf).
  rewrite (cast_field_conforming tbl (name, t) col Hget Ht Htz) in Hf.
  injection Hf as <-. exact Hc.
Qed.

Lemma Forall2_mapM {A B} (f : A -> result B) (l : list A) (l' : list B) :
  Forall2 (fun a b => f a = Ok b) l l' -> mapM f l = Ok l'.
Proof.
  induction 1 as [|a b l l' Hab _ IH]; simpl; [reflexivity|].
  rewrite Hab, IH. reflexivity.
Qed.

Lemma sanitize_same (schema : list field) (ncs : list (string * column)) :
  Forall2 (fun (f : field) (nc : string * column) =>
             fst nc = fst f /\ ctype (snd nc) = snd f) schema ncs ->
  sanitize_arrays castable conv (map snd ncs) schema = Ok ncs.
Proof.
  induction 1 as [|f nc schema ncs [Hn Ht] _ IH]; simpl; [reflexivity|].
  rewrite (cast_same castable conv _ _ Ht), IH. simpl.
  destruct nc; simpl in *. congruence.
Qed.

Lemma conforming_again (out : table) (schema : list field) (ncs : list (string * column)) :
  List.NoDup (names out) ->
  (forall nc, In nc ncs -> In nc (columns out)) ->
  Forall (fun f : field => is_tz_aware (snd f) = false) schema ->
  Forall2 (fun (f : field) (nc : string * column) =>
             fst nc = fst f /\ ctype (snd nc) = snd f) schema ncs ->
  Forall2 (fun (f : field) (c : column) => cast_field out f = Ok c) schema (map snd ncs).
Proof.
  intros Hnd Hin Htz Hconf. induction Hconf as [|f nc schema ncs [Hn Ht] _ IH]; simpl;
    [constructor|].
  apply List.Forall_cons_iff in Htz. destruct Htz as [Hf Htz].
  constructor.
  - apply cast_field_conforming; [|exact Ht|exact Hf].
    apply getitem_unique; [exact Hnd|].
    rewrite <- Hn. destruct nc; simpl. apply Hin. left. reflexivity.
  - apply IH; [|exact Htz]. intros nc0 H0. apply Hin. right. exact H0.
Qed.

(** X5: [_cast_to_schema] is idempotent: a table that it returned goes
    through it unchanged, for a schema whose names are distinct and
    whose timestamps have no zone. *)
Theorem cast_to_schema_idempotent (tbl out : table) (target_schema : list field) :
  List.NoDup (map fst target_schema) ->
  Forall (fun f : field => is_tz_aware (snd f) = false) target_schema ->
  _cast_to_schema tbl target_schema = Ok out ->
  _cast_to_schema out target_schema = Ok out.
Proof.
  intros Hnd Htz H.
  pose proof (cast_to_schema_num_rows _ _ _ H) as Hn.
  pose proof (cast_to_schema_columns _ _ _ _ _ _ H) as Hcols.
  assert (Hnames : names out = map fst target_schema).
  { unfold names. clear -Hcols.
    induction Hcols as [|f nc schema ncs [Hf _] _ IH]; simpl; congruence. }
  assert (Hconf : Forall2 (fun (f : field) (nc : string * column) =>
                             fst nc = fst f /\ ctype (snd nc) = snd f)
                    target_schema (columns out)).
  { clear -Hcols. induction Hcols as [|f nc schema ncs [Hn Hf] _ IH]; [constructor|].
    constructor; [|exact IH]. split; [exact Hn|]. eapply cast_field_type; eauto. }
  assert (Hagain : Forall2 (fun (f : field) (c : column) => cast_field out f = Ok c)
                     target_schema (map snd (columns out))).
  { rewrite <- Hnames in Hnd.
    apply (conforming_again out); auto. }
  unfold Normalizer._cast_to_schema. rewrite (Forall2_mapM _ _ _ Hagain). simpl.
  unfold from_arrays. rewrite (sanitize_same _ _ Hconf). simpl.
  destruct out as [ncs n]. simpl in *. f_equal. rewrite Hn.
  destruct ncs; reflexivity.
Qed.

(** *** Nulls *)

(** Element for element, a null of the first list is a null of the
    second. *)
Definition keeps_nulls (l l' : list (option scalar)) : Prop :=
  Forall2 (fun o o' => o = None -> o' = None) l l'.

Lemma is_valid_keeps_nulls (l l' : list (option scalar)) :
  map valid_elem l' = map valid_elem l -> keeps_nulls l l'.
Proof.
  revert l'. induction l as [|o l IH]; intros [|o' l'] H; try discriminate; [constructor|].
  simpl in H. injection H as Ho H. constructor; [|apply IH; exact H].
  intros ->. destruct o'; [discriminate|reflexivity].
Qed.

Lemma keeps_nulls_trans (l1 l2 l3 : list (option scalar)) :
  keeps_nulls l1 l2 -> keeps_nulls l2 l3 -> keeps_nulls l1 l3.
Proof.
  intros H. revert l3. induction H as [|a b l1 l2 Hab _ IH]; intros l3 H23.
  - inversion H23. constructor.
  - inversion H23 as [|b' c l2' l3' Hbc H23']; subst.
    constructor; [intros Ha; auto|apply IH; exact H23'].
Qed.

Lemma cast_keeps_nulls (col c : column) (t : dtype) :
  cast col t = Ok c -> keeps_nulls (cvals col) (cvals c).
Proof. intros H. apply is_valid_keeps_nulls. eapply cast_is_valid; eauto. Qed.

Lemma final_cast_valid (col c : column) (t : dtype) :
  (if decide (ctype col = t) then Ok col else cast col t) = Ok c ->
  is_valid c = is_valid col.
Proof.
  destruct (decide (ctype col = t)); [intros [= <-]; reflexivity|apply cast_is_valid].
Qed.

Lemma parsed_keeps_nulls (g : string -> option Z) (l : list (option scalar)) :
  keeps_nulls l
    (map (fun o => match o with
                   | Some (s_str s) => option_map s_int (g s)
                   | _ => None
                   end) l).
Proof.
  induction l as [|o l IH]; simpl; constructor; [|exact IH].
  intros ->. reflexivity.
Qed.

(** X6: The normalizer makes no value out of a null: in every column that
    it takes from the input, the elements that were null are null in
    the output.  It is only when it parses text into a timestamp or a
    date that a valid element can become a null (text that no layout
    matches); in every other case the validity of the column is that of
    the input, element for element. *)
Theorem cast_to_schema_keeps_nulls (tbl out : table) (target_schema : list field)
    (name : string) (t : dtype) (col : column) :
  _cast_to_schema tbl target_schema = Ok out ->
  In (name, t) target_schema ->
  getitem tbl name = Ok col ->
  exists c : column,
    In (name, c) (columns out)
    /\ ctype c = t
    /\ keeps_nulls (cvals col) (cvals c)
    /\ (is_string (ctype col) = false \/ (is_timestamp t = false /\ is_date t = false) ->
        is_valid c = is_valid col).
Proof.
  intros H Hin Hget.
  destruct (columns_paired _ _ _ _ H Hin) as (c & Hc & Hf). simpl in *.
  exists c. split; [exact Hc|]. split; [apply (cast_field_type _ _ _ _ _ _ Hf)|].
  clear H Hin Hc. revert Hf. unfold Normalizer.cast_field. simpl.
  rewrite (getitem_present _ _ _ Hget), Hget. simpl.
  destruct (is_timestamp t) eqn:Hts.
  { destruct (is_string (ctype col)) eqn:Hs; simpl.
    - intros Hf. apply final_cast_valid in Hf. split.
      + eapply keeps_nulls_trans; [|apply is_valid_keeps_nulls; exact Hf].
        unfold _parse_timestamp_ns_from_str. rewrite Hs. simpl. apply parsed_keeps_nulls.
      + intros [Hn|[Hn _]]; discriminate.
    - destruct (is_tz_aware (ctype col)); simpl.
      + destruct (cast col ts_ns) as [col1|] eqn:H1; simpl; [|discriminate].
        intros Hf. apply final_cast_valid in Hf. apply cast_is_valid in H1.
        assert (Hv : is_valid c = is_valid col) by congruence.
        split; [apply is_valid_keeps_nulls; exact Hv|intros _; exact Hv].
      + intros Hf. apply final_cast_valid in Hf.
        split; [apply is_valid_keeps_nulls; exact Hf|intros _; exact Hf]. }
  destruct (is_date t) eqn:Hd.
  { destruct (is_string (ctype col)) eqn:Hs; simpl.
    - unfold _parse_date32_from_str. rewrite Hs.
      match goal with
      | |- context [cast ?d t_date32] => destruct (cast d t_date32) as [col1|] eqn:H1
      end; simpl; [|discriminate].
      intros Hf. apply final_cast_valid in Hf. apply cast_keeps_nulls in H1. simpl in H1.
      split.
      + eapply keeps_nulls_trans; [apply parsed_keeps_nulls|].
        eapply keeps_nulls_trans; [exact H1|]. apply is_valid_keeps_nulls. exact Hf.
      + intros [Hn|[_ Hn]]; discriminate.
    - intros Hf. apply final_cast_valid in Hf.
      split; [apply is_valid_keeps_nulls; exact Hf|intros _; exact Hf]. }
  assert (Hv : (if decide (ctype col = t) then Ok col
                else match cast col t with
                     | Ok c0 => Ok c0
                     | Err _ =>
                         let* x := if_else (is_valid col) col (nulls (length (cvals col)) t) in
                         cast x t
                     end) = Ok c -> is_valid c = is_valid col).
  { destruct (decide (ctype col = t)); [intros [= <-]; reflexivity|].
    destruct (cast col t) as [c0|] eqn:Hc0.
    - intros [= <-]. eapply cast_is_valid; eauto.
    - destruct (if_else _ _ _) as [x|] eqn:Hx; simpl; [|discriminate].
      intros Hf. apply cast_is_valid in Hf. rewrite Hf.
      eapply if_else_is_valid; eauto. }
  intros Hf. apply Hv in Hf.
  split; [apply is_valid_keeps_nulls; exact Hf|intros _; exact Hf].
Qed.

End WithKernels.

Lemma cast_to_schema_keeps_row_count_witness :
  exists out : table,
    _cast_to_schema Reference.castable Reference.conv Reference.common
      Reference.drifted Reference.DEFAULT_SCHEMA = Ok out
    /\ table_wf out
    /\ num_rows out = num_rows Reference.drifted.
Proof.
  eexists. split; [vm_compute; reflexivity|].
  assert (Hwf : table_wf Reference.drifted) by (repeat constructor).
  destruct (cast_to_schema_keeps_row_count Reference.castable Reference.conv
              Reference.common Reference.drifted _ Reference.DEFAULT_SCHEMA Hwf eq_refl)
    as (H1 & _ & H3).
  split; [exact H1|exact H3].
Defined.

Lemma conforming_columns_pass_through_witness :
  exists out : table,
    _cast_to_schema Reference.castable Reference.conv Reference.common
      Reference.drifted Reference.DEFAULT_SCHEMA = Ok out
    /\ In ("coin"%string,
           mkColumn t_string [Some (s_str "BTC"); Some (s_str "ETH")]) (columns out).
Proof.
  eexists. split; [vm_compute; reflexivity|].
  apply (conforming_columns_pass_through Reference.castable Reference.conv
           Reference.common Reference.drifted _ Reference.DEFAULT_SCHEMA "coin" t_string).
  - vm_compute. reflexivity.
  - right. left. reflexivity.
  - reflexivity.
  - reflexivity.
  - reflexivity.
Defined.

Lemma default_schema_names_distinct : List.NoDup (map fst Reference.DEFAULT_SCHEMA).
Proof.
  simpl. repeat (apply List.NoDup_cons; [simpl; intuition discriminate|]).
  apply List.NoDup_nil.
Defined.

Lemma cast_to_schema_idempotent_witness :
  exists out : table,
    _cast_to_schema Reference.castable Reference.conv Reference.common
      Reference.drifted Reference.DEFAULT_SCHEMA = Ok out
    /\ _cast_to_schema Reference.castable Reference.conv Reference.common
         out Reference.DEFAULT_SCHEMA = Ok out.
Proof.
  eexists. split; [vm_compute; reflexivity|].
  apply (cast_to_schema_idempotent Reference.castable Reference.conv
           Reference.common Reference.drifted).
  - apply default_schema_names_distinct.
  - repeat constructor.
  - vm_compute. reflexivity.
Defined.

Lemma cast_to_schema_keeps_nulls_witness :
  exists (out : table) (c : column),
    _cast_to_schema Reference.castable Reference.conv Reference.common
      Reference.drifted Reference.DEFAULT_SCHEMA = Ok out
    /\ In ("time"%string, c) (columns out)
    /\ ctype c = ts_ns
    /\ keeps_nulls [Some (s_str "2024-08-01T09:30:00Z"); Some (s_str "not-a-date")]
                   (cvals c).
Proof.
  assert (H : exists out : table,
             _cast_to_schema Reference.castable Reference.conv Reference.common
               Reference.drifted Reference.DEFAULT_SCHEMA = Ok out)
    by (eexists; vm_compute; reflexivity).
  destruct H as [out H].
  destruct (cast_to_schema_keeps_nulls Reference.castable Reference.conv
              Reference.common Reference.drifted out Reference.DEFAULT_SCHEMA
              "time" ts_ns
              (mkColumn t_string
                 [Some (s_str "2024-08-01T09:30:00Z"); Some (s_str "not-a-date")])
              H ltac:(left; reflexivity) ltac:(vm_compute; reflexivity))
    as (c & H1 & H2 & H3 & _).
  exists out, c. split; [exact H|]. split; [exact H1|]. split; [exact H2|exact H3].
Defined.

End NormalizerTables.

(** ** Whole runs of the re-bucketer *)

Module RebucketRun.
Import Arrow Normalizer Rebucket RebucketFacts RebucketCounts TextFacts.

Lemma write_sizes_app (pre l : list event) :
  write_sizes (pre ++ l) = write_sizes l ++ write_sizes pre.
Proof. unfold write_sizes. rewrite omap_app, rev_app_distr. reflexivity. Qed.

(** An event that is no write. *)
Definition no_write (e : event) : Prop :=
  match e with
  | EvWrite _ _ => False
  | _ => True
  end.

Lemma write_sizes_no_write (pre l : list event) :
  Forall no_write pre -> write_sizes (pre ++ l) = write_sizes l.
Proof.
  intros H. rewrite write_sizes_app.
  assert (Hpre : write_sizes pre = []).
  { unfold write_sizes. induction H as [|e pre He _ IH]; [reflexivity|].
    destruct e; simpl in *; try contradiction; exact IH. }
  rewrite Hpre. apply app_nil_r.
Qed.

Lemma write_sizes_writes (w : handle) (ts : list table) (l : list event) :
  write_sizes (rev (map (write_event w) ts) ++ l) = write_sizes l ++ map num_rows ts.
Proof.
  rewrite write_sizes_app. f_equal. unfold write_sizes.
  induction ts as [|t ts IH]; [reflexivity|].
  simpl. rewrite omap_app, rev_app_distr. simpl. f_equal.
  rewrite <- IH. reflexivity.
Qed.

Lemma write_sizes_closes (close_fails : handle -> bool) (ws : list (key * handle))
    (l : list event) :
  write_sizes (rev (map (close_event close_fails) ws) ++ l) = write_sizes l.
Proof.
  apply write_sizes_no_write. apply Forall_rev.
  apply List.Forall_forall. intros e He. apply in_map_iff in He.
  destruct He as (kw & <- & _). exact I.
Qed.

Lemma preserves_lift_bind {A B} (P : state -> Prop) (r : result A) (k : A -> M B) :
  (forall a, r = Ok a -> preserves P (k a)) -> preserves P (mbind (lift r) k).
Proof.
  intros H st HP. unfold mbind, lift. destruct r as [a|e]; [apply H; auto|exact HP].
Qed.

Lemma preserves_after {A B} (P : state -> Prop) (R : A -> state -> Prop)
    (m : M A) (k : A -> M B) :
  preserves P m ->
  (forall st st1 a, P st -> m st = (st1, Ok a) -> R a st1) ->
  (forall a st1, P st1 -> R a st1 -> P (fst (k a st1))) ->
  preserves P (mbind m k).
Proof.
  intros Hm HR Hk st HP. unfold mbind.
  pose proof (Hm st HP) as H1. pose proof (HR st) as H2.
  destruct (m st) as [st1 [a|e]]; simpl in *; [|exact H1].
  apply Hk; [exact H1|]. eapply H2; eauto.
Qed.

Lemma schema_of_filter (t : table) (mask : list (option bool)) :
  schema_of (filter_table t mask) = schema_of t.
Proof. unfold schema_of, filter_table. simpl. rewrite map_map. reflexivity. Qed.

Lemma schema_of_slice (t : table) (offset len : Z) :
  schema_of (slice t offset len) = schema_of t.
Proof. unfold schema_of, slice. simpl. rewrite map_map. reflexivity. Qed.

Lemma in_closes (close_fails : handle -> bool) (ws : list (key * handle))
    (l : list event) (w : handle) :
  In (EvOpen w) (rev (map (close_event close_fails) ws) ++ l) -> In (EvOpen w) l.
Proof.
  intros H. apply in_app_or in H. destruct H as [H|H]; [exfalso|exact H].
  apply in_rev, in_map_iff in H. destruct H as (kw & H & _). discriminate.
Qed.

Section Run.

Variable castable : dtype -> dtype -> bool.
Variable conv : dtype -> dtype -> scalar -> option scalar.
Variable common : dtype -> dtype -> option dtype.
Variable tz_offset : string -> Z -> Z.
Variable out_dir : string.
Variable row_group_size : Z.
Variable target_schema : list field.
Variable overwrite : bool.
Variable max_open_writers : Z.
Variable close_fails : handle -> bool.

#[local] Set Default Proof Using "Type".

(** A lemma is about the parameters its statement names. *)
Ltac stated_vars :=
  try clear close_fails; try clear max_open_writers; try clear overwrite;
  try clear target_schema; try clear row_group_size; try clear out_dir;
  try clear tz_offset; try clear common; try clear conv; try clear castable.

Local Abbreviation _writer_for :=
  (Rebucket._writer_for out_dir overwrite max_open_writers close_fails).
Local Abbreviation out_path := (Rebucket.out_path out_dir).
Local Abbreviation write_row_groups := (Rebucket.write_row_groups row_group_size).
Local Abbreviation write_sub_batch :=
  (Rebucket.write_sub_batch out_dir row_group_size overwrite max_open_writers close_fails).
Local Abbreviation sub_batches :=
  (Rebucket.sub_batches out_dir row_group_size overwrite max_open_writers close_fails).
Local Abbreviation per_month :=
  (Rebucket.per_month out_dir row_group_size overwrite max_open_writers close_fails).
Local Abbreviation per_coin :=
  (Rebucket.per_coin castable conv tz_offset out_dir row_group_size overwrite
     max_open_writers close_fails).
Local Abbreviation per_batch :=
  (Rebucket.per_batch castable conv common tz_offset out_dir row_group_size
     target_schema overwrite max_open_writers close_fails).
Local Abbreviation split_asset_ctxs_by_coin_month :=
  (Rebucket.split_asset_ctxs_by_coin_month castable conv common tz_offset out_dir
     row_group_size target_schema overwrite max_open_writers close_fails).
Local Abbreviation _cast_to_schema := (Normalizer._cast_to_schema castable conv common).
Local Abbreviation prelude := (RebucketFacts.prelude out_dir overwrite).
Local Abbreviation files_cleared := (RebucketFacts.files_cleared out_dir overwrite).
Local Abbreviation new_writer := (RebucketFacts.new_writer out_dir).
Local Abbreviation at_capacity := (RebucketFacts.at_capacity max_open_writers).
Local Abbreviation row_group_slices := (RebucketFacts.row_group_slices row_group_size).
Local Abbreviation row_group_count := (RebucketFacts.row_group_count row_group_size).

(** *** Keys that are plain path segments *)

Definition plain_key (k : key) : bool := is_plain (fst k) && no_slash (snd k).

(** The paths of two keys with plain coins are spelled differently. *)
Lemma out_path_inj (coin m coin' m' : string) :
  no_slash coin = true -> no_slash coin' = true ->
  out_path coin m = out_path coin' m' -> coin = coin' /\ m = m'.
Proof.
  clear. intros Hc Hc' H. apply (f_equal chars) in H.
  unfold Rebucket.out_path in H. rewrite !chars_app in H.
  apply app_inv_head in H. simpl in H. injection H as H.
  apply cut_at_first in H; [|apply no_slash_spec; assumption..].
  destruct H as [H1 H2]. apply app_inv_tail in H2.
  split; apply chars_inj; assumption.
Qed.

(** The coin names that a batch holds once it is scanned and normalized:
    the values that [_writer_for] can get for [coin]. *)
Definition coins_of (raw : table) : list (option scalar) :=
  match scan_batch target_schema raw with
  | Ok b =>
      match _cast_to_schema b target_schema with
      | Ok tbl =>
          match getitem tbl "coin" with
          | Ok col => cvals col
          | Err _ => []
          end
      | Err _ => []
      end
  | Err _ => []
  end.

Definition plain_coin (o : option scalar) : bool :=
  match o with
  | Some (s_str c) => is_plain c
  | _ => true
  end.

Definition plain_coins (dataset : list table) : Prop :=
  forall raw : table, In raw dataset -> forallb plain_coin (coins_of raw) = true.

(** *** Invariants of the three loops

    An invariant [P] of the state that every routed sub-batch keeps is
    kept by the whole [try] block; the sub-batches are known to be
    non-empty and to satisfy any property [Q] that the normalized batch
    has and that filtering keeps. *)

Section Routed.

Variable P : state -> Prop.
Variable Q : table -> Prop.
Hypothesis Q_norm :
  forall b tbl : table, _cast_to_schema b target_schema = Ok tbl -> Q tbl.
Hypothesis Q_filter :
  forall (t : table) (mask : list (option bool)), Q t -> Q (filter_table t mask).
Hypothesis P_sub :
  forall (coin m : string) (t : table),
    Q t -> num_rows t <> O -> preserves P (write_sub_batch coin m t).

Lemma per_month_routed (coin : option scalar) (c_tbl : table) (months : column)
    (m : option scalar) :
  Q c_tbl -> preserves P (per_month coin c_tbl months m).
Proof using Type Q_filter P_sub.
  stated_vars.
  intros HQ. unfold Rebucket.per_month.
  destruct (_ =? _)%nat eqn:Hz; [apply preserves_ret|].
  destruct coin as [[]|]; try apply preserves_raise.
  destruct m as [[]|]; try apply preserves_raise.
  apply P_sub; [apply Q_filter; exact HQ|].
  apply Nat.eqb_neq in Hz. exact Hz.
Qed.

Lemma per_coin_routed (tbl : table) (coin_col : column) (coin : option scalar) :
  Q tbl -> preserves P (per_coin tbl coin_col coin).
Proof using Type Q_filter P_sub.
  stated_vars.
  intros HQ. unfold Rebucket.per_coin. destruct (_ =? _)%nat; [apply preserves_ret|].
  apply preserves_bind; [apply preserves_lift|intros date].
  apply preserves_bind.
  { destruct (_ && _); [apply preserves_lift|apply preserves_ret]. }
  intros base_date.
  apply preserves_bind; [apply preserves_lift|intros months].
  apply preserves_forM. intros m. apply per_month_routed. apply Q_filter. exact HQ.
Qed.

Lemma per_batch_routed (raw : table) : preserves P (per_batch raw).
Proof using Type Q_norm Q_filter P_sub.
  stated_vars.
  unfold Rebucket.per_batch.
  apply preserves_bind; [apply preserves_lift|intros rec_batch].
  apply preserves_lift_bind. intros tbl Htbl.
  destruct (_ =? _)%nat; [apply preserves_ret|].
  apply preserves_bind; [apply preserves_lift|intros coin_col].
  apply preserves_forM. intros coin. apply per_coin_routed. eapply Q_norm; eauto.
Qed.

Lemma try_block_routed (dataset : list table) :
  preserves P (forM_ per_batch dataset).
Proof using Type Q_norm Q_filter P_sub.
  stated_vars.
  apply preserves_forM. apply per_batch_routed.
Qed.

End Routed.

(** *** What a sub-batch is written as *)

(** The tables that lines 250-254 hand to [write_table] for a
    sub-batch. *)
Definition chunks (t : table) : list table :=
  if Z.of_nat (num_rows t) >? row_group_size then row_group_slices t else [t].

Lemma write_row_groups_chunks (w : handle) (t : table) (st : state) :
  1 <= row_group_size ->
  write_row_groups w t st
  = (mkState (writers st) (counts st)
       (<[h_path w := default [] (files st !! h_path w) ++ chunks t]> (files st))
       (next_id st)
       (rev (map (write_event w) (chunks t)) ++ log st), Ok tt).
Proof.
  stated_vars.
  intros Hr. unfold chunks.
  destruct (Z.of_nat (num_rows t) >? row_group_size) eqn:Hgt.
  - apply write_row_groups_run; [exact Hr|]. apply Z.gtb_lt in Hgt. lia.
  - unfold Rebucket.write_row_groups. rewrite Hgt. reflexivity.
Qed.

Lemma slice_rows (t : table) (i : nat) :
  1 <= row_group_size ->
  num_rows (slice t (Z.of_nat i * row_group_size) row_group_size)
  = Nat.min (Z.to_nat row_group_size) (num_rows t - i * Z.to_nat row_group_size).
Proof. stated_vars. intros Hr. simpl. rewrite (to_nat_start _ i Hr). reflexivity. Qed.

Lemma slices_rows_sum (t : table) (c : nat) :
  1 <= row_group_size ->
  list_sum (map (fun i => num_rows (slice t (Z.of_nat i * row_group_size) row_group_size))
              (seq 0 c))
  = Nat.min (c * Z.to_nat row_group_size) (num_rows t).
Proof.
  stated_vars.
  intros Hr. induction c as [|c IH]; [reflexivity|].
  rewrite seq_S, map_app, list_sum_app, IH. cbn [map list_sum Nat.add].
  rewrite (slice_rows t c Hr). generalize (Z.to_nat row_group_size) as r. intros r.
  simpl. nia.
Qed.

(** The tables written for a sub-batch have, together, its rows. *)
Lemma chunks_rows (t : table) :
  1 <= row_group_size -> list_sum (map num_rows (chunks t)) = num_rows t.
Proof.
  stated_vars.
  intros Hr. unfold chunks. destruct (_ >? _); [|simpl; lia].
  unfold RebucketFacts.row_group_slices. rewrite map_map.
  rewrite (slices_rows_sum t _ Hr).
  destruct (row_group_count_covers row_group_size (num_rows t) Hr) as [Hc _]. lia.
Qed.

Lemma chunks_bounds (t : table) :
  1 <= row_group_size ->
  num_rows t <> O ->
  Forall (fun n => (1 <= n <= Z.to_nat row_group_size)%nat) (map num_rows (chunks t)).
Proof.
  stated_vars.
  intros Hr Hn. unfold chunks. destruct (_ >? _) eqn:Hgt.
  - unfold RebucketFacts.row_group_slices. rewrite map_map.
    apply List.Forall_forall. intros n Hin. apply in_map_iff in Hin.
    destruct Hin as (i & <- & Hi). apply in_seq in Hi.
    rewrite (slice_rows t i Hr).
    destruct (row_group_count_covers row_group_size (num_rows t) Hr) as [_ [Hc|Hc]];
      [|contradiction].
    assert (Hle : (i * Z.to_nat row_group_size
                   <= (row_group_count (num_rows t) - 1) * Z.to_nat row_group_size)%nat).
    { apply Nat.mul_le_mono_r. lia. }
    lia.
  - constructor; [|constructor]. rewrite Z.gtb_ltb in Hgt. apply Z.ltb_ge in Hgt. lia.
Qed.

(** [_writer_for] writes no table. *)
Lemma writer_for_write_sizes (coin m : string) (st : state) :
  write_sizes (log (fst (_writer_for coin m st))) = write_sizes (log st).
Proof.
  stated_vars.
  assert (Hpre : Forall no_write (prelude st coin m)).
  { unfold RebucketFacts.prelude. destruct (unlinks _ _ _ _ _); repeat constructor. }
  destruct (writer_for_cases max_open_writers st coin m)
    as [[w Hg]|[[Hg Hc]|[(Hg & Hc & k0 & w0 & ws' & Hws)|[Hws Hc]]]].
  - rewrite (writer_for_hit _ _ _ _ _ _ _ _ Hg). reflexivity.
  - rewrite (writer_for_admit _ _ _ _ _ _ _ Hg Hc). simpl.
    apply (write_sizes_no_write (EvOpen _ :: prelude st coin m)).
    constructor; [exact I|exact Hpre].
  - rewrite (writer_for_evict _ _ _ _ _ _ _ _ _ _ Hg Hc Hws). simpl.
    apply (write_sizes_no_write (EvOpen _ :: EvClose _ _ :: prelude st coin m)).
    repeat constructor. exact Hpre.
  - rewrite (writer_for_empty_full _ _ _ _ _ _ _ Hws Hc). simpl.
    apply write_sizes_no_write. exact Hpre.
Qed.

(** *** The summary counts the rows that were written *)

Definition counted_is_written (st : state) : Prop :=
  total (counts st) = list_sum (write_sizes (log st)).

Lemma write_sub_batch_counted (coin m : string) (t : table) :
  1 <= row_group_size ->
  preserves counted_is_written (write_sub_batch coin m t).
Proof.
  stated_vars.
  intros Hr st HP. unfold counted_is_written in *.
  pose proof (writer_for_counts out_dir overwrite max_open_writers close_fails coin m st)
    as Hc.
  pose proof (writer_for_write_sizes coin m st) as Hw.
  unfold Rebucket.write_sub_batch, mbind.
  destruct (_writer_for coin m st) as [st1 [w|e]]; simpl in Hc, Hw; [|simpl; congruence].
  rewrite (write_row_groups_chunks w t st1 Hr).
  unfold get, set_counts. simpl.
  rewrite total_add, write_sizes_writes, list_sum_app, chunks_rows by exact Hr.
  congruence.
Qed.

(** X7: With [row_group_size >= 1], at the end of every run, whether it
    returns or raises, the counts of the summary add up to the number
    of rows handed to [write_table]; a run that returns reports exactly
    the rows it wrote. *)
Theorem summary_counts_the_rows_written (fs : gmap string (list table))
    (dataset : list table) :
  1 <= row_group_size ->
  let final := split_asset_ctxs_by_coin_month fs dataset in
  total (counts (fst final)) = list_sum (write_sizes (log (fst final)))
  /\ (forall cs : gmap key nat,
        snd final = Ok cs -> total cs = list_sum (write_sizes (log (fst final)))).
Proof.
  stated_vars.
  intros Hr final.
  assert (H : total (counts (fst final)) = list_sum (write_sizes (log (fst final)))).
  { subst final. rewrite split_run. simpl. rewrite write_sizes_closes.
    apply (try_block_routed counted_is_written (fun _ => True)); auto.
    - intros coin m t _ _. apply write_sub_batch_counted. exact Hr.
    - unfold counted_is_written. reflexivity. }
  split; [exact H|].
  intros cs Hcs. rewrite <- H. subst final. rewrite split_run in *. simpl in *.
  destruct (snd (forM_ per_batch dataset (init fs))); [|discriminate].
  injection Hcs as <-. reflexivity.
Qed.

(** *** The size of the row groups *)

Definition writes_within (r : nat) (st : state) : Prop :=
  Forall (fun n => (1 <= n <= r)%nat) (write_sizes (log st)).

Lemma write_sub_batch_within (coin m : string) (t : table) :
  1 <= row_group_size ->
  num_rows t <> O ->
  preserves (writes_within (Z.to_nat row_group_size)) (write_sub_batch coin m t).
Proof.
  stated_vars.
  intros Hr Hn st HP. unfold writes_within in *.
  pose proof (writer_for_write_sizes coin m st) as Hw.
  unfold Rebucket.write_sub_batch, mbind.
  destruct (_writer_for coin m st) as [st1 [w|e]]; simpl in Hw; [|simpl; congruence].
  rewrite (write_row_groups_chunks w t st1 Hr).
  unfold get, set_counts. simpl.
  rewrite write_sizes_writes, Hw. apply Forall_app. split; [exact HP|].
  apply chunks_bounds; assumption.
Qed.

(** X8: With [row_group_size >= 1], every [write_table] of a run, whatever
    the data, is on a table that has at least one row and at most
    [row_group_size] rows. *)
Theorem every_write_is_a_row_group (fs : gmap string (list table)) (dataset : list table) :
  1 <= row_group_size ->
  Forall (fun n => (1 <= n <= Z.to_nat row_group_size)%nat)
    (write_sizes (log (fst (split_asset_ctxs_by_coin_month fs dataset)))).
Proof.
  stated_vars.
  intros Hr. rewrite split_run. simpl. rewrite write_sizes_closes.
  apply (try_block_routed (writes_within (Z.to_nat row_group_size)) (fun _ => True)); auto.
  - intros coin m t _ Hn. apply write_sub_batch_within; assumption.
  - constructor.
Qed.

(** *** A negative row-group size *)

Lemma write_row_groups_negative (w : handle) (t : table) (st : state) :
  row_group_size < 0 -> write_row_groups w t st = (st, Ok tt).
Proof.
  stated_vars.
  intros Hr. unfold Rebucket.write_row_groups.
  assert (Hgt : (Z.of_nat (num_rows t) >? row_group_size) = true)
    by (apply Z.gtb_lt; lia).
  rewrite Hgt. unfold py_range0.
  assert (H0 : (row_group_size =? 0) = false) by (apply Z.eqb_neq; lia).
  assert (H1 : (0 <? row_group_size) = false) by (apply Z.ltb_ge; lia).
  rewrite H0, H1.
  assert (Hlen : Z.to_nat ((- Z.of_nat (num_rows t) - 1) / - row_group_size + 1) = O).
  { assert ((- Z.of_nat (num_rows t) - 1) / - row_group_size < 0)
      by (apply Z.div_lt_upper_bound; lia).
    lia. }
  rewrite Hlen. reflexivity.
Qed.

(** Every file is empty, or is as the run found it. *)
Definition nothing_written (fs : gmap string (list table)) (st : state) : Prop :=
  write_sizes (log st) = []
  /\ forall (p : string) (ts : list table),
       files st !! p = Some ts -> ts = [] \/ fs !! p = Some ts.

Lemma files_cleared_Some (st : state) (coin m p : string) (ts : list table) :
  files_cleared st coin m !! p = Some ts -> files st !! p = Some ts.
Proof.
  stated_vars.
  unfold RebucketFacts.files_cleared. destruct (unlinks _ _ _ _ _); [|auto].
  intros H. apply lookup_delete_Some in H. tauto.
Qed.

Lemma writer_for_nothing_written (fs : gmap string (list table)) (coin m : string) :
  preserves (nothing_written fs) (_writer_for coin m).
Proof.
  stated_vars.
  intros st [Hw Hf]. split; [rewrite writer_for_write_sizes; exact Hw|].
  assert (Hopen : forall p ts,
             <[out_path coin m := []]> (files_cleared st coin m) !! p = Some ts ->
             ts = [] \/ fs !! p = Some ts).
  { intros p ts H. destruct (decide (out_path coin m = p)) as [<-|Hne].
    - rewrite lookup_insert_eq in H. injection H as <-. left. reflexivity.
    - rewrite lookup_insert_ne in H by exact Hne.
      apply files_cleared_Some in H. eauto. }
  destruct (writer_for_cases max_open_writers st coin m)
    as [[w Hg]|[[Hg Hc]|[(Hg & Hc & k0 & w0 & ws' & Hws)|[Hws Hc]]]].
  - rewrite (writer_for_hit _ _ _ _ _ _ _ _ Hg). exact Hf.
  - rewrite (writer_for_admit _ _ _ _ _ _ _ Hg Hc). exact Hopen.
  - rewrite (writer_for_evict _ _ _ _ _ _ _ _ _ _ Hg Hc Hws). exact Hopen.
  - rewrite (writer_for_empty_full _ _ _ _ _ _ _ Hws Hc). simpl.
    intros p ts H. apply files_cleared_Some in H. eauto.
Qed.

Lemma write_sub_batch_nothing_written (fs : gmap string (list table)) (coin m : string)
    (t : table) :
  row_group_size < 0 ->
  preserves (nothing_written fs) (write_sub_batch coin m t).
Proof.
  stated_vars.
  intros Hr. unfold Rebucket.write_sub_batch.
  apply preserves_bind; [apply writer_for_nothing_written|intros w].
  apply preserves_bind.
  { intros st H. rewrite (write_row_groups_negative w t st Hr). exact H. }
  intros _. apply preserves_bind; [apply preserves_get|intros cs].
  intros st H. exact H.
Qed.

(** X9: With a negative [row_group_size] every sub-batch counts as larger
    than a row group and [range(0, n, row_group_size)] is empty: a run
    makes no [write_table] call at all, and leaves every file empty or
    as it found it, whatever it reports in its summary. *)
Theorem negative_row_group_size_writes_nothing (fs : gmap string (list table))
    (dataset : list table) :
  row_group_size < 0 ->
  let final := split_asset_ctxs_by_coin_month fs dataset in
  write_sizes (log (fst final)) = []
  /\ (forall (p : string) (ts : list table),
        files (fst final) !! p = Some ts -> ts = [] \/ fs !! p = Some ts).
Proof.
  stated_vars.
  intros Hr final. subst final. rewrite split_run. simpl. rewrite write_sizes_closes.
  apply (try_block_routed (nothing_written fs) (fun _ => True)); auto.
  - intros coin m t _ _. apply write_sub_batch_nothing_written. exact Hr.
  - split; [reflexivity|]. simpl. eauto.
Qed.

(** *** The schema of what is written *)

Definition conforms (t : table) : Prop := schema_of t = target_schema.

(** Every table in a file that the run opened has the target schema. *)
Definition opened_conform (st : state) : Prop :=
  pool_wf st
  /\ forall (w : handle) (ts : list table),
       In (EvOpen w) (log st) -> files st !! h_path w = Some ts -> Forall conforms ts.

Lemma prelude_opens_nothing (st : state) (coin m : string) (w : handle) (l : list event) :
  In (EvOpen w) (prelude st coin m ++ l) -> In (EvOpen w) l.
Proof.
  stated_vars.
  intros H. apply in_app_or in H. destruct H as [H|H]; [exfalso|exact H].
  unfold RebucketFacts.prelude in H. destruct (unlinks _ _ _ _ _); simpl in H;
    intuition discriminate.
Qed.

Lemma writer_for_conform (coin m : string) :
  preserves opened_conform (_writer_for coin m).
Proof.
  stated_vars.
  intros st [Hwf Hf]. split; [apply writer_for_pool_wf; exact Hwf|].
  assert (Hopen : forall (pre : list event) w ts,
             (forall w', In (EvOpen w') pre -> False) ->
             In (EvOpen w) (EvOpen (new_writer st coin m) :: pre ++ prelude st coin m ++ log st) ->
             <[out_path coin m := []]> (files_cleared st coin m) !! h_path w = Some ts ->
             Forall conforms ts).
  { intros pre w ts Hpre Hor Hlk.
    destruct (decide (out_path coin m = h_path w)) as [Heq|Hne].
    - rewrite Heq, lookup_insert_eq in Hlk. injection Hlk as <-. constructor.
    - destruct Hor as [Hnew|Hin]; [injection Hnew as <-; contradiction Hne; reflexivity|].
      + rewrite lookup_insert_ne in Hlk by exact Hne. apply files_cleared_Some in Hlk.
        apply in_app_or in Hin. destruct Hin as [Hin|Hin]; [destruct (Hpre _ Hin)|].
        apply prelude_opens_nothing in Hin. eapply Hf; eauto. }
  destruct (writer_for_cases max_open_writers st coin m)
    as [[w Hg]|[[Hg Hc]|[(Hg & Hc & k0 & w0 & ws' & Hws)|[Hws Hc]]]].
  - rewrite (writer_for_hit _ _ _ _ _ _ _ _ Hg). exact Hf.
  - rewrite (writer_for_admit _ _ _ _ _ _ _ Hg Hc). simpl. intros w ts.
    apply (Hopen [] w ts). intros w' [].
  - rewrite (writer_for_evict _ _ _ _ _ _ _ _ _ _ Hg Hc Hws). simpl. intros w ts.
    apply (Hopen [EvClose w0 (close_fails w0)] w ts).
    intros w' [H|[]]. discriminate.
  - rewrite (writer_for_empty_full _ _ _ _ _ _ _ Hws Hc). simpl. intros w ts Hin H.
    apply prelude_opens_nothing in Hin. apply files_cleared_Some in H. eapply Hf; eauto.
Qed.

(** The writer that [_writer_for] returns was opened by the run. *)
Lemma writer_for_opened (coin m : string) (st st1 : state) (w : handle) :
  pool_wf st -> _writer_for coin m st = (st1, Ok w) -> In (EvOpen w) (log st1).
Proof.
  stated_vars.
  intros Hwf H.
  destruct (writer_for_cases max_open_writers st coin m)
    as [[w' Hg]|[[Hg Hc]|[(Hg & Hc & k0 & w0 & ws' & Hws)|[Hws Hc]]]].
  - rewrite (writer_for_hit _ _ _ _ _ _ _ _ Hg) in H. injection H as <- <-. simpl.
    apply open_handles_logged. apply (wf_open _ Hwf).
    apply od_get_In in Hg. apply (in_map snd) in Hg. exact Hg.
  - rewrite (writer_for_admit _ _ _ _ _ _ _ Hg Hc) in H. injection H as <- <-.
    left. reflexivity.
  - rewrite (writer_for_evict _ _ _ _ _ _ _ _ _ _ Hg Hc Hws) in H. injection H as <- <-.
    left. reflexivity.
  - rewrite (writer_for_empty_full _ _ _ _ _ _ _ Hws Hc) in H. discriminate.
Qed.

Lemma write_table_conform (w : handle) (t : table) :
  conforms t ->
  preserves (fun st => opened_conform st /\ In (EvOpen w) (log st)) (write_table w t).
Proof.
  stated_vars.
  intros Ht st [[Hwf Hf] Hw].
  assert (Hwf' : pool_wf (fst (write_table w t st))).
  { eapply (pool_wf_quiet st _ [EvWrite w (num_rows t)]); eauto. repeat constructor. }
  split; [split; [exact Hwf'|]|right; exact Hw]. clear Hwf'.
  destruct st as [ws cs fs0 n l]. simpl in Hf, Hw.
  cbv [write_table mbind get set_files emit fst files log].
  intros w' ts [H|Hin]; [discriminate|].
  destruct (decide (h_path w = h_path w')) as [Heq|Hne].
  - rewrite <- Heq, lookup_insert_eq. intros [= <-]. apply Forall_app. split.
    + destruct (fs0 !! h_path w) as [ts0|] eqn:H0; simpl; [|constructor].
      apply (Hf w ts0 Hw H0).
    + repeat constructor. exact Ht.
  - rewrite lookup_insert_ne by exact Hne. apply Hf. exact Hin.
Qed.

(** An invariant that the writes of the tables with a property keep is
    kept by the writes of a sub-batch whose slices have the property. *)
Lemma write_row_groups_on (P : state -> Prop) (Pt : table -> Prop) (w : handle) (t : table) :
  (forall t', Pt t' -> preserves P (write_table w t')) ->
  Pt t ->
  (forall offset len, Pt (slice t offset len)) ->
  preserves P (write_row_groups w t).
Proof.
  stated_vars.
  intros Hw Ht Hs. unfold Rebucket.write_row_groups. destruct (_ >? _).
  - apply preserves_bind; [apply preserves_lift|intros starts].
    apply preserves_forM. intros start. apply Hw. apply Hs.
  - apply Hw. exact Ht.
Qed.

Lemma write_sub_batch_conform (coin m : string) (t : table) :
  conforms t -> preserves opened_conform (write_sub_batch coin m t).
Proof.
  stated_vars.
  intros Ht. unfold Rebucket.write_sub_batch.
  apply (preserves_after opened_conform (fun w st => In (EvOpen w) (log st)));
    [apply writer_for_conform| |].
  - intros st st1 w [Hwf _] H. eapply writer_for_opened; eauto.
  - intros w st1 HP Hw.
    assert (HP' : preserves (fun st => opened_conform st /\ In (EvOpen w) (log st))
                    (do _ <- write_row_groups w t; do cs <- get counts;
                     set_counts
                       (<[(coin, m) := (default O (cs !! (coin, m)) + num_rows t)%nat]> cs))).
    { apply preserves_bind.
      - apply (write_row_groups_on _ conforms).
        + intros t' Ht'. apply write_table_conform. exact Ht'.
        + exact Ht.
        + intros offset len. unfold conforms. rewrite schema_of_slice. exact Ht.
      - intros _. apply preserves_bind; [apply preserves_get|intros cs].
        intros st [[Hwf Hf] Hop]. unfold set_counts. simpl.
        split; [split; [|exact Hf]|exact Hop].
        eapply (pool_wf_quiet st _ []); eauto. }
    apply (HP' st1). split; assumption.
Qed.

(** X10: Every table that a run appends to a file it opened has the target
    schema, names and types in order: what [write_table] gets is what
    the writer was created for. *)
Theorem written_tables_have_the_target_schema (fs : gmap string (list table))
    (dataset : list table) (w : handle) (ts : list table) :
  let final := split_asset_ctxs_by_coin_month fs dataset in
  In (EvOpen w) (log (fst final)) ->
  files (fst final) !! h_path w = Some ts ->
  Forall (fun t => schema_of t = target_schema) ts.
Proof.
  stated_vars.
  intros final. subst final. rewrite split_run. simpl. intros Hin Hlk.
  apply in_closes in Hin.
  assert (H : opened_conform (fst (forM_ per_batch dataset (init fs)))).
  { apply (try_block_routed opened_conform conforms).
    - intros b tbl Hc. apply (NormalizerTables.normalized_schema _ _ _ _ _ _ Hc).
    - intros t mask Ht. unfold conforms. rewrite schema_of_filter. exact Ht.
    - intros coin m t Ht _. apply write_sub_batch_conform. exact Ht.
    - split; [apply init_pool_wf|]. intros w0 ts0 []. }
  destruct H as [_ H]. eapply H; eauto.
Qed.



(** *** The files of the summary *)

(** Every key of the pool and every key of the summary has its file;
    and a pool without room never admits a writer. *)
Definition keys_have_files (st : state) : Prop :=
  (forall k : key, In k (map fst (writers st)) ->
                   is_Some (files st !! out_path (fst k) (snd k)))
  /\ (forall k : key, is_Some (counts st !! k) ->
                      is_Some (files st !! out_path (fst k) (snd k)))
  /\ (max_open_writers <= 0 -> writers st = [] /\ counts st = ∅).

Lemma files_after_open (st : state) (coin m p : string) :
  is_Some (files st !! p) ->
  is_Some (<[out_path coin m := []]> (files_cleared st coin m) !! p).
Proof.
  stated_vars.
  intros Hp. destruct (decide (out_path coin m = p)) as [<-|Hne].
  - rewrite lookup_insert_eq. eauto.
  - rewrite lookup_insert_ne by exact Hne.
    rewrite files_cleared_other by auto. exact Hp.
Qed.

Lemma writer_for_keys_have_files (coin m : string) :
  preserves keys_have_files (_writer_for coin m).
Proof.
  stated_vars.
  intros st (Hpool & Hcounts & Hidle). unfold keys_have_files.
  assert (Hroom : forall ws : list (key * handle),
             (Z.of_nat (length ws) >=? max_open_writers) = false -> 0 < max_open_writers).
  { intros ws H. rewrite Z.geb_leb in H. apply Z.leb_gt in H. lia. }
  destruct (writer_for_cases max_open_writers st coin m)
    as [[w Hg]|[[Hg Hc]|[(Hg & Hc & k0 & w0 & ws' & Hws)|[Hws Hc]]]].
  - rewrite (writer_for_hit _ _ _ _ _ _ _ _ Hg). simpl.
    split; [|split; [exact Hcounts|]].
    + intros k Hk. apply Hpool. unfold move_to_end in Hk. rewrite Hg in Hk.
      cbv beta iota in Hk.
      rewrite map_app, in_app_iff, od_remove_keys in Hk. simpl in Hk.
      destruct Hk as [Hk|[<-|[]]].
      * apply List.filter_In in Hk. tauto.
      * apply od_get_In in Hg. apply (in_map fst) in Hg. exact Hg.
    + intros HN. destruct (Hidle HN) as [Hws _]. rewrite Hws in Hg. discriminate.
  - rewrite (writer_for_admit _ _ _ _ _ _ _ Hg Hc). simpl.
    split; [|split].
    + intros k Hk. rewrite map_app, in_app_iff in Hk. simpl in Hk.
      destruct Hk as [Hk|[<-|[]]].
      * apply files_after_open. auto.
      * simpl. rewrite lookup_insert_eq. eauto.
    + intros k Hk. apply files_after_open. auto.
    + intros HN. apply Hroom in Hc. lia.
  - rewrite (writer_for_evict _ _ _ _ _ _ _ _ _ _ Hg Hc Hws). simpl.
    split; [|split].
    + intros k Hk. rewrite map_app, in_app_iff in Hk. simpl in Hk.
      destruct Hk as [Hk|[<-|[]]].
      * apply files_after_open. apply Hpool. rewrite Hws. right. exact Hk.
      * simpl. rewrite lookup_insert_eq. eauto.
    + intros k Hk. apply files_after_open. auto.
    + intros HN. destruct (Hidle HN) as [Hws0 _]. rewrite Hws0 in Hws. discriminate.
  - rewrite (writer_for_empty_full _ _ _ _ _ _ _ Hws Hc). simpl.
    assert (HN : max_open_writers <= 0).
    { unfold RebucketFacts.at_capacity in Hc. rewrite Hws in Hc. simpl in Hc.
      rewrite Z.geb_leb in Hc. apply Z.leb_le in Hc. exact Hc. }
    destruct (Hidle HN) as [_ Hcs].
    split; [intros k []|]. split; [|auto].
    intros k Hk. rewrite Hcs, lookup_empty in Hk. destruct Hk as [? Hk]. discriminate.
Qed.

Lemma write_table_keys_have_files (k : key) (w : handle) (t : table) :
  preserves (fun st => keys_have_files st /\ In k (map fst (writers st)))
    (write_table w t).
Proof.
  stated_vars.
  intros [ws cs fs0 n l] [(Hpool & Hcounts & Hidle) Hk].
  change (fst (write_table w t (mkState ws cs fs0 n l)))
    with (mkState ws cs (<[h_path w := default [] (fs0 !! h_path w) ++ [t]]> fs0) n
            (EvWrite w (num_rows t) :: l)).
  unfold keys_have_files in *. cbn [writers counts files] in *.
  assert (Hmono : forall p, is_Some (fs0 !! p) ->
                            is_Some (<[h_path w := default [] (fs0 !! h_path w) ++ [t]]> fs0 !! p)).
  { intros p Hp. destruct (decide (h_path w = p)) as [<-|Hne].
    - rewrite lookup_insert_eq. eauto.
    - rewrite lookup_insert_ne by exact Hne. exact Hp. }
  split; [|exact Hk]. split; [|split; [|exact Hidle]].
  - intros k0 Hk0. apply Hmono. apply Hpool. exact Hk0.
  - intros k0 Hk0. apply Hmono. apply Hcounts. exact Hk0.
Qed.

Lemma write_sub_batch_keys_have_files (coin m : string) (t : table) :
  preserves keys_have_files (write_sub_batch coin m t).
Proof.
  stated_vars.
  unfold Rebucket.write_sub_batch.
  apply (preserves_after keys_have_files
           (fun _ st => In (coin, m) (map fst (writers st))));
    [apply writer_for_keys_have_files| |].
  - intros st st1 w _ H.
    destruct (writer_for_keys _ _ _ _ _ _ _ _ _ H) as (l & Hl & _).
    rewrite Hl, map_app, in_app_iff. right. left. reflexivity.
  - intros w st1 HP Hk.
    assert (HP' : preserves (fun st => keys_have_files st
                                       /\ In (coin, m) (map fst (writers st)))
                    (do _ <- write_row_groups w t; do cs <- get counts;
                     set_counts
                       (<[(coin, m) := (default O (cs !! (coin, m)) + num_rows t)%nat]> cs))).
    { apply preserves_bind.
      - apply write_row_groups_preserves. intros w0 t0.
        apply write_table_keys_have_files.
      - intros _ st [(Hpool & Hcounts & Hidle) Hin].
        unfold mbind, get, set_counts, keys_have_files. cbn [fst counts writers files].
        split; [|exact Hin]. split; [exact Hpool|]. split.
        + intros k Hsome. destruct (decide (k = (coin, m))) as [->|Hne].
          * apply Hpool. exact Hin.
          * apply Hcounts. rewrite lookup_insert_ne in Hsome by congruence. exact Hsome.
        + intros HN. destruct (Hidle HN) as [Hws _]. rewrite Hws in Hin. destruct Hin. }
    apply (HP' st1). split; assumption.
Qed.

(** X11: At the end of every run, every key of the summary has a file at
    [out_dir/coin/yyyymm.parquet]; the summary returned is the one of
    the final state. *)
Theorem every_counted_key_has_its_file (fs : gmap string (list table))
    (dataset : list table) :
  let final := split_asset_ctxs_by_coin_month fs dataset in
  (forall (coin m : string),
      is_Some (counts (fst final) !! (coin, m)) ->
      is_Some (files (fst final) !! out_path coin m))
  /\ (forall cs : gmap key nat, snd final = Ok cs -> cs = counts (fst final)).
Proof.
  stated_vars.
  intros final. subst final. rewrite split_run. simpl. split.
  - assert (H : keys_have_files (fst (forM_ per_batch dataset (init fs)))).
    { apply (try_block_routed keys_have_files (fun _ => True)); auto.
      - intros coin m t _ _. apply write_sub_batch_keys_have_files.
      - split; [intros k []|]. split; [|auto].
        intros k Hk. simpl in Hk. rewrite lookup_empty in Hk. destruct Hk as [? Hk].
        discriminate. }
    destruct H as (_ & H & _). intros coin m. apply (H (coin, m)).
  - intros cs. destruct (snd (forM_ per_batch dataset (init fs))); [|discriminate].
    intros [= <-]. reflexivity.
Qed.

(** *** The overwrite flag *)

Definition not_unlink (e : event) : bool :=
  match e with
  | EvUnlink _ => false
  | _ => true
  end.

(** Two states that differ only by the unlink events of the log of the
    first. *)
Definition same_but_unlinks (st st' : state) : Prop :=
  writers st = writers st' /\ counts st = counts st' /\ files st = files st'
  /\ next_id st = next_id st' /\ List.filter not_unlink (log st) = log st'.

Definition related {A} (m m' : M A) : Prop :=
  forall st st', same_but_unlinks st st' ->
                 same_but_unlinks (fst (m st)) (fst (m' st')) /\ snd (m st) = snd (m' st').

Lemma closes_kept (ws : list (key * handle)) :
  List.filter not_unlink (rev (map (close_event close_fails) ws))
  = rev (map (close_event close_fails) ws).
Proof.
  stated_vars.
  induction ws as [|kw ws IH]; [reflexivity|].
  simpl. rewrite List.filter_app, IH. reflexivity.
Qed.

Lemma related_lift {A} (r : result A) : related (lift r) (lift r).
Proof. stated_vars. intros st st' H. split; [exact H|reflexivity]. Qed.

Lemma related_ret {A} (a : A) : related (ret a) (ret a).
Proof. stated_vars. intros st st' H. split; [exact H|reflexivity]. Qed.

Lemma related_raise {A} (e : exn) : related (@raise A e) (raise e).
Proof. stated_vars. intros st st' H. split; [exact H|reflexivity]. Qed.

Lemma related_bind {A B} (m m' : M A) (k k' : A -> M B) :
  related m m' -> (forall a, related (k a) (k' a)) -> related (mbind m k) (mbind m' k').
Proof.
  stated_vars.
  intros Hm Hk st st' H. unfold mbind. destruct (Hm st st' H) as [H1 H2].
  destruct (m st) as [st1 [a|e]], (m' st') as [st1' [a'|e']]; simpl in *;
    try discriminate.
  - injection H2 as <-. apply Hk. exact H1.
  - split; [exact H1|]. injection H2 as <-. reflexivity.
Qed.

Lemma related_forM {A} (f f' : A -> M unit) (l : list A) :
  (forall a, related (f a) (f' a)) -> related (forM_ f l) (forM_ f' l).
Proof.
  stated_vars.
  intros Hf. induction l as [|a l IH]; simpl; [apply related_ret|].
  apply related_bind; [apply Hf|intros _; exact IH].
Qed.

Lemma related_write_table (w : handle) (t : table) :
  related (write_table w t) (write_table w t).
Proof.
  stated_vars.
  intros [ws cs fs0 n l] [ws' cs' fs0' n' l'] (H1 & H2 & H3 & H4 & H5).
  cbn [writers counts files next_id log] in *. subst ws' cs' fs0' n' l'.
  split; [|reflexivity].
  repeat split; reflexivity.
Qed.

Lemma related_writer_for (coin m : string) :
  1 <= max_open_writers ->
  related (Rebucket._writer_for out_dir true max_open_writers close_fails coin m)
          (Rebucket._writer_for out_dir false max_open_writers close_fails coin m).
Proof.
  stated_vars.
  intros HN st st' (H1 & H2 & H3 & H4 & H5).
  assert (Hfiles : <[out_path coin m := []]> (RebucketFacts.files_cleared out_dir true st coin m)
                   = <[out_path coin m := []]> (RebucketFacts.files_cleared out_dir false st' coin m)).
  { unfold RebucketFacts.files_cleared, unlinks. cbn [andb]. rewrite <- H3.
    destruct (bool_decide _); [apply insert_delete_eq|reflexivity]. }
  assert (Hnew : RebucketFacts.new_writer out_dir st coin m
                 = RebucketFacts.new_writer out_dir st' coin m).
  { unfold RebucketFacts.new_writer. rewrite H4. reflexivity. }
  assert (Hpre : forall l0, List.filter not_unlink
                              (RebucketFacts.prelude out_dir true st coin m ++ l0)
                 = RebucketFacts.prelude out_dir false st' coin m
                   ++ List.filter not_unlink l0).
  { intros l0. unfold RebucketFacts.prelude, unlinks. cbn [andb].
    destruct (bool_decide _); reflexivity. }
  assert (Hcap : RebucketFacts.at_capacity max_open_writers st'
                 = RebucketFacts.at_capacity max_open_writers st).
  { unfold RebucketFacts.at_capacity. rewrite H1. reflexivity. }
  destruct (writer_for_cases max_open_writers st coin m)
    as [[w Hg]|[[Hg Hc]|[(Hg & Hc & k0 & w0 & ws' & Hws)|[Hws Hc]]]].
  - rewrite (writer_for_hit _ _ _ _ _ _ _ _ Hg).
    rewrite H1 in Hg. rewrite (writer_for_hit _ _ _ _ _ _ _ _ Hg).
    split; [|reflexivity]. repeat split; simpl; congruence.
  - rewrite (writer_for_admit _ _ _ _ _ _ _ Hg Hc).
    rewrite H1 in Hg. rewrite <- Hcap in Hc. rewrite (writer_for_admit _ _ _ _ _ _ _ Hg Hc).
    split; [|simpl; congruence].
    repeat split; cbn [fst writers counts files next_id log]; try congruence.
    cbn [List.filter not_unlink]. rewrite Hpre, H5, Hnew. reflexivity.
  - rewrite (writer_for_evict _ _ _ _ _ _ _ _ _ _ Hg Hc Hws).
    rewrite H1 in Hg, Hws. rewrite <- Hcap in Hc.
    rewrite (writer_for_evict _ _ _ _ _ _ _ _ _ _ Hg Hc Hws).
    split; [|simpl; congruence].
    repeat split; cbn [fst writers counts files next_id log]; try congruence.
    cbn [List.filter not_unlink]. rewrite Hpre, H5, Hnew. reflexivity.
  - exfalso. unfold RebucketFacts.at_capacity in Hc. rewrite Hws in Hc. simpl in Hc.
    rewrite Z.geb_leb in Hc. apply Z.leb_le in Hc. lia.
Qed.

Lemma related_write_sub_batch (coin m : string) (t : table) :
  1 <= max_open_writers ->
  related
    (Rebucket.write_sub_batch out_dir row_group_size true max_open_writers close_fails
       coin m t)
    (Rebucket.write_sub_batch out_dir row_group_size false max_open_writers close_fails
       coin m t).
Proof.
  stated_vars.
  intros HN. unfold Rebucket.write_sub_batch.
  apply related_bind; [apply related_writer_for; exact HN|intros w].
  apply related_bind.
  { unfold Rebucket.write_row_groups. destruct (_ >? _); [|apply related_write_table].
    apply related_bind; [apply related_lift|intros starts].
    apply related_forM. intros start. apply related_write_table. }
  intros _ [ws cs fs0 n l] [ws' cs' fs0' n' l'] (H1 & H2 & H3 & H4 & H5).
  cbn [writers counts files next_id log] in *. subst ws' cs' fs0' n' l'.
  split; [|reflexivity]. repeat split; reflexivity.
Qed.

Lemma related_try_block (dataset : list table) :
  1 <= max_open_writers ->
  related
    (forM_ (Rebucket.per_batch castable conv common tz_offset out_dir row_group_size
              target_schema true max_open_writers close_fails) dataset)
    (forM_ (Rebucket.per_batch castable conv common tz_offset out_dir row_group_size
              target_schema false max_open_writers close_fails) dataset).
Proof.
  stated_vars.
  intros HN. apply related_forM. intros raw. unfold Rebucket.per_batch.
  apply related_bind; [apply related_lift|intros rec_batch].
  apply related_bind; [apply related_lift|intros tbl].
  destruct (_ =? _)%nat; [apply related_ret|].
  apply related_bind; [apply related_lift|intros coin_col].
  apply related_forM. intros coin. unfold Rebucket.per_coin.
  destruct (_ =? _)%nat; [apply related_ret|].
  apply related_bind; [apply related_lift|intros date].
  apply related_bind.
  { destruct (_ && _); [apply related_lift|apply related_ret]. }
  intros base_date.
  apply related_bind; [apply related_lift|intros months].
  apply related_forM. intros mo. unfold Rebucket.per_month.
  destruct (_ =? _)%nat; [apply related_ret|].
  destruct coin as [[]|]; try apply related_raise.
  destruct mo as [[]|]; try apply related_raise.
  apply related_write_sub_batch. exact HN.
Qed.

(** X12: With [max_open_writers >= 1], and coin names that are plain
    path segments (so that no two keys name one file), a run with
    [overwrite=False] does to the files what a run with [overwrite=True]
    does: the flag decides whether an old file is unlinked before its
    writer is opened, and the opening empties the file in either case.
    The two runs end with the same files, the same result and the same
    events except for the unlinks. *)
Theorem overwrite_false_overwrites_too (fs : gmap string (list table))
    (dataset : list table) :
  1 <= max_open_writers ->
  plain_coins dataset ->
  let on := Rebucket.split_asset_ctxs_by_coin_month castable conv common tz_offset
              out_dir row_group_size target_schema true max_open_writers close_fails
              fs dataset in
  let off := Rebucket.split_asset_ctxs_by_coin_month castable conv common tz_offset
               out_dir row_group_size target_schema false max_open_writers close_fails
               fs dataset in
  files (fst on) = files (fst off)
  /\ snd on = snd off
  /\ List.filter not_unlink (log (fst on)) = log (fst off).
Proof.
  stated_vars.
  intros HN _ on off. subst on off. rewrite !split_run. cbn [fst snd files log].
  assert (H0 : same_but_unlinks (init fs) (init fs)) by (repeat split; reflexivity).
  destruct (related_try_block dataset HN _ _ H0) as [(H1 & H2 & H3 & H4 & H5) Hr].
  split; [exact H3|]. split.
  - rewrite Hr, H2. reflexivity.
  - rewrite List.filter_app, H5, H1, closes_kept. reflexivity.
Qed.

(** *** The counts, key by key *)

(** The rows of the sub-batches routed to a key. *)
Definition rows_for (k : key) (subs : list (key * table)) : nat :=
  list_sum (map (fun kt => num_rows (snd kt))
              (List.filter (fun kt => key_eqb (fst kt) k) subs)).

Definition routed (k : key) (subs : list (key * table)) : bool :=
  existsb (fun kt => key_eqb (fst kt) k) subs.

Lemma filter_unrouted (k : key) (subs : list (key * table)) :
  routed k subs = false -> List.filter (fun kt => key_eqb (fst kt) k) subs = [].
Proof.
  stated_vars.
  unfold routed. induction subs as [|kt subs IH]; simpl; [reflexivity|].
  destruct (key_eqb (fst kt) k); simpl; [discriminate|exact IH].
Qed.

Lemma write_sub_batch_counts (coin m : string) (t : table) (st st' : state) :
  write_sub_batch coin m t st = (st', Ok tt) ->
  counts st'
  = <[(coin, m) := (default O (counts st !! (coin, m)) + num_rows t)%nat]> (counts st).
Proof.
  stated_vars.
  unfold Rebucket.write_sub_batch. unfold mbind at 1.
  pose proof (writer_for_counts out_dir overwrite max_open_writers close_fails coin m st)
    as H1.
  destruct (_writer_for coin m st) as [st1 [w|e]]; [|discriminate].
  unfold mbind at 1.
  pose proof (write_row_groups_counts row_group_size w t st1) as H2.
  destruct (write_row_groups w t st1) as [st2 [[]|e]]; [|discriminate].
  unfold mbind, get, set_counts. cbn [fst counts] in *. intros [= <-].
  cbn [counts]. rewrite H2, H1. reflexivity.
Qed.

Lemma sub_batches_counts (subs : list (key * table)) (st st' : state) (k : key) :
  sub_batches subs st = (st', Ok tt) ->
  counts st' !! k
  = if routed k subs then Some (default O (counts st !! k) + rows_for k subs)%nat
    else counts st !! k.
Proof.
  stated_vars.
  revert st. induction subs as [|[[coin m] t] subs IH]; intros st.
  - intros [= <-]. reflexivity.
  - unfold Rebucket.sub_batches. cbn [forM_ fst snd]. unfold mbind at 1.
    destruct (write_sub_batch coin m t st) as [st1 [[]|e]] eqn:Hs; [|discriminate].
    intros Hrest. apply write_sub_batch_counts in Hs.
    rewrite (IH st1 Hrest). clear IH Hrest.
    unfold routed, rows_for. cbn [existsb List.filter fst snd].
    destruct (key_eqb (coin, m) k) eqn:He.
    + apply key_eqb_eq in He. subst k. cbn [orb map list_sum snd].
      rewrite Hs, lookup_insert_eq.
      change (default O (Some ?x)) with x.
      destruct (existsb _ subs) eqn:Hex; f_equal.
      * unfold list_sum. cbn [fold_right]. symmetry. apply Nat.add_assoc.
      * rewrite (filter_unrouted _ _ Hex). simpl. rewrite Nat.add_0_r. reflexivity.
    + apply key_eqb_neq in He. cbn [orb].
      rewrite Hs, lookup_insert_ne by exact He. reflexivity.
Qed.

(** X13: The summary of a run of sub-batches that went through maps exactly
    the keys that a sub-batch was routed to, each to the number of rows
    of all the sub-batches of that key. *)
Theorem counts_are_per_key_row_sums (fs : gmap string (list table))
    (subs : list (key * table)) (st : state) (k : key) :
  sub_batches subs (init fs) = (st, Ok tt) ->
  counts st !! k = if routed k subs then Some (rows_for k subs) else None.
Proof.
  stated_vars.
  intros H. rewrite (sub_batches_counts subs (init fs) st k H).
  cbn [init counts]. rewrite lookup_empty. reflexivity.
Qed.

(** *** Enough writers for all the partitions *)

(** The tables written for the sub-batches of a key, in order. *)
Definition content (k : key) (subs : list (key * table)) : list table :=
  concat (map (fun kt => chunks (snd kt))
            (List.filter (fun kt => key_eqb (fst kt) k) subs)).

Definition no_close (e : event) : Prop :=
  match e with
  | EvClose _ _ => False
  | _ => True
  end.

(** After the sub-batches [done], none of which lost its writer: the
    pool has the keys seen, each writer is on the path of its key, and
    the file of a key holds what was written for it. *)
Record kept (done : list (key * table)) (st : state) : Prop := mkKept {
  kept_keys : forall k, In k (map fst (writers st)) <-> In k (map fst done);
  kept_paths : forall k w, In (k, w) (writers st) -> h_path w = out_path (fst k) (snd k);
  kept_files : forall k, In k (map fst done) ->
                         files st !! out_path (fst k) (snd k) = Some (content k done);
  kept_open : Forall no_close (log st)
}.

Lemma content_snoc (k k' : key) (t : table) (subs : list (key * table)) :
  content k (subs ++ [(k', t)])
  = content k subs ++ (if key_eqb k' k then chunks t else []).
Proof.
  stated_vars.
  unfold content. rewrite List.filter_app, map_app, concat_app. f_equal.
  cbn [List.filter fst]. destruct (key_eqb k' k); simpl; [apply app_nil_r|reflexivity].
Qed.

Lemma content_unseen (k : key) (subs : list (key * table)) :
  ~ In k (map fst subs) -> content k subs = [].
Proof.
  stated_vars.
  intros H. unfold content. rewrite filter_unrouted; [reflexivity|].
  unfold routed. destruct (existsb _ subs) eqn:He; [exfalso|reflexivity].
  apply existsb_exists in He. destruct He as (kt & Hin & Hk).
  apply key_eqb_eq in Hk. subst k. apply H. apply in_map. exact Hin.
Qed.

Lemma content_rows (k : key) (subs : list (key * table)) :
  1 <= row_group_size ->
  list_sum (map num_rows (content k subs)) = rows_for k subs.
Proof.
  stated_vars.
  intros Hr. unfold content, rows_for.
  induction (List.filter _ subs) as [|kt l IH]; [reflexivity|].
  cbn [map concat]. rewrite map_app, list_sum_app, IH, (chunks_rows _ Hr). reflexivity.
Qed.

Lemma no_close_writes (w : handle) (ts : list table) (l : list event) :
  Forall no_close l -> Forall no_close (rev (map (write_event w) ts) ++ l).
Proof.
  stated_vars.
  intros H. apply Forall_app. split; [|exact H].
  apply Forall_rev. apply List.Forall_forall. intros e He.
  apply in_map_iff in He. destruct He as (t & <- & _). exact I.
Qed.

Lemma write_sub_batch_hit (coin m : string) (t : table) (st : state) (w : handle) :
  1 <= row_group_size ->
  od_get (coin, m) (writers st) = Some w ->
  write_sub_batch coin m t st
  = (mkState (move_to_end (coin, m) (writers st))
       (<[(coin, m) := (default O (counts st !! (coin, m)) + num_rows t)%nat]> (counts st))
       (<[h_path w := default [] (files st !! h_path w) ++ chunks t]> (files st))
       (next_id st)
       (rev (map (write_event w) (chunks t)) ++ log st), Ok tt).
Proof.
  stated_vars.
  intros Hr Hg. unfold Rebucket.write_sub_batch, mbind.
  rewrite (writer_for_hit _ _ _ _ _ _ _ _ Hg), (write_row_groups_chunks _ _ _ Hr).
  reflexivity.
Qed.

Lemma write_sub_batch_opens (coin m : string) (t : table) (st : state) :
  1 <= row_group_size ->
  od_get (coin, m) (writers st) = None ->
  at_capacity st = false ->
  write_sub_batch coin m t st
  = (mkState (writers st ++ [((coin, m), new_writer st coin m)])
       (<[(coin, m) := (default O (counts st !! (coin, m)) + num_rows t)%nat]> (counts st))
       (<[out_path coin m := chunks t]> (files_cleared st coin m))
       (S (next_id st))
       (rev (map (write_event (new_writer st coin m)) (chunks t))
          ++ EvOpen (new_writer st coin m) :: prelude st coin m ++ log st), Ok tt).
Proof.
  stated_vars.
  intros Hr Hg Hc. unfold Rebucket.write_sub_batch, mbind.
  rewrite (writer_for_admit _ _ _ _ _ _ _ Hg Hc), (write_row_groups_chunks _ _ _ Hr).
  unfold get, set_counts. cbn [fst snd writers counts files next_id log].
  change (h_path (new_writer st coin m)) with (out_path coin m).
  rewrite lookup_insert_eq, insert_insert_eq. reflexivity.
Qed.

Section Partitions.

Variable ks : list key.
Hypothesis ks_distinct : List.NoDup ks.
Hypothesis ks_fit : Z.of_nat (length ks) <= max_open_writers.
Hypothesis ks_plain : forall k : key, In k ks -> plain_key k = true.
Hypothesis rgs_pos : 1 <= row_group_size.

Lemma ks_paths (k k' : key) :
  In k ks -> In k' ks ->
  out_path (fst k) (snd k) = out_path (fst k') (snd k') -> k = k'.
Proof using Type ks_plain.
  stated_vars.
  intros Hk Hk' H. destruct k as [c m], k' as [c' m']. cbn [fst snd] in H.
  pose proof (ks_plain _ Hk) as Hp. pose proof (ks_plain _ Hk') as Hp'.
  unfold plain_key in Hp, Hp'. cbn [fst snd] in Hp, Hp'.
  apply andb_true_iff in Hp. apply andb_true_iff in Hp'.
  destruct (out_path_inj c m c' m') as [-> ->];
    [apply is_plain_no_slash; tauto|apply is_plain_no_slash; tauto|exact H|reflexivity].
Qed.

Lemma kept_step (done : list (key * table)) (k : key) (t : table) (st : state) :
  In k ks ->
  (forall k', In k' (map fst done) -> In k' ks) ->
  List.NoDup (map fst (writers st)) ->
  kept done st ->
  exists st' : state,
    write_sub_batch (fst k) (snd k) t st = (st', Ok tt)
    /\ kept (done ++ [(k, t)]) st'.
Proof using Type ks_distinct ks_fit ks_plain rgs_pos.
  stated_vars.
  intros Hk Hdone Hnd [Hkeys Hpaths Hfiles Hopen]. destruct k as [coin m]. cbn [fst snd].
  assert (Hother : forall k', In k' (map fst done) -> k' <> (coin, m) ->
                     out_path (fst k') (snd k') <> out_path coin m).
  { intros k' Hin Hne Heq. apply Hne. apply (ks_paths k' (coin, m)); auto. }
  destruct (od_get (coin, m) (writers st)) as [w|] eqn:Hg.
  - (* the key has its writer *)
    rewrite (write_sub_batch_hit _ _ _ _ _ rgs_pos Hg). eexists. split; [reflexivity|].
    pose proof (od_get_In _ _ _ Hg) as Hin.
    assert (Hseen : In (coin, m) (map fst done)).
    { apply Hkeys. apply (in_map fst) in Hin. exact Hin. }
    pose proof (Hpaths _ _ Hin) as Hpath. cbn [fst snd] in Hpath.
    constructor; cbn [writers files log].
    + intros k'. unfold move_to_end. rewrite Hg.
      rewrite !map_app, !in_app_iff, od_remove_keys, List.filter_In.
      cbn [map fst In]. rewrite Hkeys. intuition (subst; auto).
      destruct (decide (k' = (coin, m))) as [->|Hne]; [right; left; reflexivity|left].
      split; [assumption|]. apply negb_true_iff, key_eqb_neq. exact Hne.
    + intros k' w'. unfold move_to_end. rewrite Hg. rewrite in_app_iff.
      intros [H|[[= <- <-]|[]]]; [|exact Hpath].
      apply Hpaths. unfold od_remove in H. apply List.filter_In in H. tauto.
    + intros k'. rewrite map_app, in_app_iff. cbn [map fst In]. intros Hk'.
      rewrite content_snoc.
      destruct (decide (k' = (coin, m))) as [->|Hne].
      * pose proof (Hfiles (coin, m) Hseen) as Hf0. cbn [fst snd] in Hf0.
        rewrite key_eqb_refl. cbn [fst snd].
        rewrite Hpath, lookup_insert_eq, Hf0. reflexivity.
      * assert (Hin' : In k' (map fst done)) by (destruct Hk' as [H|[H|[]]]; congruence).
        assert (He : key_eqb (coin, m) k' = false) by (apply key_eqb_neq; congruence).
        rewrite He, app_nil_r.
        rewrite Hpath, lookup_insert_ne by (symmetry; auto). auto.
    + apply no_close_writes. exact Hopen.
  - (* the key is new: there is room for it *)
    assert (Hnew : ~ In (coin, m) (map fst (writers st))) by (apply od_get_None; exact Hg).
    assert (Hc : at_capacity st = false).
    { unfold RebucketFacts.at_capacity. rewrite Z.geb_leb. apply Z.leb_gt.
      assert (Hlen : (length ((coin, m) :: map fst (writers st)) <= length ks)%nat).
      { apply List.NoDup_incl_length; [constructor; assumption|].
        intros k' [<-|Hin]; [exact Hk|]. apply Hdone, Hkeys. exact Hin. }
      cbn [length] in Hlen. rewrite length_map in Hlen. lia. }
    rewrite (write_sub_batch_opens _ _ _ _ rgs_pos Hg Hc). eexists. split; [reflexivity|].
    assert (Hunseen : ~ In (coin, m) (map fst done)) by (rewrite <- Hkeys; exact Hnew).
    constructor; cbn [writers files log].
    + intros k'. rewrite !map_app, !in_app_iff. cbn [map fst In]. rewrite Hkeys. tauto.
    + intros k' w'. rewrite in_app_iff.
      intros [H|[[= <- <-]|[]]]; [apply Hpaths; exact H|reflexivity].
    + intros k'. rewrite map_app, in_app_iff. cbn [map fst In]. intros Hk'.
      rewrite content_snoc.
      destruct (decide (k' = (coin, m))) as [->|Hne].
      * rewrite key_eqb_refl. cbn [fst snd]. rewrite lookup_insert_eq.
        rewrite (content_unseen _ _ Hunseen). reflexivity.
      * assert (Hin' : In k' (map fst done)) by (destruct Hk' as [H|[H|[]]]; congruence).
        assert (He : key_eqb (coin, m) k' = false) by (apply key_eqb_neq; congruence).
        rewrite He, app_nil_r.
        rewrite lookup_insert_ne by (symmetry; auto).
        rewrite files_cleared_other by auto. auto.
    + apply no_close_writes. constructor; [exact I|].
      apply Forall_app. split; [|exact Hopen].
      unfold RebucketFacts.prelude. destruct (unlinks _ _ _ _ _); repeat constructor.
Qed.

Lemma kept_run (fs : gmap string (list table)) (subs : list (key * table)) :
  (forall kt, In kt subs -> In (fst kt) ks) ->
  exists st : state,
    sub_batches subs (init fs) = (st, Ok tt) /\ kept subs st.
Proof using Type ks_distinct ks_fit ks_plain rgs_pos.
  stated_vars.
  induction subs as [|[k t] subs IH] using rev_ind; intros Hks.
  - exists (init fs). split; [reflexivity|].
    constructor; simpl; try tauto. constructor.
  - destruct IH as (st & Hrun & Hkept).
    { intros kt Hin. apply Hks. apply in_or_app. left. exact Hin. }
    pose proof (sub_batches_pool_wf out_dir overwrite max_open_writers close_fails
                  row_group_size subs (init fs) (init_pool_wf fs)) as Hwf.
    rewrite Hrun in Hwf. cbn [fst] in Hwf.
    destruct (kept_step subs k t st) as (st' & Hstep & Hkept'); auto.
    + apply (Hks (k, t)). apply in_or_app. right. left. reflexivity.
    + intros k' Hin. apply in_map_iff in Hin. destruct Hin as (kt & <- & Hin).
      apply Hks. apply in_or_app. left. exact Hin.
    + apply (wf_keys _ Hwf).
    + exists st'. split; [|exact Hkept'].
      unfold Rebucket.sub_batches in *. rewrite forM_app. unfold mbind at 1.
      rewrite Hrun. cbn [forM_ fst snd]. unfold mbind. rewrite Hstep. reflexivity.
Qed.

(** X14: When the pool has room for all the partitions of a run (and
    [row_group_size >= 1], and the coins and months of the partitions
    are plain path segments, so that no two partitions share a file),
    the run of sub-batches goes through without closing a writer; the
    file of
    every partition then holds, in order, the tables written for all
    its sub-batches, and these have exactly the rows that the summary
    counts for the partition: nothing that was counted is missing from
    the files. *)
Theorem enough_writers_lose_no_row (fs : gmap string (list table))
    (subs : list (key * table)) :
  (forall kt, In kt subs -> In (fst kt) ks) ->
  exists st : state,
    sub_batches subs (init fs) = (st, Ok tt)
    /\ Forall no_close (log st)
    /\ forall k : key,
         In k (map fst subs) ->
         files st !! out_path (fst k) (snd k) = Some (content k subs)
         /\ counts st !! k = Some (rows_for k subs)
         /\ list_sum (map num_rows (content k subs)) = rows_for k subs.
Proof using Type ks_distinct ks_fit ks_plain rgs_pos.
  stated_vars.
  intros Hks. destruct (kept_run fs subs Hks) as (st & Hrun & [_ _ Hfiles Hopen]).
  exists st. split; [exact Hrun|]. split; [exact Hopen|].
  intros k Hk. split; [apply Hfiles; exact Hk|]. split; [|apply content_rows; exact rgs_pos].
  rewrite (sub_batches_counts subs (init fs) st k Hrun).
  assert (Hr : routed k subs = true).
  { unfold routed. apply existsb_exists. apply in_map_iff in Hk.
    destruct Hk as (kt & <- & Hin). exists kt. split; [exact Hin|apply key_eqb_refl]. }
  rewrite Hr. cbn [init counts]. rewrite lookup_empty. reflexivity.
Qed.

End Partitions.

(** *** Batches whose rows all have a date *)

(** A raw batch as Arrow has it (columns of one length), with a textual
    [coin] column and a [date] column of type date32 that has no null. *)
Definition dated_batch (raw : table) : Prop :=
  table_wf raw
  /\ exists coin_col date_col : column,
       getitem raw "coin" = Ok coin_col
       /\ ctype coin_col = t_string
       /\ Forall (fun o => o = None \/ is_str o) (cvals coin_col)
       /\ getitem raw "date" = Ok date_col
       /\ ctype date_col = t_date32
       /\ Forall is_int (cvals date_col).

Lemma keep_and_valid (a b : column) :
  Forall (fun o => valid_elem o = true) (keep (and_valid a b) (cvals a)).
Proof.
  stated_vars.
  unfold and_valid. generalize (cvals b) as lb.
  induction (cvals a) as [|x la IH]; intros lb; [destruct lb; constructor|].
  destruct lb as [|y lb]; [constructor|]. cbn [combine map fst snd keep].
  destruct (valid_elem x && valid_elem y) eqn:Hv; [|apply IH].
  constructor; [|apply IH]. apply andb_true_iff in Hv. tauto.
Qed.

Lemma scan_projection (raw : table) (cols : list (string * column)) :
  mapM (fun f : field => let* c := getitem raw (fst f) in Ok (fst f, c)) target_schema
    = Ok cols ->
  map fst cols = map fst target_schema
  /\ forall nc, In nc cols -> getitem raw (fst nc) = Ok (snd nc).
Proof.
  stated_vars.
  intros H. apply NormalizerFacts.mapM_Forall2 in H.
  induction H as [|f nc sch ncs Hf _ [IH1 IH2]]; [split; [reflexivity|intros nc []]|].
  destruct (getitem raw (fst f)) as [c|] eqn:Hc; simpl in Hf; [|discriminate].
  injection Hf as <-. split; [simpl; f_equal; exact IH1|].
  intros nc [<-|Hin]; [exact Hc|auto].
Qed.

Lemma filter_table_wf (tbl : table) (mask : list (option bool)) :
  table_wf tbl -> table_wf (filter_table tbl mask).
Proof.
  stated_vars.
  unfold table_wf, filter_table. cbn [columns num_rows]. intros H.
  apply List.Forall_forall. intros nc Hin. apply in_map_iff in Hin.
  destruct Hin as (nc0 & <- & Hin). cbn [snd cvals].
  rewrite List.Forall_forall in H. apply keep_length. rewrite length_seq. auto.
Qed.

Section Dated.

Hypothesis conv_date_int :
  forall v v' : scalar, conv t_date32 ts_ns v = Some v' -> exists z, v' = s_int z.
Hypothesis names_distinct : List.NoDup (map fst target_schema).
Hypothesis coin_field : In ("coin"%string, t_string) target_schema.
Hypothesis date_field : In ("date"%string, t_date32) target_schema.

Lemma dated_batch_normalized (raw b tbl : table) :
  dated_batch raw ->
  scan_batch target_schema raw = Ok b ->
  _cast_to_schema b target_schema = Ok tbl ->
  dated tbl /\ num_rows tbl = num_rows b.
Proof using Type names_distinct coin_field date_field.
  stated_vars.
  intros [Hwf (coin_col & date_col & Hgc & Htc & Hstr & Hgd & Htd & Hint)].
  unfold scan_batch. rewrite Hgc. cbn [rbind].
  destruct (getitem raw "time") as [time_col|] eqn:Hgt; cbn [rbind]; [|discriminate].
  match goal with
  | |- context [mapM ?f target_schema] =>
      destruct (mapM f target_schema) as [cols|] eqn:Hcols
  end; cbn [rbind]; [|discriminate].
  intros [= <-] Hcast.
  destruct (scan_projection raw cols Hcols) as [Hnames Hget].
  set (mask := and_valid coin_col time_col) in *.
  set (proj := mkTable cols (num_rows raw)) in *.
  assert (Hpwf : table_wf proj).
  { unfold table_wf, proj. cbn [columns num_rows].
    apply List.Forall_forall. intros nc Hin. apply Hget, getitem_In in Hin.
    unfold table_wf in Hwf. rewrite List.Forall_forall in Hwf. apply (Hwf _ Hin). }
  assert (Hbwf : table_wf (filter_table proj mask)) by (apply filter_table_wf; exact Hpwf).
  assert (Hpnd : List.NoDup (names proj)).
  { unfold names, proj. cbn [columns]. rewrite Hnames. exact names_distinct. }
  assert (Hcol : forall name t col,
             In (name, t) target_schema -> getitem raw name = Ok col ->
             getitem proj name = Ok col).
  { intros name t col Hin Hg. apply NormalizerTables.getitem_unique; [exact Hpnd|].
    unfold proj. cbn [columns].
    assert (Hname : In name (map fst cols)).
    { rewrite Hnames. apply (in_map fst) in Hin. exact Hin. }
    apply in_map_iff in Hname. destruct Hname as ([n c] & Hn & Hnc). cbn [fst] in Hn.
    subst n. pose proof (Hget _ Hnc) as Hg'. cbn [fst snd] in Hg'.
    rewrite Hg in Hg'. injection Hg' as <-. exact Hnc. }
  assert (Hout : forall name t col,
             In (name, t) target_schema -> getitem raw name = Ok col -> ctype col = t ->
             is_tz_aware t = false ->
             getitem tbl name = Ok (mkColumn t (keep mask (cvals col)))).
  { intros name t col Hin Hg Ht Htz.
    pose proof (getitem_filter _ mask _ _ (Hcol _ _ _ Hin Hg)) as Hgb. rewrite Ht in Hgb.
    destruct (NormalizerTables.columns_paired _ _ _ _ _ _ _ Hcast Hin) as (c & Hc & Hf).
    rewrite (NormalizerTables.cast_field_conforming _ _ _ _ (name, t) _ Hgb eq_refl Htz)
      in Hf.
    injection Hf as <-. apply NormalizerTables.getitem_unique; [|exact Hc].
    assert (Hn : names tbl = map fst target_schema).
    { pose proof (NormalizerTables.normalized_schema _ _ _ _ _ _ Hcast) as Hs.
      unfold names. rewrite <- Hs. unfold schema_of. rewrite map_map. reflexivity. }
    rewrite Hn. exact names_distinct. }
  assert (Hrows : num_rows tbl = num_rows (filter_table proj mask)).
  { rewrite (NormalizerTables.normalized_rows _ _ _ _ _ _ Hbwf Hcast).
    destruct target_schema; [destruct coin_field|reflexivity]. }
  assert (Hlen : forall col, In (fst col, snd col) (columns raw) ->
                   length (keep mask (cvals (snd col))) = num_rows tbl).
  { intros col Hin. rewrite Hrows. unfold filter_table. cbn [num_rows].
    apply keep_length. rewrite length_seq. unfold proj. cbn [num_rows].
    unfold table_wf in Hwf. rewrite List.Forall_forall in Hwf. apply (Hwf _ Hin). }
  split; [|exact Hrows].
  exists (mkColumn t_string (keep mask (cvals coin_col))),
         (mkColumn t_date32 (keep mask (cvals date_col))).
  split; [apply (Hout _ _ _ coin_field Hgc Htc eq_refl)|].
  split; [apply (Hout _ _ _ date_field Hgd Htd eq_refl)|].
  cbn [cvals ctype].
  split; [apply (Hlen ("coin"%string, coin_col)), getitem_In, Hgc|].
  split; [apply (Hlen ("date"%string, date_col)), getitem_In, Hgd|].
  split; [|split; [reflexivity|apply keep_Forall; exact Hint]].
  pose proof (keep_and_valid coin_col time_col) as Hv. fold mask in Hv.
  pose proof (keep_Forall _ mask _ Hstr) as Hs.
  rewrite List.Forall_forall in *. intros o Ho.
  destruct (Hs o Ho) as [->|H]; [|exact H]. specialize (Hv _ Ho). discriminate.
Qed.

(** X15: Partition completeness, from the input: when every batch of the
    dataset has a textual [coin] column and a [date] column of type
    date32 without nulls, and the target schema keeps these two types
    under distinct names, a run that returns has counted every row that
    the scan admitted (the rows with a valid coin and a valid time). *)
Theorem dated_batches_are_counted_in_full (fs : gmap string (list table))
    (dataset : list table) (cs : gmap key nat) :
  (forall raw, In raw dataset -> dated_batch raw) ->
  snd (split_asset_ctxs_by_coin_month fs dataset) = Ok cs ->
  total cs = admitted target_schema dataset.
Proof using Type conv_date_int names_distinct coin_field date_field.
  stated_vars.
  intros Hd. apply (dated_rows_are_all_counted _ _ _ _ _ _ _ _ _ _ conv_date_int).
  intros raw b tbl Hin. apply dated_batch_normalized. apply Hd. exact Hin.
Qed.

End Dated.

End Run.

(** *** Runs on the default schema *)

Lemma summary_counts_the_rows_written_witness :
  total (counts (fst (Reference.run 2 64 true Reference.no_close_fails [Reference.rows 5])))
  = list_sum (write_sizes
                (log (fst (Reference.run 2 64 true Reference.no_close_fails
                             [Reference.rows 5]))))
  /\ write_sizes (log (fst (Reference.run 2 64 true Reference.no_close_fails
                              [Reference.rows 5])))
     = [2; 2; 1]%nat.
Proof.
  split; [|vm_compute; reflexivity].
  refine (proj1 (summary_counts_the_rows_written Reference.castable Reference.conv
                   Reference.common Reference.utc "out" 2 Reference.DEFAULT_SCHEMA true 64
                   Reference.no_close_fails ∅ [Reference.rows 5] _)).
  lia.
Defined.

Lemma every_write_is_a_row_group_witness :
  Forall (fun n => (1 <= n <= Z.to_nat 2)%nat)
    (write_sizes (log (fst (Reference.run 2 64 true Reference.no_close_fails
                              [Reference.rows 5])))).
Proof.
  refine (every_write_is_a_row_group Reference.castable Reference.conv
            Reference.common Reference.utc "out" 2 Reference.DEFAULT_SCHEMA true 64
            Reference.no_close_fails ∅ [Reference.rows 5] _).
  lia.
Defined.

(** Three rows are counted, and none is written. *)
Lemma negative_row_group_size_writes_nothing_witness :
  write_sizes (log (fst (Reference.run (-1) 64 true Reference.no_close_fails
                           Reference.three_coins))) = []
  /\ option_map total
       (match snd (Reference.run (-1) 64 true Reference.no_close_fails
                     Reference.three_coins) with
        | Ok cs => Some cs
        | Err _ => None
        end) = Some 3%nat.
Proof.
  split; [|vm_compute; reflexivity].
  refine (proj1 (negative_row_group_size_writes_nothing Reference.castable Reference.conv
                   Reference.common Reference.utc "out" (-1) Reference.DEFAULT_SCHEMA true 64
                   Reference.no_close_fails ∅ Reference.three_coins _)).
  lia.
Defined.

Lemma written_tables_have_the_target_schema_witness :
  exists ts : list table,
    files (fst (Reference.run 2 64 true Reference.no_close_fails [Reference.rows 5]))
      !! "out/BTC/2024-08.parquet"%string = Some ts
    /\ length ts = 3%nat
    /\ Forall (fun t => schema_of t = Reference.DEFAULT_SCHEMA) ts.
Proof.
  eexists. split; [vm_compute; reflexivity|]. split; [reflexivity|].
  refine (written_tables_have_the_target_schema Reference.castable Reference.conv
            Reference.common Reference.utc "out" 2 Reference.DEFAULT_SCHEMA true 64
            Reference.no_close_fails ∅ [Reference.rows 5]
            (mkHandle 0 "out/BTC/2024-08.parquet") _ _ _).
  - vm_compute. tauto.
  - vm_compute. reflexivity.
Defined.

(** A run over a directory that has a file of the partition already. *)
Lemma overwrite_false_overwrites_too_witness :
  files (fst (Rebucket.split_asset_ctxs_by_coin_month Reference.castable Reference.conv
                Reference.common Reference.utc "out" 1000000 Reference.DEFAULT_SCHEMA
                true 64 Reference.no_close_fails
                {[ "out/BTC/2024-08.parquet"%string := [Reference.rows 7] ]}
                [Reference.rows 2]))
  = files (fst (Rebucket.split_asset_ctxs_by_coin_month Reference.castable Reference.conv
                  Reference.common Reference.utc "out" 1000000 Reference.DEFAULT_SCHEMA
                  false 64 Reference.no_close_fails
                  {[ "out/BTC/2024-08.parquet"%string := [Reference.rows 7] ]}
                  [Reference.rows 2])).
Proof.
  refine (proj1 (overwrite_false_overwrites_too Reference.castable Reference.conv
                   Reference.common Reference.utc "out" 1000000 Reference.DEFAULT_SCHEMA
                   64 Reference.no_close_fails _ [Reference.rows 2] _ _)).
  - lia.
  - intros raw [<-|[]]. vm_compute. reflexivity.
Defined.

Definition three_sub_batches : list (key * table) :=
  [ (Reference.btc_aug, Reference.rows 3);
    (Reference.eth_aug, Reference.rows 1);
    (Reference.btc_aug, Reference.rows 2) ].

Lemma counts_are_per_key_row_sums_witness :
  exists st : state,
    Rebucket.sub_batches "out" 2 true 1 Reference.no_close_fails three_sub_batches (init ∅)
    = (st, Ok tt)
    /\ counts st !! Reference.btc_aug = Some 5%nat.
Proof.
  pose (p := Rebucket.sub_batches "out" 2 true 1 Reference.no_close_fails
               three_sub_batches (init ∅)).
  assert (H : p = (fst p, Ok tt)) by (vm_compute; reflexivity).
  exists (fst p). split; [exact H|].
  rewrite (counts_are_per_key_row_sums "out" 2 true 1 Reference.no_close_fails ∅
             three_sub_batches (fst p) Reference.btc_aug H).
  reflexivity.
Defined.

Lemma enough_writers_lose_no_row_witness :
  exists st : state,
    Rebucket.sub_batches "out" 2 true 2 Reference.no_close_fails three_sub_batches (init ∅)
    = (st, Ok tt)
    /\ Forall no_close (log st)
    /\ option_map (map num_rows) (files st !! "out/BTC/2024-08.parquet"%string)
       = Some [2; 1; 2]%nat
    /\ counts st !! Reference.btc_aug = Some 5%nat.
Proof.
  destruct (enough_writers_lose_no_row "out" 2 true 2 Reference.no_close_fails
              [Reference.btc_aug; Reference.eth_aug]) with (fs := ∅ : gmap string (list table))
                                                            (subs := three_sub_batches)
    as (st & Hrun & Hopen & Hk).
  - repeat constructor; simpl; intuition discriminate.
  - simpl. lia.
  - intros k [<-|[<-|[]]]; reflexivity.
  - lia.
  - intros kt [<-|[<-|[<-|[]]]]; simpl; tauto.
  - exists st. split; [exact Hrun|]. split; [exact Hopen|].
    destruct (Hk Reference.btc_aug) as (Hf & Hc & _); [left; reflexivity|].
    split; [|exact Hc]. cbn [fst snd Reference.btc_aug] in Hf.
    change (Rebucket.out_path "out" "BTC" "2024-08") with "out/BTC/2024-08.parquet"%string in Hf.
    rewrite Hf. vm_compute. reflexivity.
Defined.

Definition returned {A} (r : result A) : bool :=
  match r with
  | Ok _ => true
  | Err _ => false
  end.

Definition value {A} (d : A) (r : result A) : A :=
  match r with
  | Ok a => a
  | Err _ => d
  end.

Lemma returned_value {A} (d : A) (r : result A) :
  returned r = true -> r = Ok (value d r).
Proof. destruct r; [reflexivity|discriminate]. Defined.

Lemma dated_batches_are_counted_in_full_witness :
  returned (snd (Reference.run 1000000 64 true Reference.no_close_fails
                   Reference.three_coins)) = true
  /\ total (value ∅ (snd (Reference.run 1000000 64 true Reference.no_close_fails
                            Reference.three_coins))) = 3%nat.
Proof.
  assert (Hok : returned (snd (Reference.run 1000000 64 true Reference.no_close_fails
                                 Reference.three_coins)) = true)
    by (vm_compute; reflexivity).
  split; [exact Hok|].
  transitivity (admitted Reference.DEFAULT_SCHEMA Reference.three_coins);
    [|vm_compute; reflexivity].
  apply (dated_batches_are_counted_in_full Reference.castable Reference.conv
           Reference.common Reference.utc "out" 1000000 Reference.DEFAULT_SCHEMA
           true 64 Reference.no_close_fails reference_conv_date_int
           NormalizerTables.default_schema_names_distinct) with (fs := ∅)
                                                                 (dataset := Reference.three_coins);
    [right; left; reflexivity|do 12 right; left; reflexivity|
    |apply (returned_value ∅ _ Hok)].
  intros raw [<-|[]]. split; [repeat constructor|].
  eexists _, _. split; [vm_compute; reflexivity|]. split; [reflexivity|].
  split.
  { repeat (apply List.Forall_cons; [right; eexists; reflexivity|]).
    apply List.Forall_nil. }
  split; [vm_compute; reflexivity|]. split; [reflexivity|].
  repeat (apply List.Forall_cons; [eexists; reflexivity|]). apply List.Forall_nil.
Defined.

End RebucketRun.

(** ** The regular-trading-hours filter on frames without duplicates *)

Module CleanIntradayRuns.
Import CleanIntraday CleanIntradayFacts.

Lemma has_dup_NoDup (l : list Z) : has_dup l = false <-> List.NoDup l.
Proof.
  induction l as [|x l IH]; simpl.
  - split; [constructor|reflexivity].
  - rewrite orb_false_iff, IH, List.NoDup_cons_iff. split; intros [H1 H2]; split; auto.
    + intros Hin. apply not_true_iff_false in H1. apply H1.
      apply existsb_exists. exists x. split; [exact Hin|apply Z.eqb_refl].
    + apply not_true_iff_false. intros He. apply existsb_exists in He.
      destruct He as (y & Hy & Hxy). apply Z.eqb_eq in Hxy. subst y. contradiction.
Qed.

Lemma insert_label_perm (x : Z) (l : list Z) : Permutation (insert_label x l) (x :: l).
Proof.
  induction l as [|y l IH]; simpl; [reflexivity|].
  destruct (x <? y); [reflexivity|].
  rewrite IH. apply perm_swap.
Qed.

Lemma sort_labels_perm (l : list Z) : Permutation (fold_right insert_label [] l) l.
Proof.
  induction l as [|x l IH]; simpl; [reflexivity|].
  rewrite insert_label_perm, IH. reflexivity.
Qed.

Lemma insert_label_sorted (x : Z) (l : list Z) :
  StronglySorted Z.le l -> StronglySorted Z.le (insert_label x l).
Proof.
  induction 1 as [|y l Hl IH Hy]; simpl; [repeat constructor|].
  destruct (x <? y) eqn:Hxy.
  - apply Z.ltb_lt in Hxy. constructor; [constructor; assumption|].
    constructor; [lia|]. rewrite List.Forall_forall in *. intros z Hz.
    specialize (Hy z Hz). lia.
  - apply Z.ltb_ge in Hxy. constructor; [exact IH|].
    rewrite List.Forall_forall in *. intros z Hz.
    apply (Permutation_in _ (insert_label_perm x l)) in Hz.
    destruct Hz as [<-|Hz]; [exact Hxy|auto].
Qed.

Lemma sort_labels_sorted (l : list Z) : StronglySorted Z.le (fold_right insert_label [] l).
Proof.
  induction l as [|x l IH]; simpl; [constructor|]. apply insert_label_sorted. exact IH.
Qed.

(** The union of two indexes is in increasing order. *)
Lemma union_sorted (a b : list Z) : StronglySorted Z.le (union a b).
Proof. apply sort_labels_sorted. Qed.

Lemma remove_one_NoDup (x : Z) (l : list Z) :
  List.NoDup l -> List.NoDup (remove_one x l) /\ ~ In x (remove_one x l)
                  /\ forall y, In y (remove_one x l) -> In y l.
Proof.
  induction 1 as [|y l Hy Hl (IH1 & IH2 & IH3)]; simpl.
  - split; [constructor|]. split; [tauto|tauto].
  - destruct (x =? y) eqn:Hxy.
    + apply Z.eqb_eq in Hxy. subst y. split; [exact Hl|]. split; [exact Hy|]. auto.
    + apply Z.eqb_neq in Hxy. split; [|split].
      * constructor; [|exact IH1]. intros Hin. apply Hy. auto.
      * simpl. intros [H|H]; [congruence|contradiction].
      * simpl. intros z [H|H]; auto.
Qed.

Lemma remove_one_keeps (x y : Z) (l : list Z) :
  In y l -> y <> x -> In y (remove_one x l).
Proof.
  induction l as [|z l IH]; simpl; [tauto|].
  intros [->|Hin] Hne.
  - destruct (x =? y) eqn:Hxy; [apply Z.eqb_eq in Hxy; congruence|left; reflexivity].
  - destruct (x =? z); [exact Hin|right; auto].
Qed.

Lemma remove_all_NoDup (a b : list Z) :
  List.NoDup b ->
  List.NoDup (fold_right remove_one b a)
  /\ (forall y, In y (fold_right remove_one b a) -> In y b /\ ~ In y a).
Proof.
  intros Hb. induction a as [|x a (IH1 & IH2)]; simpl.
  - split; [exact Hb|]. tauto.
  - destruct (remove_one_NoDup x _ IH1) as (H1 & H2 & H3).
    split; [exact H1|]. intros y Hy. destruct (IH2 y (H3 y Hy)) as [Hin Hna].
    split; [exact Hin|]. intros [->|Ha]; [contradiction|contradiction].
Qed.

Lemma remove_all_keeps (a b : list Z) (y : Z) :
  In y b -> ~ In y a -> In y (fold_right remove_one b a).
Proof.
  induction a as [|x a IH]; simpl; [tauto|].
  intros Hb Hna. apply remove_one_keeps; [apply IH; tauto|]. intros ->. tauto.
Qed.

(** Without duplicates on either side, the union has none, and it has
    every label of both. *)
Lemma union_NoDup (a b : list Z) :
  List.NoDup a -> List.NoDup b -> List.NoDup (union a b).
Proof.
  intros Ha Hb. unfold union.
  apply (Permutation.Permutation_NoDup (l := a ++ fold_right remove_one b a)).
  - symmetry. apply sort_labels_perm.
  - destruct (remove_all_NoDup a b Hb) as [H1 H2].
    apply List.NoDup_app; [exact Ha|exact H1|]. intros x Hx Hx'.
    apply H2 in Hx'. tauto.
Qed.

Lemma union_has (a b : list Z) (x : Z) : In x a \/ In x b -> In x (union a b).
Proof.
  intros H. unfold union.
  apply (Permutation_in _ (Permutation_sym (sort_labels_perm _))).
  apply in_or_app. destruct (in_dec Z.eq_dec x a) as [Ha|Hna]; [left; exact Ha|].
  right. apply remove_all_keeps; tauto.
Qed.

Section Frames.

Variable V : Type.
Variable tz_offset_ns : string -> Z -> Z.

Local Abbreviation frame := (CleanIntraday.frame V).
Local Abbreviation row := (Z * list (option V))%type.
Local Abbreviation index := (CleanIntraday.index V).
Local Abbreviation f_rows := (CleanIntraday.f_rows V).
Local Abbreviation rth_frame := (CleanIntradayFacts.rth_frame V tz_offset_ns).
Local Abbreviation in_session := (CleanIntradayFacts.in_session tz_offset_ns).
Local Abbreviation clean_to_rth := (CleanIntraday.clean_to_rth V tz_offset_ns).
Local Abbreviation reindex := (CleanIntraday.reindex V).
Local Abbreviation loc_mask := (CleanIntraday.loc_mask V).
Local Abbreviation all_nan := (CleanIntraday.all_nan V).

Lemma insert_row_perm (r : row) (rs : list row) :
  Permutation (insert_row V r rs) (r :: rs).
Proof.
  induction rs as [|r' rs IH]; simpl; [reflexivity|].
  destruct (fst r <=? fst r'); [reflexivity|].
  rewrite IH. apply perm_swap.
Qed.

Lemma sort_index_perm (df : frame) :
  Permutation (f_rows (sort_index V df)) (f_rows df).
Proof.
  unfold sort_index. simpl. induction (f_rows df) as [|r rs IH]; simpl; [reflexivity|].
  rewrite insert_row_perm, IH. reflexivity.
Qed.

Lemma index_select_rows (p : Z -> bool) (df : frame) :
  index (select_rows V p df) = List.filter p (index df).
Proof.
  unfold CleanIntraday.index, select_rows. simpl.
  induction (f_rows df) as [|r rs IH]; simpl; [reflexivity|].
  destruct (p (fst r)); simpl; congruence.
Qed.

(** The rows of the frame cut to the session are rows of the frame, and
    its index has no duplicate if the frame's has none. *)
Lemma rth_frame_NoDup (tz : string) (inc : inclusive) (df : frame) :
  List.NoDup (index df) -> List.NoDup (index (rth_frame tz inc df)).
Proof.
  intros H. unfold CleanIntradayFacts.rth_frame, between_time.
  rewrite !index_select_rows. apply List.NoDup_filter, List.NoDup_filter.
  apply (Permutation.Permutation_NoDup (l := index df)); [|exact H].
  unfold CleanIntraday.index. apply Permutation_map. symmetry.
  apply (sort_index_perm (_ensure_tz V tz df)).
Qed.

Lemma reindex_returns (df : frame) (idx : list Z) :
  List.NoDup (index df) -> exists df', reindex df idx = Ok df'.
Proof.
  intros H. unfold CleanIntraday.reindex. destruct (bool_decide _); [eauto|].
  apply has_dup_NoDup in H. rewrite H. eauto.
Qed.

(** X16: [clean_to_rth] returns whenever neither frame has a timestamp
    twice. *)
Theorem clean_to_rth_returns_without_duplicates (prices volumes : frame) (tz : string)
    (include_close_bar : bool) :
  has_dup (index prices) = false ->
  has_dup (index volumes) = false ->
  exists p v : frame, clean_to_rth prices volumes tz include_close_bar = Ok (p, v).
Proof.
  intros Hp Hv. apply has_dup_NoDup in Hp, Hv. unfold CleanIntraday.clean_to_rth.
  fold (rth_frame tz (if include_close_bar then incl_both else incl_left) prices).
  fold (rth_frame tz (if include_close_bar then incl_both else incl_left) volumes).
  set (P := rth_frame tz _ prices). set (W := rth_frame tz _ volumes).
  destruct (reindex_returns P (union (index P) (index W))) as [P' HP];
    [apply rth_frame_NoDup; exact Hp|].
  destruct (reindex_returns W (union (index P) (index W))) as [W' HW];
    [apply rth_frame_NoDup; exact Hv|].
  rewrite HP, HW. simpl. eauto.
Qed.

(** *** The order of the output *)

Lemma loc_mask_sorted (R : Z -> Z -> Prop) (mask : list bool) (rs : list row) :
  StronglySorted R (map fst rs) -> StronglySorted R (map fst (loc_mask mask rs)).
Proof.
  revert rs. induction mask as [|b mask IH]; intros rs H; [destruct rs; constructor|].
  destruct rs as [|r rs]; [destruct b; constructor|].
  simpl in H. apply StronglySorted_inv in H. destruct H as [Hs Hr].
  destruct b; simpl; [|apply IH; exact Hs].
  constructor; [apply IH; exact Hs|].
  rewrite List.Forall_forall in *. intros x Hx. apply Hr.
  apply in_map_iff in Hx. destruct Hx as (r' & <- & Hr').
  apply in_map. eapply in_loc_mask; eauto.
Qed.

Lemma sorted_strict (l : list Z) :
  StronglySorted Z.le l -> List.NoDup l -> StronglySorted Z.lt l.
Proof.
  induction 1 as [|x l Hl IH Hx]; intros Hnd; [constructor|].
  apply List.NoDup_cons_iff in Hnd. destruct Hnd as [Hnin Hnd].
  constructor; [apply IH; exact Hnd|].
  rewrite List.Forall_forall in *. intros y Hy. specialize (Hx y Hy).
  assert (x <> y) by (intros ->; contradiction). lia.
Qed.

(** X17: The frames that [clean_to_rth] returns are in increasing order of
    time, whatever the order of the input; strictly so when neither
    input has a timestamp twice. *)
Theorem clean_to_rth_output_is_sorted (prices volumes p v : frame) (tz : string)
    (include_close_bar : bool) :
  clean_to_rth prices volumes tz include_close_bar = Ok (p, v) ->
  StronglySorted Z.le (index p)
  /\ StronglySorted Z.le (index v)
  /\ (has_dup (index prices) = false -> has_dup (index volumes) = false ->
      StronglySorted Z.lt (index p) /\ StronglySorted Z.lt (index v)).
Proof.
  unfold CleanIntraday.clean_to_rth.
  fold (rth_frame tz (if include_close_bar then incl_both else incl_left) prices).
  fold (rth_frame tz (if include_close_bar then incl_both else incl_left) volumes).
  set (P := rth_frame tz _ prices). set (W := rth_frame tz _ volumes).
  destruct (reindex P (union (index P) (index W))) as [P'|] eqn:HP; simpl; [|discriminate].
  destruct (reindex W (union (index P) (index W))) as [W'|] eqn:HW; simpl; [|discriminate].
  intros [= <- <-].
  apply reindex_index in HP. apply reindex_index in HW.
  unfold CleanIntraday.index in *. cbn [CleanIntraday.f_rows].
  assert (Hsorted : forall R, StronglySorted R (union (map fst (f_rows P)) (map fst (f_rows W))) ->
                      StronglySorted R (map fst (loc_mask
                         (map (fun pv : row * row =>
                                 negb (all_nan (snd (fst pv)) && all_nan (snd (snd pv))))
                              (combine (f_rows P') (f_rows W'))) (f_rows P')))
                      /\ StronglySorted R (map fst (loc_mask
                         (map (fun pv : row * row =>
                                 negb (all_nan (snd (fst pv)) && all_nan (snd (snd pv))))
                              (combine (f_rows P') (f_rows W'))) (f_rows W')))).
  { intros R HR. split; apply loc_mask_sorted; [rewrite HP|rewrite HW]; exact HR. }
  split; [apply Hsorted, union_sorted|]. split; [apply Hsorted, union_sorted|].
  intros Hp Hv. apply has_dup_NoDup in Hp, Hv. apply Hsorted.
  apply sorted_strict; [apply union_sorted|].
  apply union_NoDup; apply rth_frame_NoDup; assumption.
Qed.

(** *** Duplicate timestamps *)

Lemma filter_twice (p : Z -> bool) (t : Z) (l1 l2 l3 : list Z) :
  p t = true -> ~ List.NoDup (List.filter p (l1 ++ t :: l2 ++ t :: l3)).
Proof.
  intros Hp Hnd. rewrite List.filter_app in Hnd. apply List.NoDup_app_remove_l in Hnd.
  cbn [List.filter] in Hnd. rewrite Hp in Hnd.
  apply List.NoDup_cons_iff in Hnd. destruct Hnd as [Hnin _]. apply Hnin.
  apply List.filter_In. split; [|exact Hp]. apply in_or_app. right. left. reflexivity.
Qed.

(** The session filter as one predicate on instants. *)
Definition session_filter (tz : string) (inc : inclusive) (t : Z) : bool :=
  (dayofweek tz_offset_ns tz t <? 5)
  && ((hm_micros 9 30 <=? time_micros tz_offset_ns tz t)
      && match inc with
         | incl_both => time_micros tz_offset_ns tz t <=? hm_micros 16 0
         | incl_left => time_micros tz_offset_ns tz t <? hm_micros 16 0
         end).

Lemma filter_filter (p q : Z -> bool) (l : list Z) :
  List.filter q (List.filter p l) = List.filter (fun x => p x && q x) l.
Proof.
  induction l as [|x l IH]; simpl; [reflexivity|].
  destruct (p x); simpl; [destruct (q x); congruence|exact IH].
Qed.

Lemma filter_perm (p : Z -> bool) (l l' : list Z) :
  Permutation l l' -> Permutation (List.filter p l) (List.filter p l').
Proof.
  induction 1 as [|x l l' _ IH|x y l|l l' l'' _ IH1 _ IH2]; simpl.
  - reflexivity.
  - destruct (p x); [constructor|]; exact IH.
  - destruct (p x), (p y); try reflexivity. apply perm_swap.
  - etransitivity; eauto.
Qed.

(** The index of the frame cut to the session: the instants of the
    input that pass the filter, in some order. *)
Lemma rth_frame_index (tz : string) (inc : inclusive) (df : frame) :
  Permutation (index (rth_frame tz inc df)) (List.filter (session_filter tz inc) (index df)).
Proof.
  unfold CleanIntradayFacts.rth_frame, between_time.
  rewrite !index_select_rows, filter_filter. apply filter_perm.
  unfold CleanIntraday.index. apply Permutation_map.
  apply (sort_index_perm (_ensure_tz V tz df)).
Qed.

Lemma session_filter_spec (tz : string) (include_close_bar : bool) (t : Z) :
  session_filter tz (if include_close_bar then incl_both else incl_left) t = true
  <-> in_session tz include_close_bar t.
Proof.
  unfold session_filter, CleanIntradayFacts.in_session.
  rewrite !andb_true_iff, Z.ltb_lt, Z.leb_le.
  assert (H0 : 0 <= dayofweek tz_offset_ns tz t).
  { unfold dayofweek. apply Z.mod_pos_bound. lia. }
  destruct include_close_bar; [rewrite Z.leb_le|rewrite Z.ltb_lt]; tauto.
Qed.

(** X18: A timestamp that occurs twice in the prices, within the session,
    makes [clean_to_rth] raise ValueError as soon as the volumes have a
    bar of the session at an instant that the prices do not have: the
    prices cannot be reindexed on the union. *)
Theorem duplicate_timestamps_raise (prices volumes : frame) (tz : string)
    (include_close_bar : bool) (t s : Z) (l1 l2 l3 : list Z) :
  index prices = l1 ++ t :: l2 ++ t :: l3 ->
  in_session tz include_close_bar t ->
  In s (index volumes) ->
  in_session tz include_close_bar s ->
  ~ In s (index prices) ->
  clean_to_rth prices volumes tz include_close_bar = Err ValueError.
Proof.
  intros Hidx Ht Hs Hss Hns. unfold CleanIntraday.clean_to_rth.
  fold (rth_frame tz (if include_close_bar then incl_both else incl_left) prices).
  fold (rth_frame tz (if include_close_bar then incl_both else incl_left) volumes).
  set (inc := if include_close_bar then incl_both else incl_left).
  set (P := rth_frame tz inc prices). set (W := rth_frame tz inc volumes).
  assert (Hdup : has_dup (index P) = true).
  { apply not_false_iff_true. intros H. apply has_dup_NoDup in H.
    apply (Permutation.Permutation_NoDup (rth_frame_index tz inc prices)) in H.
    rewrite Hidx in H. revert H. apply filter_twice.
    apply session_filter_spec. exact Ht. }
  assert (Hne : index P <> union (index P) (index W)).
  { intros Heq.
    assert (HsW : In s (index W)).
    { apply (Permutation_in _ (Permutation_sym (rth_frame_index tz inc volumes))).
      apply List.filter_In. split; [exact Hs|]. apply session_filter_spec. exact Hss. }
    assert (HsP : In s (index P)) by (rewrite Heq; apply union_has; right; exact HsW).
    apply (Permutation_in _ (rth_frame_index tz inc prices)) in HsP.
    apply List.filter_In in HsP. tauto. }
  unfold CleanIntraday.reindex at 1.
  rewrite bool_decide_eq_false_2 by exact Hne. rewrite Hdup. reflexivity.
Qed.

(** *** No bar of the session is lost *)

Lemma rth_frame_rows (tz : string) (inc : inclusive) (df : frame) (r : row) :
  In r (f_rows (rth_frame tz inc df))
  <-> In r (f_rows df) /\ session_filter tz inc (fst r) = true.
Proof.
  unfold CleanIntradayFacts.rth_frame, between_time, select_rows, session_filter.
  cbn [CleanIntraday.f_rows].
  rewrite !List.filter_In, !andb_true_iff.
  rewrite (in_sort_index V (_ensure_tz V tz df) r). cbn [_ensure_tz CleanIntraday.f_rows].
  tauto.
Qed.

Lemma find_row_unique (t : Z) (cells : list (option V)) (rs : list row) :
  List.NoDup (map fst rs) -> In (t, cells) rs -> find_row V t rs = Some cells.
Proof.
  induction rs as [|r rs IH]; simpl; [tauto|].
  intros Hnd Hin. apply List.NoDup_cons_iff in Hnd. destruct Hnd as [Hnin Hnd].
  destruct Hin as [->|Hin]; simpl.
  - rewrite Z.eqb_refl. reflexivity.
  - destruct (fst r =? t) eqn:He; [|auto].
    apply Z.eqb_eq in He. exfalso. apply Hnin. rewrite He.
    apply (in_map fst) in Hin. exact Hin.
Qed.

Lemma reindex_keeps (df df' : frame) (idx : list Z) (t : Z) (cells : list (option V)) :
  reindex df idx = Ok df' ->
  In (t, cells) (f_rows df) ->
  In t idx ->
  In (t, cells) (f_rows df').
Proof.
  unfold CleanIntraday.reindex. destruct (bool_decide _); [intros [= <-]; auto|].
  destruct (has_dup _) eqn:Hd; [discriminate|]. apply has_dup_NoDup in Hd.
  intros [= <-] Hin Ht. cbn [CleanIntraday.f_rows]. apply in_map_iff.
  exists t. split; [|exact Ht].
  rewrite (find_row_unique t cells _ Hd Hin). reflexivity.
Qed.

Lemma loc_mask_keeps_left (g : row * row -> bool) (rps rvs : list row) (rp : row) :
  In rp rps -> (forall rv, g (rp, rv) = true) -> length rps = length rvs ->
  In rp (loc_mask (map g (combine rps rvs)) rps).
Proof.
  intros Hin Hg. revert rvs. induction rps as [|x rps IH]; intros rvs Hlen; [destruct Hin|].
  destruct rvs as [|y rvs]; [discriminate|]. injection Hlen as Hlen. simpl.
  destruct Hin as [->|Hin].
  - rewrite Hg. left. reflexivity.
  - destruct (g (x, y)); [right|]; apply IH; assumption.
Qed.

Lemma loc_mask_keeps_right (g : row * row -> bool) (rps rvs : list row) (rv : row) :
  In rv rvs -> (forall rp, g (rp, rv) = true) -> length rps = length rvs ->
  In rv (loc_mask (map g (combine rps rvs)) rvs).
Proof.
  intros Hin Hg. revert rps. induction rvs as [|y rvs IH]; intros rps Hlen; [destruct Hin|].
  destruct rps as [|x rps]; [discriminate|]. injection Hlen as Hlen. simpl.
  destruct Hin as [->|Hin].
  - rewrite Hg. left. reflexivity.
  - destruct (g (x, y)); [right|]; apply IH; assumption.
Qed.

Lemma same_index_length (rps rvs : list row) :
  map fst rps = map fst rvs -> length rps = length rvs.
Proof.
  intros H. apply (f_equal (@length Z)) in H. rewrite !length_map in H. exact H.
Qed.

(** X19: Whenever [clean_to_rth] returns, every bar of the prices that is in
    the session and has a value in some column is a row of the prices
    returned, with the same cells; and likewise for the volumes. *)
Theorem session_bars_are_kept (prices volumes p v : frame) (tz : string)
    (include_close_bar : bool) :
  clean_to_rth prices volumes tz include_close_bar = Ok (p, v) ->
  (forall (t : Z) (cells : list (option V)),
      In (t, cells) (f_rows prices) -> in_session tz include_close_bar t ->
      all_nan cells = false -> In (t, cells) (f_rows p))
  /\ (forall (t : Z) (cells : list (option V)),
        In (t, cells) (f_rows volumes) -> in_session tz include_close_bar t ->
        all_nan cells = false -> In (t, cells) (f_rows v)).
Proof.
  unfold CleanIntraday.clean_to_rth.
  fold (rth_frame tz (if include_close_bar then incl_both else incl_left) prices).
  fold (rth_frame tz (if include_close_bar then incl_both else incl_left) volumes).
  set (inc := if include_close_bar then incl_both else incl_left).
  set (P := rth_frame tz inc prices). set (W := rth_frame tz inc volumes).
  destruct (reindex P (union (index P) (index W))) as [P'|] eqn:HP; simpl; [|discriminate].
  destruct (reindex W (union (index P) (index W))) as [W'|] eqn:HW; simpl; [|discriminate].
  intros [= <- <-]. cbn [CleanIntraday.f_rows].
  assert (Hlen : length (f_rows P') = length (f_rows W')).
  { apply same_index_length. apply reindex_index in HP, HW.
    unfold CleanIntraday.index in *. congruence. }
  split; intros t cells Hin Hs Hnan.
  - apply loc_mask_keeps_left; [|intros rv; cbn [fst snd]; rewrite Hnan; reflexivity|exact Hlen].
    assert (HinP : In (t, cells) (f_rows P)).
    { apply rth_frame_rows. split; [exact Hin|]. apply session_filter_spec. exact Hs. }
    apply (reindex_keeps _ _ _ _ _ HP HinP).
    apply union_has. left. apply (in_map fst) in HinP. exact HinP.
  - apply loc_mask_keeps_right;
      [|intros rp; cbn [fst snd]; rewrite Hnan, andb_false_r; reflexivity|exact Hlen].
    assert (HinW : In (t, cells) (f_rows W)).
    { apply rth_frame_rows. split; [exact Hin|]. apply session_filter_spec. exact Hs. }
    apply (reindex_keeps _ _ _ _ _ HW HinW).
    apply union_has. right. apply (in_map fst) in HinW. exact HinW.
Qed.

(** *** Cleaning what is clean *)

(** What the two frames returned have in common. *)
Lemma clean_to_rth_aligned (prices volumes p v : frame) (tz : string)
    (include_close_bar : bool) :
  clean_to_rth prices volumes tz include_close_bar = Ok (p, v) ->
  index p = index v
  /\ (forall t : Z, In t (index p) -> in_session tz include_close_bar t)
  /\ (forall (i : nat) (rp rv : row),
        f_rows p !! i = Some rp -> f_rows v !! i = Some rv ->
        all_nan (snd rp) && all_nan (snd rv) = false)
  /\ f_tz V p = Some tz
  /\ f_tz V v = Some tz.
Proof.
  unfold CleanIntraday.clean_to_rth.
  fold (rth_frame tz (if include_close_bar then incl_both else incl_left) prices).
  fold (rth_frame tz (if include_close_bar then incl_both else incl_left) volumes).
  set (P := rth_frame tz _ prices). set (W := rth_frame tz _ volumes).
  destruct (reindex P (union (index P) (index W))) as [P'|] eqn:HP; simpl; [|discriminate].
  destruct (reindex W (union (index P) (index W))) as [W'|] eqn:HW; simpl; [|discriminate].
  intros [= <- <-].
  assert (Htz : forall (df df' : frame) idx,
             f_tz V df = Some tz -> reindex df idx = Ok df' -> f_tz V df' = Some tz).
  { intros df df' idx Hz. unfold CleanIntraday.reindex.
    destruct (bool_decide _); [intros [= <-]; exact Hz|].
    destruct (has_dup _); [discriminate|]. intros [= <-]. exact Hz. }
  pose proof (Htz P P' _ eq_refl HP) as HtzP. pose proof (Htz W W' _ eq_refl HW) as HtzW.
  apply reindex_index in HP. apply reindex_index in HW.
  split; [|split; [|split; [|split; [exact HtzP|exact HtzW]]]].
  - unfold CleanIntraday.index at 1 2. simpl. apply index_loc_mask.
    fold (index P'). fold (index W'). congruence.
  - intros t Ht. unfold CleanIntraday.index in Ht. simpl in Ht. apply in_map_iff in Ht.
    destruct Ht as (r & <- & Hr). apply in_loc_mask in Hr.
    assert (Hidx : In (fst r) (index P')) by (apply in_map; exact Hr).
    rewrite HP in Hidx. apply in_union in Hidx.
    destruct Hidx as [H|H]; eapply rth_frame_in_session; eauto.
  - simpl. intros i rp rv Hp Hv.
    pose proof (loc_mask_pairs _ _ _ _ _ _ _ Hp Hv) as Hg. simpl in Hg.
    apply negb_true_iff in Hg. exact Hg.
Qed.

Lemma sort_rows_sorted (rs : list row) :
  StronglySorted Z.lt (map fst rs) -> fold_right (insert_row V) [] rs = rs.
Proof.
  induction rs as [|r rs IH]; simpl; [reflexivity|].
  intros H. apply StronglySorted_inv in H. destruct H as [Hs Hr].
  rewrite (IH Hs). destruct rs as [|r' rs]; [reflexivity|]. simpl.
  apply List.Forall_cons_iff in Hr. destruct Hr as [Hlt _].
  apply Z.lt_le_incl, Z.leb_le in Hlt. rewrite Hlt. reflexivity.
Qed.

Lemma sort_labels_fixed (l : list Z) :
  StronglySorted Z.lt l -> fold_right insert_label [] l = l.
Proof.
  induction l as [|x l IH]; simpl; [reflexivity|].
  intros H. apply StronglySorted_inv in H. destruct H as [Hs Hr].
  rewrite (IH Hs). destruct l as [|y l]; [reflexivity|]. simpl.
  apply List.Forall_cons_iff in Hr. destruct Hr as [Hlt _].
  apply Z.ltb_lt in Hlt. rewrite Hlt. reflexivity.
Qed.

Lemma filter_all_rows (f : row -> bool) (rs : list row) :
  (forall r, In r rs -> f r = true) -> List.filter f rs = rs.
Proof.
  induction rs as [|r rs IH]; simpl; [reflexivity|]. intros H.
  rewrite (H r) by (left; reflexivity). f_equal. apply IH. auto.
Qed.

Lemma strict_NoDup (l : list Z) : StronglySorted Z.lt l -> List.NoDup l.
Proof.
  induction 1 as [|x l Hl IH Hx]; constructor; [|exact IH].
  intros Hin. rewrite List.Forall_forall in Hx. specialize (Hx x Hin). lia.
Qed.

Lemma union_self (l : list Z) : StronglySorted Z.lt l -> union l l = l.
Proof.
  intros H. unfold union.
  destruct (remove_all_NoDup l l (strict_NoDup l H)) as [_ Hnone].
  destruct (fold_right remove_one l l) as [|y rest].
  - rewrite app_nil_r. apply sort_labels_fixed. exact H.
  - exfalso. destruct (Hnone y); [left; reflexivity|]. contradiction.
Qed.

Lemma loc_mask_all (g : row * row -> bool) (rps rvs : list row) :
  length rps = length rvs ->
  (forall i rp rv, rps !! i = Some rp -> rvs !! i = Some rv -> g (rp, rv) = true) ->
  loc_mask (map g (combine rps rvs)) rps = rps
  /\ loc_mask (map g (combine rps rvs)) rvs = rvs.
Proof.
  revert rvs. induction rps as [|x rps IH]; intros [|y rvs] Hlen Hg; try discriminate;
    [split; reflexivity|].
  injection Hlen as Hlen. simpl. rewrite (Hg O x y eq_refl eq_refl).
  destruct (IH rvs Hlen) as [H1 H2].
  { intros i rp rv Hp Hv. apply (Hg (S i)); assumption. }
  rewrite H1, H2. split; reflexivity.
Qed.

(** A frame in the zone, in strictly increasing order, all of whose
    instants are in the session, is left as it is by the cut. *)
Lemma rth_frame_fixed (tz : string) (inc : inclusive) (df : frame) :
  f_tz V df = Some tz ->
  StronglySorted Z.lt (index df) ->
  (forall t, In t (index df) -> session_filter tz inc t = true) ->
  rth_frame tz inc df = df.
Proof.
  destruct df as [cols z rs]. unfold CleanIntraday.index. cbn [CleanIntraday.f_rows f_tz].
  intros -> Hs Hall.
  unfold CleanIntradayFacts.rth_frame, between_time, select_rows, sort_index, _ensure_tz.
  cbn [CleanIntraday.f_rows CleanIntraday.f_columns f_tz f_columns].
  rewrite (sort_rows_sorted rs Hs).
  assert (Hrow : forall r : row, In r rs -> session_filter tz inc (fst r) = true).
  { intros r Hr. apply Hall. apply in_map. exact Hr. }
  unfold session_filter in Hrow.
  rewrite (filter_all_rows _ rs).
  - rewrite filter_all_rows; [reflexivity|].
    intros r Hr. specialize (Hrow r Hr). apply andb_true_iff in Hrow. tauto.
  - intros r Hr. specialize (Hrow r Hr). apply andb_true_iff in Hrow. tauto.
Qed.

Lemma clean_to_rth_strict (prices volumes p v : frame) (tz : string)
    (include_close_bar : bool) :
  has_dup (index prices) = false ->
  has_dup (index volumes) = false ->
  clean_to_rth prices volumes tz include_close_bar = Ok (p, v) ->
  StronglySorted Z.lt (index p) /\ StronglySorted Z.lt (index v).
Proof.
  intros Hp Hv. apply has_dup_NoDup in Hp, Hv. unfold CleanIntraday.clean_to_rth.
  fold (rth_frame tz (if include_close_bar then incl_both else incl_left) prices).
  fold (rth_frame tz (if include_close_bar then incl_both else incl_left) volumes).
  set (P := rth_frame tz _ prices). set (W := rth_frame tz _ volumes).
  destruct (reindex P (union (index P) (index W))) as [P'|] eqn:HP; simpl; [|discriminate].
  destruct (reindex W (union (index P) (index W))) as [W'|] eqn:HW; simpl; [|discriminate].
  intros [= <- <-].
  apply reindex_index in HP. apply reindex_index in HW.
  unfold CleanIntraday.index in *. cbn [CleanIntraday.f_rows].
  assert (Hs : StronglySorted Z.lt (union (map fst (f_rows P)) (map fst (f_rows W)))).
  { apply sorted_strict; [apply union_sorted|].
    apply union_NoDup; apply rth_frame_NoDup; assumption. }
  split; apply loc_mask_sorted; [rewrite HP|rewrite HW]; exact Hs.
Qed.

(** X20: [clean_to_rth] is idempotent on frames without duplicate
    timestamps: the frames it returns go through it unchanged. *)
Theorem clean_to_rth_idempotent (prices volumes p v : frame) (tz : string)
    (include_close_bar : bool) :
  has_dup (index prices) = false ->
  has_dup (index volumes) = false ->
  clean_to_rth prices volumes tz include_close_bar = Ok (p, v) ->
  clean_to_rth p v tz include_close_bar = Ok (p, v).
Proof.
  intros Hdp Hdv Hrun.
  destruct (clean_to_rth_aligned prices volumes p v tz include_close_bar Hrun)
    as (Hidx & Hsess & Hmask & Htzp & Htzv).
  destruct (clean_to_rth_strict prices volumes p v tz include_close_bar Hdp Hdv Hrun)
    as [Hsp Hsv].
  clear Hrun Hdp Hdv.
  unfold CleanIntraday.clean_to_rth.
  fold (rth_frame tz (if include_close_bar then incl_both else incl_left) p).
  fold (rth_frame tz (if include_close_bar then incl_both else incl_left) v).
  set (inc := if include_close_bar then incl_both else incl_left).
  rewrite (rth_frame_fixed tz inc p Htzp Hsp).
  2:{ intros t Ht. apply session_filter_spec, Hsess. exact Ht. }
  rewrite (rth_frame_fixed tz inc v Htzv Hsv).
  2:{ intros t Ht. apply session_filter_spec, Hsess. rewrite Hidx. exact Ht. }
  rewrite <- Hidx, (union_self _ Hsp).
  unfold CleanIntraday.reindex.
  rewrite bool_decide_eq_true_2 by reflexivity.
  rewrite bool_decide_eq_true_2 by (symmetry; exact Hidx).
  cbn [rbind].
  destruct (loc_mask_all
              (fun pv : row * row => negb (all_nan (snd (fst pv)) && all_nan (snd (snd pv))))
              (f_rows p) (f_rows v)) as [H1 H2].
  { apply same_index_length. exact Hidx. }
  { intros i rp rv Hp Hv. cbn [fst snd]. rewrite (Hmask i rp rv Hp Hv). reflexivity. }
  rewrite H1, H2. destruct p, v. reflexivity.
Qed.

End Frames.

(** *** On the frames of the example *)

Lemma clean_to_rth_returns_without_duplicates_witness :
  exists p v : CleanIntraday.frame Z,
    clean_to_rth Z Reference.edt Reference.prices_frame Reference.volumes_frame
      "America/New_York" true = Ok (p, v).
Proof.
  apply clean_to_rth_returns_without_duplicates; vm_compute; reflexivity.
Defined.

Lemma clean_to_rth_output_is_sorted_witness :
  exists p v : CleanIntraday.frame Z,
    clean_to_rth Z Reference.edt Reference.prices_frame Reference.volumes_frame
      "America/New_York" true = Ok (p, v)
    /\ StronglySorted Z.le (index Z p).
Proof.
  eexists _, _. split; [vm_compute; reflexivity|].
  refine (proj1 (clean_to_rth_output_is_sorted Z Reference.edt Reference.prices_frame
                   Reference.volumes_frame _ _ "America/New_York" true _)).
  vm_compute. reflexivity.
Defined.

(** Prices with the 09:30 bar twice, against volumes that have a bar at
    11:00. *)
Definition doubled_prices : CleanIntraday.frame Z :=
  CleanIntraday.mkFrame Z ["AAPL"]%string None
    [ (Reference.utc_ns 19936 13 30, [Some 100]);
      (Reference.utc_ns 19936 13 30, [Some 101]) ].

Lemma duplicate_timestamps_raise_witness :
  clean_to_rth Z Reference.edt doubled_prices Reference.volumes_frame
    "America/New_York" true = Err ValueError.
Proof.
  apply (duplicate_timestamps_raise Z Reference.edt doubled_prices Reference.volumes_frame
           "America/New_York" true
           (Reference.utc_ns 19936 13 30) (Reference.utc_ns 19936 15 0) [] [] []).
  - reflexivity.
  - apply (proj1 (session_filter_spec Reference.edt "America/New_York" true _)).
    vm_compute. reflexivity.
  - right. left. reflexivity.
  - apply (proj1 (session_filter_spec Reference.edt "America/New_York" true _)).
    vm_compute. reflexivity.
  - intros [H|[H|[]]]; vm_compute in H; discriminate.
Defined.

Lemma session_bars_are_kept_witness :
  exists p v : CleanIntraday.frame Z,
    clean_to_rth Z Reference.edt Reference.prices_frame Reference.volumes_frame
      "America/New_York" true = Ok (p, v)
    /\ In (Reference.utc_ns 19936 13 30, [Some 100; None]) (f_rows Z p).
Proof.
  eexists _, _. split; [vm_compute; reflexivity|].
  refine (proj1 (session_bars_are_kept Z Reference.edt Reference.prices_frame
                   Reference.volumes_frame _ _ "America/New_York" true _)
            (Reference.utc_ns 19936 13 30) [Some 100; None] _ _ _).
  - vm_compute. reflexivity.
  - right. left. reflexivity.
  - apply (proj1 (session_filter_spec Reference.edt "America/New_York" true _)).
    vm_compute. reflexivity.
  - reflexivity.
Defined.

Lemma clean_to_rth_idempotent_witness :
  exists p v : CleanIntraday.frame Z,
    clean_to_rth Z Reference.edt Reference.prices_frame Reference.volumes_frame
      "America/New_York" true = Ok (p, v)
    /\ clean_to_rth Z Reference.edt p v "America/New_York" true = Ok (p, v).
Proof.
  eexists _, _. split; [vm_compute; reflexivity|].
  apply (clean_to_rth_idempotent Z Reference.edt Reference.prices_frame
           Reference.volumes_frame).
  - vm_compute. reflexivity.
  - vm_compute. reflexivity.
  - vm_compute. reflexivity.
Defined.

End CleanIntradayRuns.

(** ** The calendar: from a parsed timestamp to its month *)

Module CalendarFacts.
Import Arrow Normalizer Strptime Calendar.

Definition is_leap (y : Z) : bool :=
  (y mod 4 =? 0) && (negb (y mod 100 =? 0) || (y mod 400 =? 0)).

Definition days_in_month (y m : Z) : Z :=
  if m =? 2 then (if is_leap y then 29 else 28)
  else if (m =? 4) || (m =? 6) || (m =? 9) || (m =? 11) then 30
  else 31.

(** *** Day counts and dates *)

Lemma year_of_era (yoe doy : Z) :
  0 <= yoe < 400 -> 0 <= doy ->
  doy <= 364 \/ (doy = 365 /\ (yoe + 1) mod 4 = 0
                 /\ ((yoe + 1) mod 100 <> 0 \/ (yoe + 1) mod 400 = 0)) ->
  let doe := yoe * 365 + yoe / 4 - yoe / 100 + doy in
  (doe - doe / 1460 + doe / 36524 - doe / 146096) / 365 = yoe.
Proof.
  intros H1 H2 H3 doe. subst doe. Z.div_mod_to_equations. lia.
Qed.

Lemma is_leap_spec (y : Z) :
  is_leap y = true <-> y mod 4 = 0 /\ (y mod 100 <> 0 \/ y mod 400 = 0).
Proof.
  unfold is_leap. rewrite andb_true_iff, orb_true_iff, negb_true_iff, !Z.eqb_eq, Z.eqb_neq.
  tauto.
Qed.

(** The day of the year that starts in March, for a date of the
    calendar: it is within the year, and gives back the month. *)
Lemma day_of_year (y m d : Z) :
  1 <= m <= 12 -> 1 <= d <= days_in_month y m ->
  let y' := if m <=? 2 then y - 1 else y in
  let yoe := y' - y' / 400 * 400 in
  let mp := (m + 9) mod 12 in
  let doy := (153 * mp + 2) / 5 + d - 1 in
  0 <= doy
  /\ (doy <= 364 \/ (doy = 365 /\ (yoe + 1) mod 4 = 0
                     /\ ((yoe + 1) mod 100 <> 0 \/ (yoe + 1) mod 400 = 0)))
  /\ (5 * doy + 2) / 153 = mp
  /\ (if mp <? 10 then mp + 3 else mp - 9) = m
  /\ (m <= 2 -> 306 <= doy)
  /\ (3 <= m -> doy <= 305).
Proof.
  intros Hm Hd. unfold days_in_month in Hd.
  pose proof (is_leap_spec y) as Hleap.
  assert (Hcase : m = 1 \/ m = 2 \/ m = 3 \/ m = 4 \/ m = 5 \/ m = 6 \/ m = 7 \/ m = 8
                  \/ m = 9 \/ m = 10 \/ m = 11 \/ m = 12) by lia.
  repeat (destruct Hcase as [->|Hcase]); try subst m; cbn -[Z.div Z.modulo Z.mul Z.add Z.sub] in *;
    cbn [Z.eqb Pos.eqb orb] in Hd;
    try (destruct (is_leap y); [destruct Hleap as [Hleap _]; specialize (Hleap eq_refl)|]);
    (repeat split; [..|intros; try lia|intros; try lia]);
    try (Z.div_mod_to_equations; lia).
Qed.

(** The date of the day count of a date is the date, in year and
    month, for every date of the proleptic Gregorian calendar. *)
Lemma date_roundtrip (y m d : Z) :
  1 <= m <= 12 -> 1 <= d <= days_in_month y m ->
  civil_from_days (days_from_civil y m d) = (y, m).
Proof.
  intros Hm Hd.
  destruct (day_of_year y m d Hm Hd) as (H0 & Hlast & Hmp & Hmonth & _).
  unfold days_from_civil, civil_from_days.
  set (y' := if m <=? 2 then y - 1 else y) in *.
  set (era := y' / 400) in *. set (yoe := y' - era * 400) in *.
  set (mp := (m + 9) mod 12) in *.
  set (doy := (153 * mp + 2) / 5 + d - 1) in *.
  set (doe := yoe * 365 + yoe / 4 - yoe / 100 + doy).
  assert (Hyoe : 0 <= yoe < 400).
  { subst yoe era. pose proof (Z.mod_pos_bound y' 400 ltac:(lia)) as H.
    rewrite Z.mod_eq in H by lia. lia. }
  assert (Hdoe : 0 <= doe < 146097).
  { subst doe. Z.div_mod_to_equations. lia. }
  replace (era * 146097 + doe - 719468 + 719468) with (doe + era * 146097) by lia.
  rewrite Z.div_add by lia. rewrite (Z.div_small doe 146097) by lia.
  replace (doe + era * 146097 - (0 + era) * 146097) with doe by lia.
  pose proof (year_of_era yoe doy Hyoe H0 Hlast) as Hy. cbv zeta in Hy. fold doe in Hy.
  rewrite Hy.
  replace (doe - (365 * yoe + yoe / 4 - yoe / 100)) with doy by (subst doe; lia).
  rewrite Hmp, Hmonth. f_equal.
  subst yoe y'. destruct (m <=? 2); lia.
Qed.

Lemma days_from_civil_bounds (y m d : Z) :
  1678 <= y <= 2261 -> 1 <= m <= 12 -> 1 <= d <= days_in_month y m ->
  -106650 <= days_from_civil y m d <= 106650.
Proof.
  intros Hy Hm Hd.
  destruct (day_of_year y m d Hm Hd) as (H0 & Hlast & _ & _ & Hjf & Hmd).
  unfold days_from_civil.
  set (y' := if m <=? 2 then y - 1 else y) in *.
  set (era := y' / 400) in *. set (yoe := y' - era * 400) in *.
  set (mp := (m + 9) mod 12) in *.
  set (doy := (153 * mp + 2) / 5 + d - 1) in *.
  assert (Hy' : (m <= 2 /\ y' = y - 1) \/ (3 <= m /\ y' = y)).
  { subst y'. destruct (m <=? 2) eqn:He; [apply Z.leb_le in He|apply Z.leb_gt in He]; lia. }
  clearbody doy mp. subst yoe era. clearbody y'.
  Z.div_mod_to_equations. lia.
Qed.

(** *** What the layouts can parse *)

(** The ranges that [strptime] checks, field by field. *)
Definition tm_ok (t : tm) : Prop :=
  0 <= tm_year t <= 9999 /\ 1 <= tm_mon t <= 12 /\ 0 <= tm_mday t <= 31
  /\ 0 <= tm_hour t <= 23 /\ 0 <= tm_min t <= 59 /\ 0 <= tm_sec t <= 61.

Lemma get_number_range (from to : Z) (n : nat) (s r : list ascii) (v : Z) :
  get_number from to n s = Some (v, r) -> from <= v <= to.
Proof.
  unfold get_number. destruct (skip_spaces s) as [|c s']; [discriminate|].
  destruct (is_digit c); [|discriminate].
  destruct (more_digits _ _ _ _) as [v0 rest].
  destruct ((from <=? v0) && (v0 <=? to)) eqn:Hr; [|discriminate].
  intros [= <- <-]. apply andb_true_iff in Hr. rewrite !Z.leb_le in Hr. exact Hr.
Qed.

Lemma directive_ok (d : ascii) (t t' : tm) (s r : list ascii) :
  tm_ok t -> directive d t s = Some (t', r) -> tm_ok t'.
Proof.
  intros (Hy & Hm & Hd & Hh & Hmi & Hs). unfold directive.
  repeat match goal with
         | |- context [if ascii_eqb d ?c then _ else _] => destruct (ascii_eqb d c)
         | |- context [get_number ?a ?b ?n s] =>
             let H := fresh "Hg" in
             destruct (get_number a b n s) as [[v r0]|] eqn:H;
             [apply get_number_range in H|discriminate]
         end;
    try discriminate;
    intros [= <- <-]; unfold tm_ok; cbn [tm_year tm_mon tm_mday tm_hour tm_min tm_sec];
    repeat split; lia.
Qed.

Lemma strptime_c_ok (fmt : list ascii) (t t' : tm) (s r : list ascii) :
  tm_ok t -> strptime_c fmt t s = Some (t', r) -> tm_ok t'.
Proof.
  remember (length fmt) as n eqn:Hn. revert fmt Hn t s.
  induction n as [n IH] using lt_wf_ind. intros fmt Hn t s Hok.
  destruct fmt as [|f fmt']; simpl.
  - intros [= <- <-]. exact Hok.
  - destruct (is_space f).
    + apply (IH (length fmt')); [simpl in Hn; lia|reflexivity|exact Hok].
    + destruct (ascii_eqb f "%").
      * destruct fmt' as [|d fmt'']; [discriminate|].
        destruct (directive d t s) as [[t1 s1]|] eqn:Hd; [|discriminate].
        apply (IH (length fmt'')); [simpl in Hn; lia|reflexivity|].
        eapply directive_ok; eauto.
      * destruct s as [|c s']; [discriminate|].
        destruct (ascii_eqb c f); [|discriminate].
        apply (IH (length fmt')); [simpl in Hn; lia|reflexivity|exact Hok].
Qed.

Lemma tm0_ok : tm_ok tm0.
Proof. unfold tm_ok, tm0. simpl. lia. Qed.

(** The fields that a layout reads in a text, when it matches all of
    it; and those of the first layout that does. *)
Definition fields_of (fmt : string) (s : list ascii) : option tm :=
  match strptime_c (list_ascii_of_string fmt) tm0 s with
  | Some (t, []) => Some t
  | _ => None
  end.

Fixpoint first_fields (fmts : list string) (s : list ascii) : option tm :=
  match fmts with
  | [] => None
  | fmt :: fmts' =>
      match fields_of fmt s with
      | Some t => Some t
      | None => first_fields fmts' s
      end
  end.

Definition parsed_fields (s : string) : option tm :=
  first_fields layouts (strip_offset (strip_Z (list_ascii_of_string s))).

Lemma strptime_ns_fields (fmt : string) (s : list ascii) :
  strptime_ns fmt s
  = match fields_of fmt s with
    | Some t => if in_int64 (tm_to_ns t) then Some (tm_to_ns t) else None
    | None => None
    end.
Proof.
  unfold strptime_ns, fields_of.
  destruct (strptime_c _ tm0 s) as [[t [|c r]]|]; reflexivity.
Qed.

Lemma coalesce_fields (fmts : list string) (s : list ascii) (t : tm) :
  first_fields fmts s = Some t ->
  in_int64 (tm_to_ns t) = true ->
  coalesce (map (fun fmt => strptime_ns fmt s) fmts) = Some (tm_to_ns t).
Proof.
  intros H Hfit. induction fmts as [|fmt fmts IH]; simpl in *; [discriminate|].
  rewrite strptime_ns_fields. destruct (fields_of fmt s) as [t0|]; [|exact (IH H)].
  injection H as ->. rewrite Hfit. reflexivity.
Qed.

Lemma parse_row_fields (s : string) (t : tm) :
  parsed_fields s = Some t ->
  in_int64 (tm_to_ns t) = true ->
  parse_row s = Some (tm_to_ns t).
Proof. unfold parse_row, parsed_fields. apply coalesce_fields. Qed.

Lemma fields_of_ok (fmt : string) (s : list ascii) (t : tm) :
  fields_of fmt s = Some t -> tm_ok t.
Proof.
  unfold fields_of.
  destruct (strptime_c _ tm0 s) as [[t0 [|c r]]|] eqn:H; try discriminate.
  intros [= <-]. eapply strptime_c_ok; [apply tm0_ok|exact H].
Qed.

Lemma first_fields_ok (fmts : list string) (s : list ascii) (t : tm) :
  first_fields fmts s = Some t -> tm_ok t.
Proof.
  induction fmts as [|fmt fmts IH]; simpl; [discriminate|].
  destruct (fields_of fmt s) as [t0|] eqn:H; [|exact IH].
  intros [= <-]. eapply fields_of_ok; eauto.
Qed.

(** *** The month of a timestamp *)

Definition year_month (y m : Z) : string :=
  String.append (pad 4 y) (String.append "-" (pad 2 m)).

Section WithZones.

Variable tz_offset : string -> Z -> Z.

Lemma fields_day (t : tm) :
  0 <= tm_mday t <= days_in_month (tm_year t) (tm_mon t) ->
  1 <= Z.max (tm_mday t) 1 <= days_in_month (tm_year t) (tm_mon t).
Proof.
  unfold days_in_month.
  destruct (tm_mon t =? 2); [destruct (is_leap _)|destruct (_ || _)]; lia.
Qed.

(** The instants of the years 1678 to 2261 fit a timestamp. *)
Lemma fields_fit (t : tm) :
  1678 <= tm_year t <= 2261 ->
  1 <= tm_mon t <= 12 ->
  0 <= tm_mday t <= days_in_month (tm_year t) (tm_mon t) ->
  0 <= tm_hour t <= 23 -> 0 <= tm_min t <= 59 -> 0 <= tm_sec t <= 59 ->
  in_int64 (tm_to_ns t) = true.
Proof.
  intros Hy Hm Hd Hh Hmi Hs.
  pose proof (days_from_civil_bounds _ _ _ Hy Hm (fields_day t Hd)) as Hb.
  unfold in_int64, tm_to_ns. set (days := days_from_civil _ _ _) in *.
  change (2 ^ 63) with 9223372036854775808.
  apply andb_true_iff. split; [apply Z.leb_le|apply Z.ltb_lt]; lia.
Qed.

Lemma month_of_fields (t : tm) :
  1 <= tm_mon t <= 12 ->
  0 <= tm_mday t <= days_in_month (tm_year t) (tm_mon t) ->
  0 <= tm_hour t <= 23 -> 0 <= tm_min t <= 59 -> 0 <= tm_sec t <= 59 ->
  strftime_Ym tz_offset ts_ns (Some (s_int (tm_to_ns t)))
  = Some (s_str (year_month (tm_year t) (tm_mon t))).
Proof.
  intros Hm Hd Hh Hmi Hs.
  pose proof (date_roundtrip _ _ _ Hm (fields_day t Hd)) as Hrt.
  unfold tm_to_ns. set (days := days_from_civil _ _ _) in *.
  set (secs := days * 86400 + tm_hour t * 3600 + tm_min t * 60 + tm_sec t).
  assert (Hsod : 0 <= tm_hour t * 3600 + tm_min t * 60 + tm_sec t < 86400) by lia.
  unfold strftime_Ym, ts_ns. cbn [ticks_per_second].
  rewrite Z.div_mul by lia.
  assert (Hdays : secs / 86400 = days).
  { subst secs. symmetry.
    apply (Z.div_unique _ 86400 days (tm_hour t * 3600 + tm_min t * 60 + tm_sec t)); lia. }
  rewrite Hdays, Hrt. reflexivity.
Qed.

(** X21: When [_parse_timestamp_ns_from_str] reads in a text, with its first
    matching layout, a date of the calendar in the years 1678 to 2261 and
    at most 59 seconds, the timestamp it gives is the instant of these
    fields, and the month that [_month_str] gives for this timestamp is
    the year and the month read: the row goes to the file of the month
    written in its text. *)
Theorem parsed_timestamp_lands_in_its_month (s : string) (t : tm) :
  parsed_fields s = Some t ->
  1678 <= tm_year t <= 2261 ->
  tm_mday t <= days_in_month (tm_year t) (tm_mon t) ->
  tm_sec t <= 59 ->
  parse_row s = Some (tm_to_ns t)
  /\ strftime_Ym tz_offset ts_ns (Some (s_int (tm_to_ns t)))
     = Some (s_str (year_month (tm_year t) (tm_mon t))).
Proof.
  intros H Hy Hd Hs.
  destruct (first_fields_ok _ _ _ H) as (_ & Hm & Hd0 & Hh & Hmi & Hs0).
  split; [apply parse_row_fields; [exact H|apply fields_fit; lia]|].
  apply month_of_fields; lia.
Qed.

End WithZones.

(** A day that the month does not have is taken as it comes: the 30th
    of February 2024 is the 1st of March. *)
Lemma february_30_lands_in_march :
  option_map (fun v => strftime_Ym Reference.utc ts_ns (Some (s_int v)))
    (parse_row "2024-02-30T00:00:00")
  = Some (Some (s_str "2024-03")).
Proof. vm_compute. reflexivity. Qed.

Lemma parsed_timestamp_lands_in_its_month_witness :
  parse_row "2024-02-29T23:59:59Z" = Some 1709251199000000000
  /\ strftime_Ym Reference.utc ts_ns (Some (s_int 1709251199000000000))
     = Some (s_str "2024-02").
Proof.
  exact (parsed_timestamp_lands_in_its_month Reference.utc
           "2024-02-29T23:59:59Z" (mkTm 2024 2 29 23 59 59)
           eq_refl ltac:(simpl; lia) ltac:(vm_compute; discriminate)
           ltac:(simpl; lia)).
Defined.

End CalendarFacts.

(** ** What [convert_parquets] keeps and what it writes *)

Module ConvertParquetsFacts.
Import ConvertParquets.

Definition parquet_of (date_str : text) : text := date_str ++ of_ascii ".parquet".

Section Runs.

Variable is_decimal : N -> bool.
Variables E frame timestamp stored : Type.

Local Abbreviation library := (ConvertParquets.library E frame timestamp stored).
Local Abbreviation disk := (ConvertParquets.disk stored).
Local Abbreviation match_name := (ConvertParquets.match_name is_decimal).
Local Abbreviation convert_one := (ConvertParquets.convert_one is_decimal).
Local Abbreviation convert_parquets := (ConvertParquets.convert_parquets is_decimal).

Lemma convert_one_keeps (lib : library) (st : disk) (name p : text) (x : stored) :
  parquets st !! p = Some x ->
  parquets (fst (convert_one lib st name)) !! p = Some x.
Proof.
  intros Hp. unfold ConvertParquets.convert_one.
  destruct (match_name name) as [d|]; [|exact Hp].
  fold (parquet_of d). destruct (parquets st !! parquet_of d) eqn:Hd; [exact Hp|].
  destruct (converted lib name d); [|exact Hp].
  cbn [fst parquets]. rewrite lookup_insert_ne; [exact Hp|].
  intros <-. rewrite Hd in Hp. discriminate.
Qed.

Lemma convert_parquets_keeps (lib : library) (listing : list text) (st : disk)
    (p : text) (x : stored) :
  parquets st !! p = Some x ->
  parquets (fst (convert_parquets lib listing st)) !! p = Some x.
Proof.
  revert st. induction listing as [|f listing IH]; intros st Hp; [exact Hp|].
  simpl. pose proof (convert_one_keeps lib st f p x Hp) as H1.
  destruct (convert_one lib st f) as [st' [[]|e]]; [apply IH|]; exact H1.
Qed.

(** X22: [convert_parquets] never touches a parquet file that is there when it
    starts: whether the run ends or stops at an exception, the file is
    there afterwards with what it held, also when the raw file of its
    date has changed since. *)
Theorem existing_parquets_are_never_rewritten (lib : library) (listing : list text)
    (st : disk) (p : text) (x : stored) :
  parquets st !! p = Some x ->
  parquets (fst (convert_parquets lib listing st)) !! p = Some x.
Proof. apply convert_parquets_keeps. Qed.

Lemma convert_one_dated (lib : library) (st : disk) (name d : text) :
  match_name name = Some d ->
  snd (convert_one lib st name) = Done tt ->
  is_Some (parquets (fst (convert_one lib st name)) !! parquet_of d).
Proof.
  intros Hm. unfold ConvertParquets.convert_one. rewrite Hm. fold (parquet_of d).
  destruct (parquets st !! parquet_of d) eqn:Hd; [intros _; cbn [fst parquets]; eauto|].
  destruct (converted lib name d); [|discriminate].
  intros _. cbn [fst parquets]. rewrite lookup_insert_eq. eauto.
Qed.

Lemma convert_parquets_dated (lib : library) (listing : list text) (st : disk)
    (name d : text) :
  snd (convert_parquets lib listing st) = Done tt ->
  In name listing -> match_name name = Some d ->
  is_Some (parquets (fst (convert_parquets lib listing st)) !! parquet_of d).
Proof.
  revert st. induction listing as [|f listing IH]; intros st Hok Hin Hm; [destruct Hin|].
  simpl in *.
  pose proof (convert_one_dated lib st f d) as H1.
  destruct (convert_one lib st f) as [st' [[]|e]] eqn:Hone; [|discriminate].
  destruct Hin as [<-|Hin]; [|apply IH; assumption].
  destruct (H1 Hm eq_refl) as [x Hx]. exists x.
  apply convert_parquets_keeps. exact Hx.
Qed.

Lemma convert_one_origin (lib : library) (st : disk) (name p : text) (x : stored) :
  parquets (fst (convert_one lib st name)) !! p = Some x ->
  parquets st !! p = Some x
  \/ exists d, match_name name = Some d /\ p = parquet_of d
               /\ parquets st !! p = None /\ converted lib name d = Done x.
Proof.
  unfold ConvertParquets.convert_one.
  destruct (match_name name) as [d|]; [|left; assumption].
  fold (parquet_of d).
  destruct (parquets st !! parquet_of d) eqn:Hd; [left; assumption|].
  destruct (converted lib name d) as [y|e] eqn:Hc; [|left; assumption].
  cbn [fst parquets]. destruct (decide (parquet_of d = p)) as [<-|Hne].
  - rewrite lookup_insert_eq. intros [= <-]. right. exists d. auto.
  - rewrite lookup_insert_ne by exact Hne. left. assumption.
Qed.

Lemma convert_parquets_origin (lib : library) (listing : list text) (st : disk)
    (p : text) (x : stored) :
  parquets (fst (convert_parquets lib listing st)) !! p = Some x ->
  parquets st !! p = Some x
  \/ exists name d, In name listing /\ match_name name = Some d /\ p = parquet_of d
                    /\ parquets st !! p = None /\ converted lib name d = Done x.
Proof.
  revert st. induction listing as [|f listing IH]; intros st Hp; [left; exact Hp|].
  simpl in Hp.
  assert (Hstep : parquets (fst (convert_one lib st f)) !! p = Some x
                  \/ exists name d, In name listing /\ match_name name = Some d
                       /\ p = parquet_of d
                       /\ parquets (fst (convert_one lib st f)) !! p = None
                       /\ converted lib name d = Done x).
  { destruct (convert_one lib st f) as [st' [[]|e]]; [apply IH|left]; exact Hp. }
  destruct Hstep as [H1|(name & d & Hin & Hm & -> & Hnone & Hc)].
  - destruct (convert_one_origin lib st f p x H1) as [H0|(d & Hm & -> & Hnone & Hc)];
      [left; exact H0|].
    right. exists f, d. simpl. auto.
  - right. exists name, d. simpl. repeat split; auto.
    destruct (parquets st !! parquet_of d) as [y|] eqn:Hy; [|reflexivity].
    rewrite (convert_one_keeps lib st f _ y Hy) in Hnone. discriminate.
Qed.

(** X23: When [convert_parquets] ends without an exception, every raw file
    whose name the pattern matches (eight decimal digits, of any script,
    and [.csv.lz4]) has the parquet file of its digits; and every
    parquet file there is was there before, unchanged, or is new and
    holds the frame read from a raw file of its digits, with the [date]
    column set to the date that they spell. *)
Theorem a_finished_run_converts_every_dated_file (lib : library)
    (listing : list text) (st : disk) :
  snd (convert_parquets lib listing st) = Done tt ->
  let st' := fst (convert_parquets lib listing st) in
  (forall name d, In name listing -> match_name name = Some d ->
                  is_Some (parquets st' !! parquet_of d))
  /\ (forall p x, parquets st' !! p = Some x ->
        parquets st !! p = Some x
        \/ exists name d, In name listing /\ match_name name = Some d
             /\ p = parquet_of d /\ parquets st !! p = None
             /\ converted lib name d = Done x).
Proof.
  intros Hok st'. split.
  - intros name d Hin Hm. apply (convert_parquets_dated lib listing st name d); assumption.
  - intros p x. apply convert_parquets_origin.
Qed.

Lemma rerun_skips (lib : library) (listing : list text) (st : disk) :
  (forall name d, In name listing -> match_name name = Some d ->
                  is_Some (parquets st !! parquet_of d)) ->
  snd (convert_parquets lib listing st) = Done tt
  /\ parquets (fst (convert_parquets lib listing st)) = parquets st
  /\ length (printed (fst (convert_parquets lib listing st)))
     = (length (printed st) + length listing)%nat.
Proof.
  revert st. induction listing as [|f listing IH]; intros st Hall; simpl.
  - repeat split. lia.
  - assert (Hone : exists ln, convert_one lib st f
                              = (mkDisk (parquets st) (printed st ++ [ln]), Done tt)).
    { unfold ConvertParquets.convert_one. destruct (match_name f) as [d|] eqn:Hm; [|eauto].
      destruct (Hall f d (or_introl eq_refl) Hm) as [x Hx].
      unfold parquet_of in Hx. rewrite Hx. eauto. }
    destruct Hone as [ln ->].
    destruct (IH (mkDisk (parquets st) (printed st ++ [ln]))) as (H1 & H2 & H3).
    { intros name d Hin Hm. cbn [parquets]. apply (Hall name d); [right|]; assumption. }
    cbn [parquets printed] in *. repeat split; [exact H1|exact H2|].
    rewrite H3, length_app. simpl. lia.
Qed.

(** X24: After a run of [convert_parquets] that ended without an exception, a
    second run over the same names reads no raw file and writes nothing:
    whatever the raw files hold by then, and whatever the library would
    do with them, it ends without an exception, leaves every parquet file
    as it is, and prints one line for each name. *)
Theorem second_run_converts_nothing (lib lib' : library) (listing : list text)
    (st : disk) :
  snd (convert_parquets lib listing st) = Done tt ->
  let st1 := fst (convert_parquets lib listing st) in
  snd (convert_parquets lib' listing st1) = Done tt
  /\ parquets (fst (convert_parquets lib' listing st1)) = parquets st1
  /\ length (printed (fst (convert_parquets lib' listing st1)))
     = (length (printed st1) + length listing)%nat.
Proof.
  intros Hok st1. apply rerun_skips.
  intros name d Hin Hm. apply (convert_parquets_dated lib listing st name d); assumption.
Qed.

End Runs.

(** *** A small library *)

(** The ten ASCII digits and the ten Arabic-Indic ones, out of the
    decimal digits of Unicode. *)
Definition two_scripts (n : N) : bool :=
  ((48 <=? n) && (n <=? 57) || (1632 <=? n) && (n <=? 1641))%N.

(** Frames as lists of named columns of numbers, with a date that is kept
    as the number its text reads, and no date beyond the year 2261. *)
Definition small_setitem (df : list (string * Z)) (name : string) (v : Z)
  : list (string * Z) :=
  (name, v) :: List.filter (fun c => negb (String.eqb (fst c) name)) df.

Definition digits_value (s : text) : Z :=
  fold_left (fun acc n => acc * 10 + Z.of_N (if (n <? 1632)%N then n - 48 else n - 1632)%N)
            s 0.

Definition small : library unit (list (string * Z)) Z (list (string * Z)) :=
  mkLibrary _ _ _ _
    (fun name => Done [("funding"%string, Z.of_nat (length name))])
    (fun s => if digits_value s <? 22620000 then Done (digits_value s) else Raised tt)
    small_setitem
    (fun df => Done df).

(** The second name has its date in Arabic-Indic digits. *)
Definition small_listing : list text :=
  [ of_ascii "20240101.csv.lz4";
    [1634; 1632; 1634; 1636; 1632; 1633; 1632; 1634]%N ++ of_ascii ".csv.lz4";
    of_ascii "notes.csv.lz4" ].

Definition old_disk : disk (list (string * Z)) :=
  mkDisk {[ of_ascii "20240101.parquet" := [("date"%string, 7)] ]} [].

Lemma existing_parquets_are_never_rewritten_witness :
  parquets (fst (convert_parquets two_scripts small small_listing old_disk))
    !! of_ascii "20240101.parquet"
  = Some [("date"%string, 7)].
Proof.
  apply (existing_parquets_are_never_rewritten two_scripts _ _ _ _ small small_listing
           old_disk).
  reflexivity.
Defined.

Lemma a_finished_run_converts_every_dated_file_witness :
  snd (convert_parquets two_scripts small small_listing old_disk) = Done tt
  /\ parquets (fst (convert_parquets two_scripts small small_listing old_disk))
       !! ([1634; 1632; 1634; 1636; 1632; 1633; 1632; 1634]%N ++ of_ascii ".parquet")
     = Some [("date"%string, 20240102); ("funding"%string, 16)]
  /\ (forall name d, In name small_listing -> match_name two_scripts name = Some d ->
        is_Some (parquets (fst (convert_parquets two_scripts small small_listing old_disk))
                 !! parquet_of d)).
Proof.
  assert (H : snd (convert_parquets two_scripts small small_listing old_disk) = Done tt)
    by (vm_compute; reflexivity).
  split; [exact H|]. split; [vm_compute; reflexivity|].
  exact (proj1 (a_finished_run_converts_every_dated_file two_scripts _ _ _ _ small
                  small_listing old_disk H)).
Defined.

(** A library under which every read fails. *)
Definition unreadable : library unit (list (string * Z)) Z (list (string * Z)) :=
  mkLibrary _ _ _ _ (fun _ => Raised tt) (fun _ => Raised tt) small_setitem
    (fun _ => Raised tt).

Lemma second_run_converts_nothing_witness :
  snd (convert_parquets two_scripts small small_listing old_disk) = Done tt
  /\ snd (convert_parquets two_scripts unreadable small_listing
            (fst (convert_parquets two_scripts small small_listing old_disk))) = Done tt
  /\ parquets (fst (convert_parquets two_scripts unreadable small_listing
                      (fst (convert_parquets two_scripts small small_listing old_disk))))
     = parquets (fst (convert_parquets two_scripts small small_listing old_disk)).
Proof.
  assert (H : snd (convert_parquets two_scripts small small_listing old_disk) = Done tt)
    by (vm_compute; reflexivity).
  split; [exact H|].
  destruct (second_run_converts_nothing two_scripts _ _ _ _ small unreadable small_listing
              old_disk H)
    as (H1 & H2 & _).
  split; assumption.
Defined.

End ConvertParquetsFacts.

(** ** Which requests share a file *)

Module IoPathsFacts.
Import IoPaths TextFacts.

Definition is_separator (c : ascii) : bool :=
  Ascii.eqb c "/" || Ascii.eqb c ":" || Ascii.eqb c "_".

(** Two tickers are alike when they have the same characters, but for the
    places where both have one of [/], [:] and [_]. *)
Inductive alike : string -> string -> Prop :=
| alike_empty : alike EmptyString EmptyString
| alike_char (c1 c2 : ascii) (s1 s2 : string) :
    c1 = c2 \/ (is_separator c1 = true /\ is_separator c2 = true) ->
    alike s1 s2 ->
    alike (String c1 s1) (String c2 s2).

Definition safe (ticker : string) : string := replace ":" "_" (replace "/" "_" ticker).

Definition safe_c (c : ascii) : ascii :=
  let c' := if Ascii.eqb c "/" then "_"%char else c in
  if Ascii.eqb c' ":" then "_"%char else c'.

Lemma safe_c_spec (c : ascii) : safe_c c = if is_separator c then "_"%char else c.
Proof.
  unfold safe_c, is_separator.
  destruct (Ascii.eqb_spec c "/") as [->|H1]; [reflexivity|]. simpl.
  destruct (Ascii.eqb_spec c ":") as [->|H2]; [reflexivity|]. simpl.
  destruct (Ascii.eqb_spec c "_") as [->|H3]; reflexivity.
Qed.

Lemma safe_char (c1 c2 : ascii) :
  safe_c c1 = safe_c c2
  <-> c1 = c2 \/ (is_separator c1 = true /\ is_separator c2 = true).
Proof.
  rewrite !safe_c_spec.
  destruct (is_separator c1) eqn:H1; destruct (is_separator c2) eqn:H2.
  - split; auto.
  - split; [intros <-; discriminate H2|intros [->|[_ H]]; congruence].
  - split; [intros ->; discriminate H1|intros [->|[H _]]; congruence].
  - split; [auto|intros [H|[H _]]; [exact H|discriminate]].
Qed.

Lemma replace_safe (c : ascii) (t : string) :
  replace ":" "_" (replace "/" "_" (String c t))
  = String (safe_c c) (replace ":" "_" (replace "/" "_" t)).
Proof. reflexivity. Qed.

Lemma safe_alike (t1 t2 : string) : safe t1 = safe t2 <-> alike t1 t2.
Proof.
  unfold safe. split.
  - revert t2. induction t1 as [|c1 t1 IH]; intros [|c2 t2]; try discriminate.
    + intros _. constructor.
    + rewrite !replace_safe. intros [= Hc Ht].
      constructor; [apply safe_char; exact Hc|apply IH; exact Ht].
  - induction 1 as [|c1 c2 s1 s2 Hc _ IH]; [reflexivity|].
    rewrite !replace_safe. apply safe_char in Hc. rewrite Hc, IH. reflexivity.
Qed.

Section Dirs.

Variables PROCESSED_DIR RAW_DIR : list string.

(** X25: Two tickers that are alike have the same processed file and the same
    raw files, for every period: [BRK/A], [BRK:A] and [BRK_A] are read
    from and written to the same paths, and [read_processed] gives for
    the one what was stored for the other. *)
Theorem alike_tickers_share_their_files {frame : Type} (fs : gmap (list string) frame)
    (t1 t2 start end_ : string) :
  alike t1 t2 ->
  _processed_path PROCESSED_DIR t1 start end_ = _processed_path PROCESSED_DIR t2 start end_
  /\ (forall kind, _raw_path RAW_DIR t1 start end_ kind = _raw_path RAW_DIR t2 start end_ kind)
  /\ read_processed PROCESSED_DIR fs t1 start end_
     = read_processed PROCESSED_DIR fs t2 start end_.
Proof.
  intros H. apply safe_alike in H. unfold safe in H.
  unfold read_processed, _processed_path, _raw_path. rewrite H. auto.
Qed.

End Dirs.

(** *** When two requests have the same path *)

Definition no_underscore (s : string) : Prop := ~ In "_"%char (chars s).

Definition slash_free (s : string) : Prop := ~ In "/"%char (chars s).

Lemma no_underscore_parquet (e : string) :
  no_underscore e -> ~ In "_"%char (chars e ++ chars ".parquet").
Proof.
  intros He Hin. apply in_app_or in Hin. destruct Hin as [Hin|Hin]; [exact (He Hin)|].
  simpl in Hin. repeat (destruct Hin as [Hin|Hin]; [discriminate|]). exact Hin.
Qed.

Lemma safe_slash_free (t : string) : slash_free (safe t).
Proof.
  unfold slash_free, safe. induction t as [|c t IH]; [simpl; tauto|].
  rewrite replace_safe. cbn [chars list_ascii_of_string In]. intros [H|H]; [|exact (IH H)].
  rewrite safe_c_spec in H. unfold is_separator in H.
  destruct (Ascii.eqb_spec c "/") as [->|Hc]; simpl in H; [discriminate|].
  destruct (Ascii.eqb c ":" || Ascii.eqb c "_"); [discriminate|]. congruence.
Qed.

(** A text without a [/] is one part. *)
Lemma split_slash_free (l : list ascii) : ~ In "/"%char l -> split_slash l = [l].
Proof.
  induction l as [|c l IH]; [reflexivity|]. intros H. simpl.
  destruct (Ascii.eqb_spec c "/") as [->|Hc]; [exfalso; apply H; left; reflexivity|].
  rewrite IH; [reflexivity|]. intros Hin. apply H. right. exact Hin.
Qed.

Lemma root_of_slash_free (s : string) : slash_free s -> root_of s = None.
Proof.
  unfold slash_free, root_of, chars. destruct (list_ascii_of_string s) as [|c l]; [reflexivity|].
  intros H. destruct (Ascii.eqb_spec c "/") as [->|Hc]; [exfalso; apply H; left; reflexivity|].
  destruct c as [[] [] [] [] [] [] [] []]; try reflexivity. exfalso. apply Hc. reflexivity.
Qed.

(** The name of a parquet file that has no [/] in it is a path of one
    segment. *)
Lemma joinpath_file (dir : list string) (x : string) :
  slash_free (String.append x ".parquet") ->
  joinpath dir (String.append x ".parquet") = dir ++ [String.append x ".parquet"].
Proof.
  intros H. unfold joinpath. rewrite (root_of_slash_free _ H). f_equal.
  unfold segments. fold (chars (String.append x ".parquet")).
  rewrite (split_slash_free _ H). cbn [map List.filter]. unfold chars.
  rewrite string_of_list_ascii_of_string.
  assert (Hlen : (8 <= String.length (String.append x ".parquet"))%nat).
  { clear. induction x as [|c x IH]; simpl in *; lia. }
  destruct (String.append x ".parquet") as [|c1 [|c2 r]]; simpl in Hlen; try lia.
  simpl. destruct (Ascii.eqb c1 "."); reflexivity.
Qed.

Lemma slash_free_app (s1 s2 : string) :
  slash_free s1 -> slash_free s2 -> slash_free (String.append s1 s2).
Proof.
  unfold slash_free. rewrite chars_app. intros H1 H2 Hin.
  apply in_app_or in Hin. tauto.
Qed.

Lemma slash_free_literal_underscore : slash_free "_".
Proof. unfold slash_free. simpl. intros [H|[]]. discriminate. Qed.

Lemma slash_free_literal_parquet : slash_free ".parquet".
Proof.
  unfold slash_free. simpl. intros H.
  repeat (destruct H as [H|H]; [discriminate|]). exact H.
Qed.

Section Exact.

Variable PROCESSED_DIR : list string.

Lemma processed_path_file (t s e : string) :
  slash_free s -> slash_free e ->
  _processed_path PROCESSED_DIR t s e
  = PROCESSED_DIR
    ++ [String.append
          (String.append (safe t)
             (String.append "_" (String.append s (String.append "_" e)))) ".parquet"].
Proof.
  intros Hs He. unfold _processed_path. fold (safe t).
  rewrite <- joinpath_file.
  - f_equal. apply chars_inj. rewrite !chars_app, <- !app_assoc. reflexivity.
  - repeat apply slash_free_app;
      auto using safe_slash_free, slash_free_literal_underscore, slash_free_literal_parquet.
Qed.

(** X26: For periods written without an underscore and without a slash,
    two requests have the same processed path exactly when their periods
    are the same and their tickers are alike: the cache keeps apart any
    two such periods, and any two tickers that differ in anything but
    [/], [:] and [_]. *)
Theorem same_processed_path_means_alike_tickers (t1 t2 s1 e1 s2 e2 : string) :
  no_underscore s1 -> no_underscore e1 -> no_underscore s2 -> no_underscore e2 ->
  slash_free s1 -> slash_free e1 -> slash_free s2 -> slash_free e2 ->
  _processed_path PROCESSED_DIR t1 s1 e1 = _processed_path PROCESSED_DIR t2 s2 e2
  <-> alike t1 t2 /\ s1 = s2 /\ e1 = e2.
Proof.
  intros Hs1 He1 Hs2 He2 Hf1 Hg1 Hf2 Hg2.
  rewrite !processed_path_file by assumption. split.
  - intros H. apply app_inv_head in H. injection H as H.
    apply (f_equal chars) in H. rewrite !chars_app, <- !app_assoc in H. simpl in H.
    assert (H' : (chars (safe t1) ++ "_"%char :: chars s1) ++ "_"%char :: (chars e1 ++ chars ".parquet")
                 = (chars (safe t2) ++ "_"%char :: chars s2) ++ "_"%char :: (chars e2 ++ chars ".parquet")).
    { rewrite <- !app_assoc. simpl. exact H. }
    apply cut_at_last in H'; [|apply no_underscore_parquet; assumption..].
    destruct H' as [H1 H2]. apply app_inv_tail in H2.
    apply cut_at_last in H1; [|assumption..].
    destruct H1 as [H1 H3].
    split; [apply safe_alike, chars_inj; exact H1|].
    split; apply chars_inj; assumption.
  - intros (Ht & -> & ->). apply safe_alike in Ht. rewrite Ht. reflexivity.
Qed.

End Exact.

(** Without the condition on the slashes the paths of two periods can be
    one: pathlib drops the empty segment of [2024//08]. *)
Lemma doubled_slash_is_dropped :
  _processed_path ["data"; "processed"]%string "AAPL" "2024//08" "x"
  = _processed_path ["data"; "processed"]%string "AAPL" "2024/08" "x".
Proof. vm_compute. reflexivity. Qed.

Lemma brk_alike : alike "BRK/A" "BRK:A".
Proof. repeat constructor; right; split; reflexivity. Qed.

Lemma alike_tickers_share_their_files_witness :
  _processed_path ["data"; "processed"]%string "BRK/A" "2024-08-01" "2024-08-31"
  = ["data"; "processed"; "BRK_A_2024-08-01_2024-08-31.parquet"]%string
  /\ _processed_path ["data"; "processed"]%string "BRK/A" "2024-08-01" "2024-08-31"
     = _processed_path ["data"; "processed"]%string "BRK:A" "2024-08-01" "2024-08-31"
  /\ read_processed ["data"; "processed"]%string
       ({[ ["data"; "processed"; "BRK_A_2024-08-01_2024-08-31.parquet"]%string := 1%nat ]})
       "BRK:A" "2024-08-01" "2024-08-31" = Some 1%nat.
Proof.
  destruct (alike_tickers_share_their_files ["data"; "processed"]%string
              ["data"; "raw"]%string
              ({[ ["data"; "processed"; "BRK_A_2024-08-01_2024-08-31.parquet"]%string
                  := 1%nat ]})
              "BRK/A" "BRK:A" "2024-08-01" "2024-08-31" brk_alike) as (H1 & _ & H3).
  split; [reflexivity|]. split; [exact H1|].
  rewrite <- H3. reflexivity.
Defined.

Lemma free_of (a : ascii) (s : string) :
  forallb (fun c => negb (Ascii.eqb c a)) (chars s) = true -> ~ In a (chars s).
Proof.
  intros H Hin. rewrite forallb_forall in H. specialize (H _ Hin).
  rewrite Ascii.eqb_refl in H. discriminate.
Qed.

Lemma brk_alike_underscore : alike "BRK/A" "BRK_A".
Proof. repeat constructor; right; split; reflexivity. Qed.

Lemma same_processed_path_means_alike_tickers_witness :
  (_processed_path ["data"; "processed"]%string "BRK/A" "2024-08-01" "2024-08-31"
   = _processed_path ["data"; "processed"]%string "BRK_A" "2024-08-01" "2024-08-31"
   <-> alike "BRK/A" "BRK_A" /\ "2024-08-01"%string = "2024-08-01"%string
       /\ "2024-08-31"%string = "2024-08-31"%string)
  /\ (_processed_path ["data"; "processed"]%string "AAPL.O" "2024-08-01" "2024-08-31"
      = _processed_path ["data"; "processed"]%string "AAPL.O" "2024-08-01" "2024-09-30"
      <-> alike "AAPL.O" "AAPL.O" /\ "2024-08-01"%string = "2024-08-01"%string
          /\ "2024-08-31"%string = "2024-09-30"%string).
Proof.
  split; apply (same_processed_path_means_alike_tickers ["data"; "processed"]%string);
    apply free_of; reflexivity.
Defined.

End IoPathsFacts.
